(** * llm-helpers: the gitignore-aware filtered file walker

    A shallow embedding of [bin/shared/fs_utils.py]: the gitignore pattern
    compiler ([GitIgnorePattern]), the pattern-set resolution
    ([parse_gitignore], [is_ignored_by_gitignore]), the binary detector
    ([is_binary_file]) and the walker ([walk_filtered_files]), together with
    the fragment of Python's [re], [str] and [os] modules they rely on.

    Modelling conventions.
    - A Python [str] is a list of characters; a character is an 8-bit
      [ascii] (code points 0..255).  A [bytes] object is a [list byte].
    - Code that may raise returns an [option]; [None] is the exception.
    - Paths are POSIX paths ([os.sep] is a slash).
    - The file system is a finite tree that does not change during a
      walk; symbolic links are not modelled.
    - A generator is the list of what it yields when it is run to its
      end. *)

From Stdlib Require Import Ascii String Strings.Byte ZArith Bool Lia DecimalString
  Sorting.Sorted.
From stdpp Require Import base list gmap strings.

Local Open Scope string_scope.
Local Open Scope list_scope.

(** ** Python strings *)

Module PyStr.

Definition str := list ascii.

Definition chars (s : string) : str := list_ascii_of_string s.
Coercion chars : string >-> str.

Definition ascii_eqb (a b : ascii) : bool := bool_decide (a = b).

(** [c in s] for a one-character [c]. *)
Definition mem (c : ascii) (s : str) : bool := existsb (ascii_eqb c) s.

(** [s.startswith(p)] *)
Fixpoint startswith (s p : str) : bool :=
  match p, s with
  | [], _ => true
  | a :: p', b :: s' => ascii_eqb b a && startswith s' p'
  | _ :: _, [] => false
  end.

(** [s.endswith(p)] *)
Definition endswith (s p : str) : bool := startswith (rev s) (rev p).

(** [s[1:]] and [s[:-1]] *)
Definition drop_first (s : str) : str := tail s.
Definition drop_last (s : str) : str := removelast s.

(** [s.replace(old, new)]: the occurrences of [old] are found from left to
    right and do not overlap.  [skip] counts the characters of the current
    occurrence that are still to be passed over. *)
Fixpoint replace_from (old new : str) (skip : nat) (s : str) : str :=
  match s with
  | [] => []
  | c :: s' =>
      match skip with
      | S k => replace_from old new k s'
      | O =>
          if startswith s old
          then new ++ replace_from old new (length old - 1) s'
          else c :: replace_from old new 0 s'
      end
  end.

Definition replace (s old new : str) : str :=
  match old with
  | [] => new ++ concat (map (fun c => c :: new) s)
  | _ :: _ => replace_from old new 0 s
  end.

(** [str.isspace] on the code points below 256. *)
Definition isspace (c : ascii) : bool :=
  let n := nat_of_ascii c in
  (Nat.leb 9 n && Nat.leb n 13) || (Nat.leb 28 n && Nat.leb n 32)
  || Nat.eqb n 133 || Nat.eqb n 160.

Fixpoint lstrip (s : str) : str :=
  match s with
  | [] => []
  | c :: s' => if isspace c then lstrip s' else s
  end.

(** [s.strip()] *)
Definition strip (s : str) : str := rev (lstrip (rev (lstrip s))).

(** [sep.join(parts)] for the separator [/]. *)
Fixpoint join_sep (parts : list str) : str :=
  match parts with
  | [] => []
  | [p] => p
  | p :: rest => p ++ "/"%char :: join_sep rest
  end.

End PyStr.
Export PyStr.

(** ** The fragment of Python's [re] used by the pattern compiler *)

Module Re.

Definition nl : ascii := ascii_of_nat 10.
Definition cr : ascii := ascii_of_nat 13.

(** The characters [re.escape] puts a backslash in front of (Python 3.7
    and later): [()[]{}?*+-|^$\.&~#] and the white space characters. *)
Definition special_chars : str :=
  chars "()[]{}?*+-|^$\.&~# "
  ++ [ascii_of_nat 9; nl; cr; ascii_of_nat 11; ascii_of_nat 12].

Definition is_special (c : ascii) : bool := mem c special_chars.

Definition escape_char (c : ascii) : str :=
  if is_special c then ["\"%char; c] else [c].

(** [re.escape(pattern)] *)
Definition escape (pattern : str) : str := concat (map escape_char pattern).

(** Parsed regular expressions. *)
Inductive regex : Type :=
| Empty                                  (* the empty sequence *)
| Chr (c : ascii)                        (* a literal character *)
| AnyChar                                (* [.]: any character but a newline *)
| CharSet (negated : bool) (cs : str)    (* [[...]] and [[^...]] *)
| Bol                                    (* [^] *)
| Eol                                    (* [$] *)
| Star (r : regex)                       (* [r*], greedy *)
| Cat (r1 r2 : regex)
| Alt (r1 r2 : regex)
| Group (r : regex).                     (* [(r)] *)

(** *** Parsing

    The parser reads the pattern one character at a time.  Its state is
    a lexical mode and a stack of open groups; a group holds the
    alternatives that are complete and the items of the current one, both
    in reverse order. *)

Inductive mode : Type :=
| Normal
| Escaped                                (* after a backslash *)
| SetOpen                                (* after [[] *)
| SetItems (negated first : bool) (acc : str).

Record frame : Type := Frame { alts_rev : list regex; items_rev : list regex }.

Record pstate : Type := PState { pmode : mode; cur : frame; outer : list frame }.

Definition seq_of (items_rev : list regex) : regex :=
  fold_left (fun acc r => Cat r acc) items_rev Empty.

Definition alt_of (f : frame) : regex :=
  fold_left (fun acc r => Alt r acc) (alts_rev f) (seq_of (items_rev f)).

Definition push_item (r : regex) (st : pstate) : pstate :=
  PState Normal (Frame (alts_rev (cur st)) (r :: items_rev (cur st))) (outer st).

Definition is_alnum (c : ascii) : bool :=
  let n := nat_of_ascii c in
  (Nat.leb 48 n && Nat.leb n 57) || (Nat.leb 65 n && Nat.leb n 90)
  || (Nat.leb 97 n && Nat.leb n 122).

(** One character in [Normal] mode.  Repetition other than [*], group
    extensions, class escapes and back references are outside the fragment
    and give [None], as do the patterns [re.compile] rejects. *)
Definition step_normal (c : ascii) (st : pstate) : option pstate :=
  if ascii_eqb c "\" then Some (PState Escaped (cur st) (outer st))
  else if ascii_eqb c "[" then Some (PState SetOpen (cur st) (outer st))
  else if ascii_eqb c "(" then
    Some (PState Normal (Frame [] []) (cur st :: outer st))
  else if ascii_eqb c ")" then
    match outer st with
    | [] => None
    | f :: fs =>
        Some (PState Normal
                (Frame (alts_rev f) (Group (alt_of (cur st)) :: items_rev f)) fs)
    end
  else if ascii_eqb c "|" then
    Some (PState Normal
            (Frame (seq_of (items_rev (cur st)) :: alts_rev (cur st)) [])
            (outer st))
  else if ascii_eqb c "*" then
    match items_rev (cur st) with
    | [] => None                                   (* nothing to repeat *)
    | Star _ :: _ => None                          (* multiple repeat *)
    | Bol :: _ | Eol :: _ => None                  (* nothing to repeat *)
    | r :: rs =>
        Some (PState Normal (Frame (alts_rev (cur st)) (Star r :: rs)) (outer st))
    end
  else if ascii_eqb c "+" || ascii_eqb c "?" || ascii_eqb c "{" then None
  else if ascii_eqb c "." then Some (push_item AnyChar st)
  else if ascii_eqb c "^" then Some (push_item Bol st)
  else if ascii_eqb c "$" then Some (push_item Eol st)
  else Some (push_item (Chr c) st).

Definition step (st : pstate) (c : ascii) : option pstate :=
  match pmode st with
  | Normal => step_normal c st
  | Escaped =>
      if is_alnum c then None else Some (push_item (Chr c) st)
  | SetOpen =>
      if ascii_eqb c "^"
      then Some (PState (SetItems true true []) (cur st) (outer st))
      else if ascii_eqb c "\" || ascii_eqb c "-" || ascii_eqb c "["
      then None
      else Some (PState (SetItems false false [c]) (cur st) (outer st))
  | SetItems neg first acc =>
      if ascii_eqb c "]" && negb first
      then Some (push_item (CharSet neg (rev acc)) st)
      else if ascii_eqb c "\" || ascii_eqb c "-" || ascii_eqb c "["
      then None
      else Some (PState (SetItems neg false (c :: acc)) (cur st) (outer st))
  end.

Fixpoint run (st : pstate) (s : str) : option pstate :=
  match s with
  | [] => Some st
  | c :: s' =>
      match step st c with
      | Some st' => run st' s'
      | None => None
      end
  end.

Definition init : pstate := PState Normal (Frame [] []) [].

(** [re.compile(pattern)], without flags. *)
Definition compile (pattern : str) : option regex :=
  match run init pattern with
  | Some (PState Normal f []) => Some (alt_of f)
  | _ => None
  end.

(** *** Matching

    [matches_at r bol s k] tells whether [r] matches a prefix of [s] such
    that the continuation [k] accepts what follows; [bol] tells whether
    [s] starts at the beginning of the subject.  The alternatives are
    tried in the order of Python's backtracking matcher.  Only whether a
    match exists is computed, which is all [bool(r.search(s))] needs; so
    a repetition may leave out the iterations that consume nothing, and
    the length of the subject bounds the number of the others. *)

Definition at_eol (s : str) : bool :=
  match s with
  | [] => true
  | [c] => ascii_eqb c nl
  | _ => false
  end.

Fixpoint matches_at (r : regex) (bol : bool) (s : str)
    (k : bool -> str -> bool) : bool :=
  match r with
  | Empty => k bol s
  | Chr c =>
      match s with
      | a :: s' => ascii_eqb a c && k false s'
      | [] => false
      end
  | AnyChar =>
      match s with
      | a :: s' => negb (ascii_eqb a nl) && k false s'
      | [] => false
      end
  | CharSet neg cs =>
      match s with
      | a :: s' => xorb neg (mem a cs) && k false s'
      | [] => false
      end
  | Bol => bol && k bol s
  | Eol => at_eol s && k bol s
  | Star r' =>
      (fix loop (fuel : nat) (bol : bool) (s : str) {struct fuel} : bool :=
         match fuel with
         | O => k bol s
         | S fuel' =>
             matches_at r' bol s
               (fun bol' s' =>
                  if Nat.ltb (length s') (length s) then loop fuel' bol' s' else false)
             || k bol s
         end) (length s) bol s
  | Cat r1 r2 => matches_at r1 bol s (fun bol' s' => matches_at r2 bol' s' k)
  | Alt r1 r2 => matches_at r1 bol s k || matches_at r2 bol s k
  | Group r' => matches_at r' bol s k
  end.

Fixpoint search_from (r : regex) (bol : bool) (s : str) : bool :=
  matches_at r bol s (fun _ _ => true)
  || match s with
     | [] => false
     | _ :: s' => search_from r false s'
     end.

(** [bool(r.search(s))] *)
Definition search (r : regex) (s : str) : bool := search_from r true s.

End Re.

(** ** Bytes, UTF-8 and text files *)

Module PyBytes.

Definition bytes := list byte.

#[global] Instance byte_eq_decision : EqDecision byte := Byte.byte_eq_dec.

Definition byte_val (b : byte) : nat := N.to_nat (Byte.to_N b).

Definition in_range (lo hi : nat) (b : byte) : bool :=
  Nat.leb lo (byte_val b) && Nat.leb (byte_val b) hi.

Definition is_cont (b : byte) : bool := in_range 128 191 b.

(** [b'\x00' in sample] *)
Definition has_null (sample : bytes) : bool :=
  existsb (fun b => Nat.eqb (byte_val b) 0) sample.

(** Whether [sample.decode('utf-8')] succeeds: the strict decoder accepts
    the well-formed sequences of RFC 3629 only (no overlong forms, no
    surrogates, nothing above U+10FFFF, no truncated sequence). *)
Fixpoint utf8_valid (bs : bytes) : bool :=
  match bs with
  | [] => true
  | b0 :: r0 =>
      if in_range 0 127 b0 then utf8_valid r0
      else
        match r0 with
        | [] => false
        | b1 :: r1 =>
            if in_range 194 223 b0 then is_cont b1 && utf8_valid r1
            else
              match r1 with
              | [] => false
              | b2 :: r2 =>
                  if in_range 224 224 b0
                  then in_range 160 191 b1 && is_cont b2 && utf8_valid r2
                  else if in_range 225 236 b0 || in_range 238 239 b0
                  then is_cont b1 && is_cont b2 && utf8_valid r2
                  else if in_range 237 237 b0
                  then in_range 128 159 b1 && is_cont b2 && utf8_valid r2
                  else
                    match r2 with
                    | [] => false
                    | b3 :: r3 =>
                        if in_range 240 240 b0
                        then in_range 144 191 b1 && is_cont b2 && is_cont b3
                             && utf8_valid r3
                        else if in_range 241 243 b0
                        then is_cont b1 && is_cont b2 && is_cont b3
                             && utf8_valid r3
                        else if in_range 244 244 b0
                        then in_range 128 143 b1 && is_cont b2 && is_cont b3
                             && utf8_valid r3
                        else false
                    end
              end
        end
  end.

(** [f.read(size)] at the start of a file opened in binary mode: the whole
    content for a negative [size], its first [size] bytes otherwise. *)
Definition read (content : bytes) (size : Z) : bytes :=
  if (size <? 0)%Z then content else take (Z.to_nat size) content.

(** The text of a file opened in text mode.  The model decodes one byte
    to one character, which is what every ASCII-compatible locale encoding
    does on ASCII content. *)
Definition decode_text (content : bytes) : str := map ascii_of_byte content.

(** [for line in f] with universal newlines: a line ends after a line
    feed, a carriage return or the pair of them, and keeps a line feed as
    its terminator. *)
Fixpoint text_lines_from (cur_rev : str) (s : str) : list str :=
  match s with
  | [] => match cur_rev with [] => [] | _ :: _ => [rev cur_rev] end
  | c :: s' =>
      if ascii_eqb c Re.cr then
        match s' with
        | d :: s'' =>
            if ascii_eqb d Re.nl
            then rev (Re.nl :: cur_rev) :: text_lines_from [] s''
            else rev (Re.nl :: cur_rev) :: text_lines_from [] s'
        | [] => [rev (Re.nl :: cur_rev)]
        end
      else if ascii_eqb c Re.nl
      then rev (Re.nl :: cur_rev) :: text_lines_from [] s'
      else text_lines_from (c :: cur_rev) s'
  end.

Definition text_lines (s : str) : list str := text_lines_from [] s.

End PyBytes.
Export PyBytes.

(** ** The file system *)

Module FS.

(** A file system tree.  The entries of a directory are in the order in
    which the operating system enumerates them.  A real directory has no
    two entries of the same name; the model does not need that, a path
    then names the first of them. *)
#[local] Unset Elimination Schemes.
Inductive node : Type :=
| File (content : option bytes)        (* [None]: reading it fails *)
| Dir (entries : list (str * node))
| DirDenied.                           (* a directory that cannot be listed *)
#[local] Set Elimination Schemes.

Definition is_dir (n : node) : bool :=
  match n with File _ => false | Dir _ | DirDenied => true end.

Fixpoint find_entry (name : str) (entries : list (str * node)) : option node :=
  match entries with
  | [] => None
  | (n, c) :: rest =>
      if bool_decide (n = name) then Some c else find_entry name rest
  end.

(** The node a path names; a path is the list of its components below the
    root of the tree. *)
Fixpoint lookup (fs : node) (path : list str) : option node :=
  match path with
  | [] => Some fs
  | name :: path' =>
      match fs with
      | Dir entries =>
          match find_entry name entries with
          | Some c => lookup c path'
          | None => None
          end
      | _ => None
      end
  end.

(** [os.path.exists(path)] *)
Definition exists_ (fs : node) (path : list str) : bool :=
  match lookup fs path with Some _ => true | None => false end.

(** [open(path, 'rb')] followed by reads: the content, or [None] when an
    [OSError] is raised (no such file, a directory, no permission). *)
Definition open_rb (fs : node) (path : list str) : option bytes :=
  match lookup fs path with
  | Some (File (Some content)) => Some content
  | _ => None
  end.

(** [open(path, 'r')] followed by reads. *)
Definition open_r (fs : node) (path : list str) : option str :=
  decode_text <$> open_rb fs path.

(** [os.path.join(a, b)] *)
Definition path_join (a b : str) : str :=
  if startswith b "/" then b
  else if bool_decide (a = []) || endswith a "/" then a ++ b
  else a ++ "/"%char :: b.

End FS.
Export FS.

(** ** Induction on file system trees *)

Section NodeInd.
Variable P : node -> Prop.
Hypothesis P_File : forall content, P (File content).
Hypothesis P_Dir : forall entries, Forall (fun e => P e.2) entries -> P (Dir entries).
Hypothesis P_DirDenied : P DirDenied.

Fixpoint node_ind (n : node) : P n :=
  match n with
  | File content => P_File content
  | Dir entries =>
      P_Dir entries
        ((fix all (es : list (str * node)) : Forall (fun e => P e.2) es :=
            match es with
            | [] => List.Forall_nil (fun e => P e.2)
            | (name, c) :: es' =>
                List.Forall_cons (fun e => P e.2) (name, c) es' (node_ind c) (all es')
            end) entries)
  | DirDenied => P_DirDenied
  end.

End NodeInd.

(** ** [fs_utils.py] *)

(** Common dependency/build directories to ignore by default. *)
Definition COMMON_IGNORE_DIRS : gset str :=
  list_to_set (map chars
    [ (* JavaScript/TypeScript *)
      "node_modules"; "dist"; "build"; ".next"; ".nuxt"; "coverage";
      (* Python *)
      "__pycache__"; "venv"; "env"; ".env"; ".venv"; ".pytest_cache";
      ".mypy_cache"; "site-packages"; ".tox"; ".eggs"; "egg-info";
      (* Go *)
      "vendor"; "bin";
      (* PHP *)
      "vendor"; "composer.phar";
      (* Java/JVM *)
      "target"; "build"; "out"; ".gradle"; ".mvn"; "classes";
      (* Ruby/Rails *)
      "vendor"; "tmp"; "log"; ".bundle";
      (* Django *)
      "migrations"; "staticfiles";
      (* .NET/C# *)
      "bin"; "obj"; "packages";
      (* Common cache directories *)
      ".cache"; "cache"; ".sass-cache" ]).

Record GitIgnorePattern : Type := {
  pattern : str;
  is_negated : bool;
  is_dir_only : bool;
  is_absolute : bool;
  regex_pattern : Re.regex
}.

(** The text that [_pattern_to_regex] hands to [re.compile]. *)
Definition regex_source (is_absolute is_dir_only : bool) (pattern : str) : str :=
  (* Escape all regex special characters except * and ? *)
  let pattern := Re.escape pattern in
  (* Convert gitignore glob patterns to regex *)
  let pattern := replace pattern "\*\*" ".*" in
  let pattern := replace pattern "\*" "[^/]*" in
  let pattern := replace pattern "\?" "[^/]" in
  (* Add start/end anchors based on pattern type *)
  let pattern := if is_absolute then chars "^" ++ pattern
                 else chars "(^|/)" ++ pattern in
  if is_dir_only then pattern ++ chars "(/|$)" else pattern ++ chars "($|/)".

Definition _pattern_to_regex (is_absolute is_dir_only : bool) (pattern : str)
    : option Re.regex :=
  Re.compile (regex_source is_absolute is_dir_only pattern).

(** [GitIgnorePattern(pattern)] *)
Definition GitIgnorePattern__init__ (line : str) : option GitIgnorePattern :=
  let negated := startswith line "!" in
  let p := if negated then drop_first line else line in
  let dir_only := endswith p "/" in
  let p := if dir_only then drop_last p else p in
  let absolute := startswith p "/" in
  let p := if absolute then drop_first p else p in
  r ← _pattern_to_regex absolute dir_only p;
  Some {| pattern := line; is_negated := negated; is_dir_only := dir_only;
          is_absolute := absolute; regex_pattern := r |}.

Definition matches (self : GitIgnorePattern) (path : str) (is_dir : bool) : bool :=
  (* Directory-only patterns can only match directories *)
  if is_dir_only self && negb is_dir then false
  else Re.search (regex_pattern self) path.

Fixpoint parse_lines (lines : list str) : option (list GitIgnorePattern) :=
  match lines with
  | [] => Some []
  | line :: rest =>
      let line := strip line in
      (* Skip empty lines and comments *)
      if bool_decide (line = []) || startswith line "#" then parse_lines rest
      else
        p ← GitIgnorePattern__init__ line;
        ps ← parse_lines rest;
        Some (p :: ps)
  end.

(** Parse a .gitignore file and return a list of patterns. *)
Definition parse_gitignore (fs : node) (gitignore_path : list str)
    : option (list GitIgnorePattern) :=
  if negb (FS.exists_ fs gitignore_path) then Some []
  else
    text ← open_r fs gitignore_path;
    parse_lines (text_lines text).

(** Check if a path is ignored by gitignore patterns. *)
Definition is_ignored_by_gitignore (rel_path : str) (is_dir : bool)
    (gitignore_patterns : list GitIgnorePattern) : bool :=
  match gitignore_patterns with
  | [] => false
  | _ :: _ =>
      fold_left
        (fun ignored pattern =>
           if matches pattern rel_path is_dir
           then negb (is_negated pattern)
           else ignored)
        gitignore_patterns false
  end.

(** Check if a file is binary by examining a sample of its contents. *)
Definition is_binary_file (fs : node) (file_path : list str) (sample_size : Z)
    : bool :=
  match open_rb fs file_path with
  | Some content =>
      let sample := read content sample_size in
      (* Check for null bytes which often indicate binary content *)
      if has_null sample then true
      (* Try to decode as text *)
      else if utf8_valid sample then false
      else true
  | None =>
      (* If we can't read the file, assume it's binary to be safe *)
      true
  end.

Definition default_sample_size : Z := 8192.

(** *** The walker *)

Section Walk.

Variable fs : node.
Variables show_hidden show_deps respect_gitignore binary_check : bool.
(** [None] when [respect_gitignore] is off, the parsed list otherwise. *)
Variable gitignore_patterns : option (list GitIgnorePattern).

Definition patterns_list : list GitIgnorePattern :=
  default [] gitignore_patterns.

Definition truthy (ps : option (list GitIgnorePattern)) : bool :=
  match ps with Some (_ :: _) => true | _ => false end.

Definition gitignored (rel_path : str) (is_dir : bool) : bool :=
  respect_gitignore && truthy gitignore_patterns
  && is_ignored_by_gitignore rel_path is_dir patterns_list.

(** The tests of the directory loop: is [dirname], found at the relative
    path [rel], popped from [dirnames]? *)
Definition pruned (dirname : str) (rel : list str) : bool :=
  (* Skip hidden directories *)
  if startswith dirname "." && negb show_hidden then true
  (* Skip common dependency directories *)
  else if bool_decide (dirname ∈ COMMON_IGNORE_DIRS) && negb show_deps then true
  (* Skip directories ignored by gitignore *)
  else gitignored (join_sep rel) true.

(** The [while i < len(dirnames)] loop: the names that are left in
    [dirnames], each with the node it names. *)
Fixpoint filter_dirnames (rel : list str) (dirnames : list (str * node))
    : list (str * node) :=
  match dirnames with
  | [] => []
  | (dirname, d) :: rest =>
      if pruned dirname (rel ++ [dirname])
      then filter_dirnames rel rest                   (* dirnames.pop(i) *)
      else (dirname, d) :: filter_dirnames rel rest   (* i += 1 *)
  end.

(** The tests of the file loop: is the file passed over? *)
Definition skipped (filename : str) (rel : list str) : bool :=
  (* Skip hidden files *)
  if startswith filename "." && negb show_hidden then true
  (* Skip files ignored by gitignore *)
  else if gitignored (join_sep rel) false then true
  (* Skip binary files if requested *)
  else binary_check && is_binary_file fs rel default_sample_size.

(** What the walk does, in order: the directories [os.walk] lists
    ([os.scandir] is called on them, with or without success) and the
    files the generator yields. *)
Inductive event : Type :=
| Scanned (rel : list str)
| Yielded (file_path : str) (rel : list str).

Definition process_files (dirpath : str) (rel : list str)
    (filenames : list str) : list event :=
  omap (fun filename =>
          if skipped filename (rel ++ [filename]) then None
          else Some (Yielded (path_join dirpath filename) (rel ++ [filename])))
       filenames.

Definition dir_entries (entries : list (str * node)) : list (str * node) :=
  filter (fun e => is_dir e.2 = true) entries.

Definition file_names (entries : list (str * node)) : list str :=
  (filter (fun e => is_dir e.2 = false) entries).*1.

(** [os.walk(top)], top down, with the body of the [for] loop run on each
    triple before the walk goes on into what is left of [dirnames]. *)
Fixpoint walk_node (n : node) (dirpath : str) (rel : list str) : list event :=
  match n with
  | Dir entries =>
      Scanned rel
      :: process_files dirpath rel (file_names entries)
      ++ (fix descend (dirs : list (str * node)) : list event :=
            match dirs with
            | [] => []
            | (dirname, d) :: rest =>
                (if is_dir d && negb (pruned dirname (rel ++ [dirname]))
                 then walk_node d (path_join dirpath dirname) (rel ++ [dirname])
                 else [])
                ++ descend rest
            end) entries
  | File _ | DirDenied => [Scanned rel]
  end.

End Walk.

(** Load gitignore patterns if needed. *)
Definition load_patterns (fs : node) (respect_gitignore : bool)
    : option (option (list GitIgnorePattern)) :=
  if respect_gitignore
  then Some <$> parse_gitignore fs [chars ".gitignore"]
  else Some None.

(** The trace of a whole walk of the tree [fs], known to the caller as
    [root_dir]; [None] when loading the patterns raises. *)
Definition walk_trace (fs : node) (root_dir : str)
    (show_hidden show_deps respect_gitignore binary_check : bool)
    : option (list event) :=
  gitignore_patterns ← load_patterns fs respect_gitignore;
  Some (walk_node fs show_hidden show_deps respect_gitignore binary_check
          gitignore_patterns fs root_dir []).

Definition yields (trace : list event) : list (str * str) :=
  omap (fun e => match e with
                 | Yielded file_path rel => Some (file_path, join_sep rel)
                 | Scanned _ => None
                 end) trace.

(** Walk through directory and yield file paths that pass all filters:
    the pairs [(abs_path, rel_path)] in the order they are yielded. *)
Definition walk_filtered_files (fs : node) (root_dir : str)
    (show_hidden show_deps respect_gitignore binary_check : bool)
    : option (list (str * str)) :=
  yields <$> walk_trace fs root_dir show_hidden show_deps respect_gitignore
                        binary_check.

(** ** Glob tokens

    What the escaping and the three replacements of [_pattern_to_regex]
    amount to, read off the pattern directly. *)

Module Glob.

Inductive token : Type :=
| TLit (c : ascii)       (* a character [re.escape] leaves alone *)
| TEsc (c : ascii)       (* a character [re.escape] puts a backslash before *)
| TAnyStar               (* two stars *)
| TSegStar               (* one star *)
| TSeg.                  (* a question mark *)

(** The regex text of a token. *)
Definition show (t : token) : str :=
  match t with
  | TLit c => [c]
  | TEsc c => ["\"%char; c]
  | TAnyStar => chars ".*"
  | TSegStar => chars "[^/]*"
  | TSeg => chars "[^/]"
  end.

(** The parsed regex of a token. *)
Definition item (t : token) : Re.regex :=
  match t with
  | TLit c | TEsc c => Re.Chr c
  | TAnyStar => Re.Star Re.AnyChar
  | TSegStar => Re.Star (Re.CharSet true ["/"%char])
  | TSeg => Re.CharSet true ["/"%char]
  end.

(** The token of a character that is neither a star nor a question mark. *)
Definition literal (c : ascii) : token :=
  if Re.is_special c then TEsc c else TLit c.

(** The tokens of a pattern, from left to right; of three stars in a row
    the first two make one token. *)
Fixpoint tokens (pattern : str) : list token :=
  match pattern with
  | [] => []
  | c :: p' =>
      if ascii_eqb c "*" then
        match p' with
        | d :: p'' =>
            if ascii_eqb d "*" then TAnyStar :: tokens p''
            else TSegStar :: tokens p'
        | [] => [TSegStar]
        end
      else if ascii_eqb c "?" then TSeg :: tokens p'
      else literal c :: tokens p'
  end.

(** The anchors [_pattern_to_regex] puts around the pattern. *)
Definition head_anchor (is_absolute : bool) : Re.regex :=
  if is_absolute then Re.Bol
  else Re.Group (Re.Alt (Re.Cat Re.Bol Re.Empty)
                        (Re.Cat (Re.Chr "/") Re.Empty)).

Definition tail_anchor (is_dir_only : bool) : Re.regex :=
  if is_dir_only
  then Re.Group (Re.Alt (Re.Cat (Re.Chr "/") Re.Empty) (Re.Cat Re.Eol Re.Empty))
  else Re.Group (Re.Alt (Re.Cat Re.Eol Re.Empty) (Re.Cat (Re.Chr "/") Re.Empty)).

(** The sequence [r1 r2 ... rn]. *)
Definition cat_list (items : list Re.regex) : Re.regex :=
  foldr Re.Cat Re.Empty items.

(** The compiled matcher of a pattern, by its structure. *)
Definition pattern_regex (is_absolute is_dir_only : bool) (pattern : str)
    : Re.regex :=
  cat_list (head_anchor is_absolute
            :: map item (tokens pattern) ++ [tail_anchor is_dir_only]).

(** A token as [re.escape] and the replacements can produce it. *)
Definition wf (t : token) : Prop :=
  match t with
  | TLit c => Re.is_special c = false
  | TEsc c => Re.is_special c = true
  | _ => True
  end.

(** The regex text of a list of tokens. *)
Definition text (ts : list token) : str := concat (map show ts).

(** The stages of the translation, on tokens: [swap] puts one token for
    an escaped character, [merge] puts [.*] for two escaped stars. *)
Definition swap (x : ascii) (new : token) (t : token) : token :=
  match t with
  | TEsc c => if ascii_eqb c x then new else t
  | _ => t
  end.

Fixpoint merge (ts : list token) : list token :=
  match ts with
  | [] => []
  | TEsc c :: rest =>
      match rest with
      | TEsc d :: rest' =>
          if ascii_eqb c "*" && ascii_eqb d "*"
          then TAnyStar :: merge rest'
          else TEsc c :: merge rest
      | _ => TEsc c :: merge rest
      end
  | t :: rest => t :: merge rest
  end.

(** The text of the anchors. *)
Definition head_text (is_absolute : bool) : str :=
  if is_absolute then chars "^" else chars "(^|/)".

Definition tail_text (is_dir_only : bool) : str :=
  if is_dir_only then chars "(/|$)" else chars "($|/)".

End Glob.

(** ** Vocabulary of the properties *)

(** A regex in which [^] does not occur. *)
Fixpoint no_bol (r : Re.regex) : bool :=
  match r with
  | Re.Bol => false
  | Re.Star r' | Re.Group r' => no_bol r'
  | Re.Cat r1 r2 | Re.Alt r1 r2 => no_bol r1 && no_bol r2
  | _ => true
  end.

(** Compile a line and query the pattern, in one step. *)
Definition matches_line (line path : str) (is_dir : bool) : option bool :=
  (fun p => matches p path is_dir) <$> GitIgnorePattern__init__ line.

(** The running boolean of the resolution loop. *)
Fixpoint running_verdict (ignored : bool) (rel_path : str) (is_dir : bool)
    (ps : list GitIgnorePattern) : bool :=
  match ps with
  | [] => ignored
  | p :: rest =>
      running_verdict
        (if matches p rel_path is_dir then negb (is_negated p) else ignored)
        rel_path is_dir rest
  end.

(** The verdict of the last pattern that matches, if one does. *)
Definition last_match_verdict (rel_path : str) (is_dir : bool)
    (ps : list GitIgnorePattern) : bool :=
  match last (filter (fun p => matches p rel_path is_dir = true) ps) with
  | Some p => negb (is_negated p)
  | None => false
  end.

(** The end-to-end scenario: the content of its [.gitignore]. *)
Definition lf : byte := x0a.

Definition scenario_gitignore : bytes :=
  list_byte_of_string "*.log" ++ [lf]
  ++ list_byte_of_string "!important.log" ++ [lf]
  ++ list_byte_of_string "node_modules/" ++ [lf].

(** The entries of the root, for any content of the four files. *)
Definition scenario_entries (a important b x : option bytes)
    : list (str * node) :=
  [ (chars ".gitignore", File (Some scenario_gitignore));
    (chars "a.log", File a);
    (chars "important.log", File important);
    (chars "b.txt", File b);
    (chars "node_modules", Dir [(chars "x.js", File x)]) ].

Definition scenario_ok (root_dir : str) (entries : list (str * node)) : bool :=
  match walk_filtered_files (Dir entries) root_dir false false true false with
  | Some out =>
      bool_decide (out.*2 = [chars "important.log"; chars "b.txt"]
                   \/ out.*2 = [chars "b.txt"; chars "important.log"])
  | None => false
  end.

(** A directory is excluded when its name is hidden and hidden entries are
    not shown, when its name is a dependency directory and those are not
    shown, or when the patterns ignore its relative path and gitignore is
    respected. *)
Definition excluded_dir (show_hidden show_deps respect_gitignore : bool)
    (ps : list GitIgnorePattern) (dirname : str) (rel : list str) : Prop :=
  (startswith dirname "." = true /\ show_hidden = false)
  \/ (dirname ∈ COMMON_IGNORE_DIRS /\ show_deps = false)
  \/ (respect_gitignore = true
      /\ is_ignored_by_gitignore (join_sep rel) true ps = true).

(** An event that touches the subtree of the directory [t]: [t] or a
    directory below it is listed, or a file below [t] is yielded. *)
Definition beneath (t : list str) (e : event) : Prop :=
  match e with
  | Scanned rel => t `prefix_of` rel
  | Yielded _ rel => exists name rest, rel = t ++ name :: rest
  end.

(** ** [generate_prompt_with_source_code.py] *)

Module Preview.

(** [str(n)] for an integer. *)
Definition str_of_int (n : Z) : str :=
  chars (NilZero.string_of_int (Z.to_int n)).

(** What opening the file and reading its lines comes to: the decoded
    text, a [UnicodeDecodeError], or another exception with its message. *)
Inductive outcome : Type :=
| Decoded (text : str)
| UnicodeDecodeError
| OtherException (message : str).

Definition truncation_line (max_lines : Z) : str :=
  chars "... [truncated after " ++ str_of_int max_lines
  ++ chars " lines] ..." ++ [Re.nl].

(** The [for i, line in enumerate(f)] loop, from the index [i] on, with the
    lines gathered so far. *)
Fixpoint preview_loop (max_lines : Z) (i : Z) (f : list str)
    (lines : list str) : list str :=
  match f with
  | [] => lines
  | line :: f' =>
      if (i >=? max_lines)%Z
      then lines ++ [truncation_line max_lines]
      else preview_loop max_lines (i + 1) f' (lines ++ [line])
  end.

(** Read the first max_lines from a file. *)
Definition read_file_preview (f : outcome) (max_lines : Z) : str :=
  match f with
  | Decoded text => concat (preview_loop max_lines 0 (text_lines text) [])
  | UnicodeDecodeError =>
      chars "[WARNING: File appears to be binary or uses an unsupported encoding]"
      ++ [Re.nl]
  | OtherException message =>
      chars "[ERROR: Could not read file: " ++ message ++ chars "]" ++ [Re.nl]
  end.

End Preview.

(** ** Vocabulary of the further properties *)


(** Whether one of the patterns matches. *)
Definition any_match (rel_path : str) (is_dir : bool)
    (ps : list GitIgnorePattern) : bool :=
  existsb (fun p => matches p rel_path is_dir) ps.

(** An ASCII character other than the null character. *)
Definition is_ascii_text (b : byte) : Prop := 1 <= byte_val b <= 127.

(** The node at a path of the tree, entry by entry. *)
Inductive at_path : node -> list str -> node -> Prop :=
| at_here n : at_path n [] n
| at_down entries d c ds n' :
    (d, c) ∈ entries -> at_path c ds n' ->
    at_path (Dir entries) (d :: ds) n'.

(** The path that [os.walk] gives for the directories [ds] below [dirpath]. *)
Definition join_all (dirpath : str) (ds : list str) : str :=
  foldl path_join dirpath ds.

Section Reach.
Variable fs : node.
Variables show_hidden show_deps respect_gitignore binary_check : bool.
Variable gitignore_patterns : option (list GitIgnorePattern).

(** [reach n rel ds n']: from the directory [n], found at [rel], the walk
    goes down the directories [ds], none of which the directory loop
    removes, and arrives at [n']. *)
Inductive reach : node -> list str -> list str -> node -> Prop :=
| reach_here n rel : reach n rel [] n
| reach_down entries rel d c ds n' :
    (d, c) ∈ entries ->
    is_dir c = true ->
    pruned show_hidden show_deps respect_gitignore gitignore_patterns
           d (rel ++ [d]) = false ->
    reach c (rel ++ [d]) ds n' ->
    reach (Dir entries) rel (d :: ds) n'.

(** What a walk does: it lists the directories it reaches, and yields the
    files of these directories that the file loop does not pass over. *)
Definition visits (n : node) (dirpath : str) (rel : list str) (e : event)
    : Prop :=
  exists ds n',
    reach n rel ds n'
    /\ (e = Scanned (rel ++ ds)
        \/ exists entries filename,
             n' = Dir entries
             /\ filename ∈ file_names entries
             /\ skipped fs show_hidden respect_gitignore binary_check
                     gitignore_patterns filename (rel ++ ds ++ [filename])
                = false
             /\ e = Yielded (path_join (join_all dirpath ds) filename)
                            (rel ++ ds ++ [filename])).

End Reach.

(** A name as a directory can hold it: not empty, without a slash. *)
Definition name_ok (name : str) : Prop := name <> [] /\ "/"%char ∉ name.

(** What the binary check lets through. *)
Definition not_binary (fs : node) (e : event) : bool :=
  match e with
  | Yielded _ rel => negb (is_binary_file fs rel default_sample_size)
  | Scanned _ => true
  end.

(** The path of an event. *)
Definition event_path (e : event) : list str :=
  match e with Scanned rel | Yielded _ rel => rel end.

(** A tree in which no directory has two entries of the same name. *)
#[local] Unset Elimination Schemes.
Inductive unique_names : node -> Prop :=
| unique_File content : unique_names (File content)
| unique_DirDenied : unique_names DirDenied
| unique_Dir entries :
    NoDup entries.*1 ->
    Forall (fun e => unique_names e.2) entries ->
    unique_names (Dir entries).
#[local] Set Elimination Schemes.

(** A pattern line without marker and without wildcard: no leading
    exclamation mark or slash, no trailing slash, no star, no question
    mark. *)
Definition plain_line (line : str) : Prop :=
  startswith line "!" = false
  /\ startswith line "/" = false
  /\ endswith line "/" = false
  /\ Forall (fun c => c <> "*"%char /\ c <> "?"%char) line.

(** [name] stands in [path] between two segment boundaries: it starts at
    the start of the path or after a slash, and ends at the end of the
    path, before a slash, or before a line feed that ends the path. *)
Definition occurs_as_segments (name path : str) : Prop :=
  exists before after,
    path = before ++ name ++ after
    /\ (before = [] \/ exists before', before = before' ++ ["/"%char])
    /\ (after = [] \/ after = [Re.nl] \/ exists after', after = "/"%char :: after').

(** ** [print_file_tree.py] *)

Module Tree.

(** The nested dictionaries of [build_tree_structure]: a file is [None],
    a directory is a dictionary from names to trees, which is either a
    [defaultdict(dict)] or, when the default of one made it, a plain
    [dict].  A dictionary is the list of its items in insertion order,
    each key once. *)
#[local] Unset Elimination Schemes.
Inductive tree : Type :=
| FileLeaf
| SubTree (defaulting : bool) (items : list (str * tree)).
#[local] Set Elimination Schemes.

Definition dict := list (str * tree).

(** [d.get(key)] *)
Fixpoint dict_get (key : str) (d : dict) : option tree :=
  match d with
  | [] => None
  | (k, v) :: d' => if bool_decide (k = key) then Some v else dict_get key d'
  end.

(** [key in d] *)
Definition dict_mem (key : str) (d : dict) : bool :=
  match dict_get key d with Some _ => true | None => false end.

(** [d[key] = value]: a key that is present keeps its place. *)
Fixpoint dict_set (key : str) (value : tree) (d : dict) : dict :=
  match d with
  | [] => [(key, value)]
  | (k, v) :: d' =>
      if bool_decide (k = key) then (k, value) :: d'
      else (k, v) :: dict_set key value d'
  end.

(** [s.split('/')] *)
Fixpoint split_from (cur_rev : str) (s : str) : list str :=
  match s with
  | [] => [rev cur_rev]
  | c :: s' =>
      if ascii_eqb c "/" then rev cur_rev :: split_from [] s'
      else split_from (c :: cur_rev) s'
  end.

Definition split_sep (s : str) : list str := split_from [] s.

(** [os.path.basename(p)] *)
Definition basename (p : str) : str := List.last (split_sep p) [].

(** The loop over the parts of one relative path, from the dictionary
    [current]; [None] is the [TypeError] raised when a part that is not
    the last names a file. *)
Fixpoint insert_parts (parts : list str) (current : dict) : option dict :=
  match parts with
  | [] => Some current
  | [part] => Some (dict_set part FileLeaf current)          (* File *)
  | part :: (_ :: _) as rest =>                               (* Directory *)
      let current :=
        if dict_mem part current then current
        else dict_set part (SubTree true []) current in
      match dict_get part current with
      | Some (SubTree defaulting sub) =>
          sub' ← insert_parts rest sub;
          Some (dict_set part (SubTree defaulting sub') current)
      | _ => None
      end
  end.

(** The loop over the files that the walk yields. *)
Fixpoint build_files (show_hidden : bool) (out : list (str * str))
    (tree : dict) : option dict :=
  match out with
  | [] => Some tree
  | (abs_path, rel_path) :: out' =>
      (* Skip the .gitignore file if we're not showing hidden files *)
      if bool_decide (basename rel_path = chars ".gitignore") && negb show_hidden
      then build_files show_hidden out' tree
      else
        tree' ← insert_parts (split_sep rel_path) tree;
        build_files show_hidden out' tree'
  end.

(** [build_tree_structure(root_dir, dirs_only=False, ...)] *)
Definition build_tree_structure_files (fs : node) (root_dir : str)
    (show_hidden show_deps respect_gitignore : bool) : option dict :=
  out ← walk_filtered_files fs root_dir show_hidden show_deps
          respect_gitignore false;
  build_files show_hidden out [].

(** [os.path.relpath(dirpath, root_dir)] for the directory found at [rel]
    below the root. *)
Definition relpath (rel : list str) : str :=
  match rel with [] => chars "." | _ => join_sep rel end.

(** The loop [for part in parts] from the dictionary [current], and the
    assignment [current[dirname] = defaultdict(dict)] after it.  A key
    that is missing is made by the default of a [defaultdict], as a plain
    dictionary; [None] is the [KeyError] of a plain dictionary, or the
    [TypeError] of a file taken for one. *)
Fixpoint set_dir (parts : list str) (dirname : str) (defaulting : bool)
    (current : dict) : option dict :=
  match parts with
  | [] => Some (dict_set dirname (SubTree true []) current)
  | part :: rest =>
      if bool_decide (part = chars ".")
      then set_dir rest dirname defaulting current
      else
        match dict_get part current with
        | Some (SubTree b sub) =>
            sub' ← set_dir rest dirname b sub;
            Some (dict_set part (SubTree b sub') current)
        | Some FileLeaf => None
        | None =>
            if defaulting
            then sub' ← set_dir rest dirname false [];
                 Some (dict_set part (SubTree false sub') current)
            else None
        end
  end.

(** Add directory to tree: [dirname], kept in the directory found at
    [rel]. *)
Definition add_dir (rel : list str) (dirname : str) (tree : dict)
    : option dict :=
  let rel_dir := relpath rel in
  if bool_decide (rel_dir = chars ".")
  then Some (dict_set dirname (SubTree true []) tree)     (* Root directory *)
  else set_dir (split_sep rel_dir) dirname true tree.     (* Nested directory *)

Section DirsOnly.

Variables show_hidden show_deps respect_gitignore : bool.
Variable gitignore_patterns : option (list GitIgnorePattern).

(** The [while i < len(dirnames)] loop of the [dirs_only] walk: the same
    tests as in [walk_filtered_files], and each name that is kept goes
    into the tree. *)
Fixpoint add_dirs (rel : list str) (dirnames : list (str * node))
    (tree : dict) : option dict :=
  match dirnames with
  | [] => Some tree
  | (dirname, _) :: rest =>
      if pruned show_hidden show_deps respect_gitignore gitignore_patterns
                dirname (rel ++ [dirname])
      then add_dirs rel rest tree
      else tree' ← add_dir rel dirname tree; add_dirs rel rest tree'
  end.

(** [os.walk(root_dir)] with this loop as its body. *)
Fixpoint walk_dirs (n : node) (rel : list str) (tree : dict) : option dict :=
  match n with
  | Dir entries =>
      tree ← add_dirs rel (dir_entries entries) tree;
      (fix descend (dirs : list (str * node)) (tree : dict) : option dict :=
         match dirs with
         | [] => Some tree
         | (dirname, d) :: rest =>
             tree' ← (if is_dir d
                         && negb (pruned show_hidden show_deps
                                    respect_gitignore gitignore_patterns
                                    dirname (rel ++ [dirname]))
                      then walk_dirs d (rel ++ [dirname]) tree
                      else Some tree);
             descend rest tree'
         end) entries tree
  | File _ | DirDenied => Some tree
  end.

End DirsOnly.

(** [build_tree_structure(root_dir, dirs_only=True, ...)] *)
Definition build_tree_structure_dirs (fs : node) (root_dir : str)
    (show_hidden show_deps respect_gitignore : bool) : option dict :=
  gitignore_patterns ← load_patterns fs respect_gitignore;
  walk_dirs show_hidden show_deps respect_gitignore gitignore_patterns
    fs [] [].

(** Build a tree structure from the directory. *)
Definition build_tree_structure (fs : node) (root_dir : str)
    (dirs_only show_hidden show_deps respect_gitignore : bool)
    : option dict :=
  if dirs_only
  then build_tree_structure_dirs fs root_dir show_hidden show_deps
         respect_gitignore
  else build_tree_structure_files fs root_dir show_hidden show_deps
         respect_gitignore.

(** What is at a path of the tree. *)
Fixpoint tree_at (d : dict) (path : list str) : option tree :=
  match path with
  | [] => Some (SubTree true d)
  | [part] => dict_get part d
  | part :: (_ :: _) as rest =>
      match dict_get part d with
      | Some (SubTree _ sub) => tree_at sub rest
      | _ => None
      end
  end.

(** [a < b] on strings: the first character that differs decides, and a
    proper prefix comes first. *)
Fixpoint str_lt (a b : str) : bool :=
  match a, b with
  | _, [] => false
  | [], _ :: _ => true
  | x :: a', y :: b' =>
      if Nat.ltb (nat_of_ascii x) (nat_of_ascii y) then true
      else if ascii_eqb x y then str_lt a' b' else false
  end.

Definition is_none (t : tree) : bool :=
  match t with FileLeaf => true | SubTree _ _ => false end.

(** [lambda x: (x[1] is None, x[0])] *)
Definition key (x : str * tree) : bool * str := (is_none x.2, x.1).

(** [k1 < k2] on these tuples. *)
Definition key_lt (k1 k2 : bool * str) : bool :=
  if bool_decide (k1.1 = k2.1) then str_lt k1.2 k2.2
  else negb k1.1 && k2.1.

(** [sorted(l, key=key)], with [lt] for [<] on the keys: the sort is
    stable, an item goes before the items after it that have the same
    key. *)
Fixpoint sorted_insert {A K : Type} (lt : K -> K -> bool) (key : A -> K)
    (x : A) (l : list A) : list A :=
  match l with
  | [] => [x]
  | y :: l' =>
      if lt (key y) (key x) then y :: sorted_insert lt key x l'
      else x :: y :: l'
  end.

Fixpoint sorted {A K : Type} (lt : K -> K -> bool) (key : A -> K)
    (l : list A) : list A :=
  match l with
  | [] => []
  | x :: l' => sorted_insert lt key x (sorted lt key l')
  end.

Definition branch (is_last : bool) : str :=
  if is_last then chars "└── " else chars "├── ".

Definition next_indent (is_last : bool) : str :=
  if is_last then chars "    " else chars "│   ".

(** The body of the loop of [print_tree_structure] for the item at index
    [i] of [len_items] items: the line it prints, then the lines of the
    call for the subtree, which [rec] stands for. *)
Definition print_item (rec : dict -> str -> list str) (prefix : str)
    (len_items : nat) (i : nat) (item : str * tree) : list str :=
  let '(name, subtree) := item in
  let is_last := bool_decide (i = len_items - 1) in
  (* Add slash to directories for better visibility *)
  let display_name :=
    if is_none subtree then name else name ++ chars "/" in
  (prefix ++ branch is_last ++ display_name)
  :: match subtree with
     | SubTree _ sub => rec sub (prefix ++ next_indent is_last)
     | FileLeaf => []
     end.

(** The lines that [print_tree_structure(tree, prefix)] prints, for
    calls nested at most [depth] deep. *)
Fixpoint print_lines (depth : nat) (tree : dict) (prefix : str) : list str :=
  match depth with
  | 0 => []
  | S depth' =>
      let items := sorted key_lt key tree in
      concat (imap (print_item (print_lines depth') prefix (length items))
                   items)
  end.

(** How deep the dictionaries of a tree are nested. *)
Fixpoint height (t : tree) : nat :=
  match t with
  | FileLeaf => 0
  | SubTree _ items =>
      S ((fix go (l : list (str * tree)) : nat :=
            match l with
            | [] => 0
            | (_, t') :: l' => Nat.max (height t') (go l')
            end) items)
  end.

(** Print the tree structure with formatting. *)
Definition print_tree_structure (tree : dict) (prefix : str) : list str :=
  print_lines (height (SubTree true tree)) tree prefix.

(** [os.path.isdir(os.path.join(root_path, entry))] *)
Definition isdir (fs : node) (entry : str) : bool :=
  match FS.lookup fs [entry] with Some n => is_dir n | None => false end.

(** [os.listdir(root_path)]; [None] when it raises. *)
Definition listdir (fs : node) : option (list str) :=
  match fs with Dir entries => Some entries.*1 | _ => None end.

(** The loop of [main] over the sorted entries, for the listing that is
    not recursive: [dirs] and [files] as the loop leaves them. *)
Fixpoint classify (fs : node) (all show_deps dirs_only : bool)
    (entries : list str) (dirs files : list str) : list str * list str :=
  match entries with
  | [] => (dirs, files)
  | entry :: rest =>
      let is_dir := isdir fs entry in
      (* Apply basic filtering *)
      if startswith entry "." && negb all
      then classify fs all show_deps dirs_only rest dirs files
      else if is_dir && bool_decide (entry ∈ COMMON_IGNORE_DIRS)
                && negb show_deps
      then classify fs all show_deps dirs_only rest dirs files
      else if is_dir
      then classify fs all show_deps dirs_only rest (dirs ++ [entry]) files
      else if negb dirs_only
      then classify fs all show_deps dirs_only rest dirs (files ++ [entry])
      else classify fs all show_deps dirs_only rest dirs files
  end.

(** The lines that [main] prints after the name of the root when the
    listing is not recursive; [None] when listing the root raises, and
    the line of the error is printed instead. *)
Definition list_top_level (fs : node) (all show_deps dirs_only : bool)
    : option (list str) :=
  entries ← listdir fs;
  let '(dirs, files) :=
    classify fs all show_deps dirs_only (sorted str_lt id entries) [] [] in
  let all_entries := dirs ++ files in
  Some (imap (fun i entry =>
                let is_last := bool_decide (i = length all_entries - 1) in
                (* Add slash to directories for better visibility *)
                let display_name :=
                  if isdir fs entry then entry ++ chars "/" else entry in
                branch is_last ++ display_name)
             all_entries).

End Tree.

(** A tree in which every dictionary has each of its keys once. *)
#[local] Unset Elimination Schemes.
Inductive tree_ok : Tree.tree -> Prop :=
| ok_FileLeaf : tree_ok Tree.FileLeaf
| ok_SubTree defaulting items :
    NoDup items.*1 ->
    Forall (fun x => tree_ok x.2) items ->
    tree_ok (Tree.SubTree defaulting items).
#[local] Set Elimination Schemes.

(** A name as a directory lists it: not empty, without a slash, and
    neither of the two names that a listing leaves out. *)
Definition entry_name (name : str) : Prop :=
  name_ok name /\ name <> chars "." /\ name <> chars "..".

(** A tree in which every entry has such a name. *)
#[local] Unset Elimination Schemes.
Inductive proper_names : node -> Prop :=
| proper_File content : proper_names (File content)
| proper_DirDenied : proper_names DirDenied
| proper_Dir entries :
    Forall entry_name entries.*1 ->
    Forall (fun e => proper_names e.2) entries ->
    proper_names (Dir entries).
#[local] Set Elimination Schemes.

(** The same tree of directories and files, with the entries of each
    directory in any order. *)
Inductive reordered : node -> node -> Prop :=
| reordered_File content : reordered (File content) (File content)
| reordered_DirDenied : reordered DirDenied DirDenied
| reordered_Dir entries entries' :
    entries.*1 ≡ₚ entries'.*1 ->
    (forall name c c',
       (name, c) ∈ entries -> (name, c') ∈ entries' -> reordered c c') ->
    reordered (Dir entries) (Dir entries').

(** ** [print_db_info.py] *)

Module DbInfo.

(** [f"{s:{width}}"] for a string [s]: spaces are added after it up to
    the width. *)
Definition ljust (s : str) (width : nat) : str :=
  s ++ replicate (width - length s) " "%char.

(** [sep.join(parts)] *)
Fixpoint join (sep : str) (parts : list str) : str :=
  match parts with
  | [] => []
  | [p] => p
  | p :: rest => p ++ sep ++ join sep rest
  end.

(** [max(len(str(col)), max(len(str(row[i])) for row in rows))]: the
    values of a row are given as the text that [str] makes of them;
    [None] is the [IndexError] of a row that is too short, or the
    [ValueError] of [max] when there is no row. *)
Definition col_width (rows : list (list str)) (i : nat) (col : str)
    : option nat :=
  lens ← mapM (fun row : list str => length <$> row !! i) rows;
  if bool_decide (lens = []) then None
  else Some (Nat.max (length col) (max_list lens)).

(** The loop [for i, col in enumerate(columns)], from the index [i]. *)
Fixpoint col_widths_from (i : nat) (columns : list str)
    (rows : list (list str)) : option (list nat) :=
  match columns with
  | [] => Some []
  | col :: rest =>
      col_width ← col_width rows i col;
      col_widths ← col_widths_from (S i) rest rows;
      Some (col_width :: col_widths)
  end.

(** The lines that [get_table_sample] prints for the rows that the query
    has returned, from [if not rows] on. *)
Definition print_rows (columns : list str) (rows : list (list str))
    : option (list str) :=
  match rows with
  | [] => Some [chars "No data found in this table."]
  | _ =>
      (* Get column widths for formatting *)
      col_widths ← col_widths_from 0 columns rows;
      (* Print header *)
      let header := join (chars " | ") (zip_with ljust columns col_widths) in
      let separator :=
        join (chars "-+-")
             ((fun width => replicate width "-"%char) <$> col_widths) in
      (* Print rows *)
      let formatted_row (row : list str) :=
        join (chars " | ") (zip_with ljust row col_widths) in
      Some ((chars " " ++ header ++ chars " ")
            :: (chars "-" ++ separator ++ chars "-")
            :: ((fun row => chars " " ++ formatted_row row ++ chars " ")
                  <$> rows))
  end.

End DbInfo.

(** * Properties *)

(** ** The glob translation *)

Import Glob.

(** *** Characters *)

Lemma ascii_eqb_true a b : ascii_eqb a b = true <-> a = b.
Proof. apply bool_decide_eq_true. Qed.

Lemma ascii_eqb_false a b : a <> b -> ascii_eqb a b = false.
Proof. apply bool_decide_eq_false_2. Qed.

Lemma ascii_eqb_refl a : ascii_eqb a a = true.
Proof. by apply ascii_eqb_true. Qed.

Lemma mem_elem_of c s : mem c s = true <-> c ∈ s.
Proof.
  unfold mem. rewrite existsb_exists. split.
  - intros (x & Hin & ->%ascii_eqb_true). by apply list_elem_of_In.
  - intros Hin. exists c. split; [by apply list_elem_of_In|apply ascii_eqb_refl].
Qed.

Lemma not_special_ne c x :
  Re.is_special c = false -> Re.is_special x = true -> c <> x.
Proof. intros Hc Hx ->. congruence. Qed.

Lemma special_not_alnum c : Re.is_special c = true -> Re.is_alnum c = false.
Proof.
  intros Hc. apply mem_elem_of in Hc.
  unfold Re.special_chars in Hc. cbn in Hc.
  repeat (apply elem_of_cons in Hc as [->|Hc]; [reflexivity|]).
  by apply elem_of_nil in Hc.
Qed.

(** *** [str.replace] *)

Lemma startswith_app s p : startswith (p ++ s) p = true.
Proof. induction p as [|a p IH]; [by destruct s|]. simpl. by rewrite ascii_eqb_refl. Qed.

Lemma replace_from_skip old new k s :
  replace_from old new (length k) (k ++ s) = replace_from old new 0 s.
Proof. induction k as [|c k IH]; [done|]. simpl. apply IH. Qed.

Lemma replace_from_hit old new a s :
  replace_from (a :: old) new 0 (a :: old ++ s)
  = new ++ replace_from (a :: old) new 0 s.
Proof.
  cbn [replace_from].
  assert (startswith (a :: old ++ s) (a :: old) = true) as ->
    by apply (startswith_app s (a :: old)).
  assert (length (a :: old) - 1 = length old) as -> by (simpl; lia).
  by rewrite replace_from_skip.
Qed.

Lemma replace_from_miss old new c s :
  startswith (c :: s) old = false ->
  replace_from old new 0 (c :: s) = c :: replace_from old new 0 s.
Proof. intros H. cbn [replace_from]. by rewrite H. Qed.

Lemma startswith_cons c s a p :
  startswith (c :: s) (a :: p) = ascii_eqb c a && startswith s p.
Proof. reflexivity. Qed.

Lemma startswith_nil_l a p : startswith [] (a :: p) = false.
Proof. reflexivity. Qed.

Lemma startswith_ne c s a p : c <> a -> startswith (c :: s) (a :: p) = false.
Proof. intros H. simpl. by rewrite ascii_eqb_false. Qed.

(** *** The tokens of an escaped pattern *)

Lemma text_cons t ts : text (t :: ts) = show t ++ text ts.
Proof. done. Qed.

(** The text of well-formed tokens does not start with [x] when [x] is a
    special character other than the three a token can start with. *)
Lemma text_head_ne (x : ascii) ts p :
  Re.is_special x = true -> x <> "\"%char -> x <> "."%char -> x <> "["%char ->
  Forall wf ts -> startswith (text ts) (x :: p) = false.
Proof.
  intros Hx H1 H2 H3 Hts. destruct Hts as [|t ts Ht _]; [done|].
  rewrite text_cons.
  destruct t as [c|c| | |]; cbn [show chars list_ascii_of_string app];
    apply startswith_ne; try done.
  by apply not_special_ne.
Qed.

Lemma escape_text pattern : Re.escape pattern = text (map literal pattern).
Proof.
  unfold Re.escape, text. rewrite map_map. f_equal. apply map_ext.
  intros c. unfold Re.escape_char, literal. by destruct (Re.is_special c).
Qed.

Lemma literal_wf c : wf (literal c).
Proof. unfold literal. by destruct (Re.is_special c) eqn:H. Qed.

(** *** One token for another *)

Ltac miss := rewrite replace_from_miss by (apply startswith_ne; discriminate).

Lemma replace_swap (x : ascii) (new : token) ts :
  Re.is_special x = true -> x <> "\"%char -> x <> "."%char -> x <> "["%char ->
  Forall wf ts ->
  replace_from ["\"%char; x] (show new) 0 (text ts) = text (map (swap x new) ts).
Proof.
  intros Hx H1 H2 H3 Hts.
  induction Hts as [|t ts Ht Hts IH]; [done|].
  rewrite map_cons, !text_cons, <- IH.
  destruct t as [c|c| | |]; cbn [show swap chars list_ascii_of_string app].
  - rewrite replace_from_miss; [done|].
    apply startswith_ne. by apply not_special_ne.
  - destruct (decide (c = x)) as [->|Hcx].
    + rewrite ascii_eqb_refl. apply (replace_from_hit [x]).
    + rewrite (ascii_eqb_false c x Hcx). cbn [show app].
      rewrite replace_from_miss.
      2:{ by rewrite !startswith_cons, (ascii_eqb_false c x Hcx), andb_false_r. }
      rewrite replace_from_miss; [done|].
      destruct (decide (c = "\"%char)) as [->|Hc].
      * by rewrite startswith_cons, text_head_ne, andb_false_r.
      * by apply startswith_ne.
  - by do 2 miss.
  - by do 5 miss.
  - by do 4 miss.
Qed.

(** *** Two escaped stars for [.*] *)

Lemma merge_esc c rest :
  merge (TEsc c :: rest) =
  match rest with
  | TEsc d :: rest' =>
      if ascii_eqb c "*" && ascii_eqb d "*"
      then TAnyStar :: merge rest'
      else TEsc c :: merge rest
  | _ => TEsc c :: merge rest
  end.
Proof. reflexivity. Qed.

Lemma merge_other t rest :
  match t with TEsc _ => False | _ => True end ->
  merge (t :: rest) = t :: merge rest.
Proof. by destruct t. Qed.

Lemma replace_merge_aux n : forall ts,
  length ts <= n -> Forall wf ts ->
  replace_from (chars "\*\*") (chars ".*") 0 (text ts) = text (merge ts).
Proof.
  induction n as [|n IH]; intros ts Hlen Hts.
  { destruct ts; [done|simpl in Hlen; lia]. }
  destruct ts as [|t ts]; [done|].
  apply Forall_cons in Hts as [Ht Hts]. simpl in Hlen.
  assert (replace_from (chars "\*\*") (chars ".*") 0 (text ts) = text (merge ts))
    as IHts by (apply IH; [lia|done]).
  destruct t as [c|c| | |].
  - rewrite merge_other by done. rewrite !text_cons, <- IHts. cbn [show app].
    rewrite replace_from_miss; [done|].
    apply startswith_ne. by apply not_special_ne.
  - assert (startswith (c :: text ts) (chars "\*\*") = false) as Hsecond.
    { destruct (decide (c = "\"%char)) as [->|Hc]; [|by apply startswith_ne].
      cbn [chars list_ascii_of_string].
      rewrite startswith_cons, (text_head_ne "*"); [apply andb_false_r|done..]. }
    assert (startswith ("\"%char :: c :: text ts) (chars "\*\*") = false ->
            replace_from (chars "\*\*") (chars ".*") 0 (text (TEsc c :: ts))
            = text (TEsc c :: merge ts)) as Hmiss.
    { intros Hfirst. rewrite !text_cons, <- IHts. cbn [show app].
      by rewrite (replace_from_miss _ _ _ _ Hfirst),
                 (replace_from_miss _ _ _ _ Hsecond). }
    assert (c <> "*"%char ->
            startswith ("\"%char :: c :: text ts) (chars "\*\*") = false)
      as Hnostar.
    { intros Hc. cbn [chars list_ascii_of_string].
      by rewrite !startswith_cons, (ascii_eqb_false c "*" Hc), andb_false_r. }
    destruct ts as [|[d|d| | |] ts'].
    + rewrite merge_esc. cbv beta iota. apply Hmiss. cbn [chars list_ascii_of_string text concat map].
      by rewrite !startswith_cons, startswith_nil_l, !andb_false_r.
    + rewrite merge_esc. cbv beta iota. apply Hmiss. apply Forall_cons in Hts as [Hd _].
      rewrite text_cons. cbn [show app chars list_ascii_of_string].
      rewrite !startswith_cons, (ascii_eqb_false d "\");
        [by rewrite !andb_false_r|].
      by apply not_special_ne.
    + rewrite merge_esc. cbv beta iota.
      destruct (decide (c = "*"%char)) as [->|Hc];
        [destruct (decide (d = "*"%char)) as [->|Hd]|].
      * rewrite !ascii_eqb_refl. cbn [andb]. rewrite !text_cons.
        cbn [show app chars list_ascii_of_string].
        rewrite <- (IH ts');
          [|simpl in Hlen; lia|by apply Forall_cons in Hts as [_ ?]].
        apply (replace_from_hit (chars "*\*")).
      * rewrite (ascii_eqb_false d "*" Hd), andb_false_r. apply Hmiss.
        rewrite text_cons. cbn [show app chars list_ascii_of_string].
        by rewrite !startswith_cons, (ascii_eqb_false d "*" Hd), !andb_false_r.
      * rewrite (ascii_eqb_false c "*" Hc). cbn [andb]. by apply Hmiss, Hnostar.
    + rewrite merge_esc. cbv beta iota. apply Hmiss. rewrite text_cons.
      cbn [show app chars list_ascii_of_string].
      by rewrite !startswith_cons, (ascii_eqb_false "." "\"), !andb_false_r.
    + rewrite merge_esc. cbv beta iota. apply Hmiss. rewrite text_cons.
      cbn [show app chars list_ascii_of_string].
      by rewrite !startswith_cons, (ascii_eqb_false "[" "\"), !andb_false_r.
    + rewrite merge_esc. cbv beta iota. apply Hmiss. rewrite text_cons.
      cbn [show app chars list_ascii_of_string].
      by rewrite !startswith_cons, (ascii_eqb_false "[" "\"), !andb_false_r.
  - rewrite merge_other by done. rewrite !text_cons, <- IHts.
    cbn [show app chars list_ascii_of_string]. by do 2 miss.
  - rewrite merge_other by done. rewrite !text_cons, <- IHts.
    cbn [show app chars list_ascii_of_string]. by do 5 miss.
  - rewrite merge_other by done. rewrite !text_cons, <- IHts.
    cbn [show app chars list_ascii_of_string]. by do 4 miss.
Qed.

Lemma replace_merge ts :
  Forall wf ts ->
  replace_from (chars "\*\*") (chars ".*") 0 (text ts) = text (merge ts).
Proof. by apply (replace_merge_aux (length ts)). Qed.

Lemma merge_wf_aux n : forall ts, length ts <= n -> Forall wf ts -> Forall wf (merge ts).
Proof.
  induction n as [|n IH]; intros ts Hlen Hts.
  { destruct ts; [done|simpl in Hlen; lia]. }
  destruct ts as [|t ts]; [done|].
  apply Forall_cons in Hts as [Ht Hts]. simpl in Hlen.
  assert (Forall wf (merge ts)) as IHts by (apply IH; [lia|done]).
  destruct t as [c|c| | |]; try (rewrite merge_other by done; by constructor).
  rewrite merge_esc. destruct ts as [|[d|d| | |] ts']; try by constructor.
  destruct (ascii_eqb c "*" && ascii_eqb d "*"); [|by constructor].
  constructor; [done|]. apply IH; [simpl in Hlen; lia|].
  by apply Forall_cons in Hts as [_ ?].
Qed.

Lemma merge_wf ts : Forall wf ts -> Forall wf (merge ts).
Proof. by apply (merge_wf_aux (length ts)). Qed.

Lemma swap_wf x new ts : wf new -> Forall wf ts -> Forall wf (map (swap x new) ts).
Proof.
  intros Hnew Hts. apply Forall_map. eapply Forall_impl; [exact Hts|].
  intros [c|c| | |] Ht; simpl; try done. by destruct (ascii_eqb c x).
Qed.

Lemma merge_literal c rest :
  c <> "*"%char -> merge (literal c :: rest) = literal c :: merge rest.
Proof.
  intros Hc. unfold literal. destruct (Re.is_special c); [|done].
  rewrite merge_esc. destruct rest as [|[d|d| | |] rest']; try done.
  by rewrite (ascii_eqb_false c "*" Hc).
Qed.

Lemma merge_star_literal d rest :
  d <> "*"%char ->
  merge (TEsc "*" :: literal d :: rest) = TEsc "*" :: merge (literal d :: rest).
Proof.
  intros Hd. rewrite merge_esc. unfold literal.
  destruct (Re.is_special d); [|done].
  cbv beta iota. by rewrite (ascii_eqb_false d "*" Hd), andb_false_r.
Qed.

Lemma swap_literal_ne x new c : c <> x -> swap x new (literal c) = literal c.
Proof.
  intros Hc. unfold literal. destruct (Re.is_special c); [|done].
  simpl. by rewrite (ascii_eqb_false c x Hc).
Qed.

(** The tokens of a pattern are what the three replacements leave of its
    escaped characters. *)
Lemma tokens_stages_aux n : forall pattern,
  length pattern <= n ->
  tokens pattern
  = map (swap "?" TSeg) (map (swap "*" TSegStar) (merge (map literal pattern))).
Proof.
  induction n as [|n IH]; intros pattern Hlen.
  { destruct pattern; [done|simpl in Hlen; lia]. }
  destruct pattern as [|c p']; [done|]. simpl in Hlen.
  cbn [tokens map].
  destruct (decide (c = "*"%char)) as [->|Hstar].
  - rewrite ascii_eqb_refl. change (literal "*") with (TEsc "*").
    destruct p' as [|d p'']; [done|].
    cbn [map]. destruct (decide (d = "*"%char)) as [->|Hd].
    + rewrite ascii_eqb_refl. change (literal "*") with (TEsc "*").
      rewrite merge_esc. cbv beta iota. rewrite !ascii_eqb_refl.
      cbn [andb map swap]. by rewrite IH by (simpl in Hlen; lia).
    + rewrite (ascii_eqb_false d "*" Hd).
      rewrite (IH (d :: p'')) by lia. cbn [map].
      by rewrite (merge_star_literal d _ Hd).
  - rewrite (ascii_eqb_false c "*" Hstar).
    rewrite (IH p') by lia. rewrite (merge_literal c _ Hstar). cbn [map].
    rewrite (swap_literal_ne "*" TSegStar c Hstar).
    destruct (decide (c = "?"%char)) as [->|Hq].
    + by rewrite ascii_eqb_refl.
    + by rewrite (ascii_eqb_false c "?" Hq), (swap_literal_ne "?" TSeg c Hq).
Qed.

Lemma tokens_stages pattern :
  tokens pattern
  = map (swap "?" TSeg) (map (swap "*" TSegStar) (merge (map literal pattern))).
Proof. by apply (tokens_stages_aux (length pattern)). Qed.

Lemma literals_wf pattern : Forall wf (map literal pattern).
Proof. apply Forall_map, Forall_forall. intros c _. apply literal_wf. Qed.

Lemma tokens_wf pattern : Forall wf (tokens pattern).
Proof.
  rewrite tokens_stages. do 2 (apply swap_wf; [done|]).
  apply merge_wf, literals_wf.
Qed.

(** The glob translation of [_pattern_to_regex]: escaping and the three
    replacements produce the text of the pattern's tokens. *)
Lemma glob_translation pattern :
  replace (replace (replace (Re.escape pattern) "\*\*" ".*") "\*" "[^/]*")
          "\?" "[^/]"
  = text (tokens pattern).
Proof.
  rewrite tokens_stages, escape_text.
  change (replace ?s (chars "\*\*") ?n) with (replace_from (chars "\*\*") n 0 s).
  change (replace ?s (chars "\*") ?n) with (replace_from (chars "\*") n 0 s).
  change (replace ?s (chars "\?") ?n) with (replace_from (chars "\?") n 0 s).
  rewrite replace_merge by apply literals_wf.
  rewrite (replace_swap "*" TSegStar) by (try done; apply merge_wf, literals_wf).
  rewrite (replace_swap "?" TSeg); [done..|].
  apply swap_wf; [done|]. apply merge_wf, literals_wf.
Qed.

(** *** Parsing the text of tokens *)

Lemma run_app st a b :
  Re.run st (a ++ b) = st' ← Re.run st a; Re.run st' b.
Proof.
  revert st. induction a as [|c a IH]; intros st; [done|].
  simpl. destruct (Re.step st c); [apply IH|done].
Qed.

Lemma step_normal_literal c st :
  Re.is_special c = false ->
  Re.step_normal c st = Some (Re.push_item (Re.Chr c) st).
Proof.
  intros Hc. unfold Re.step_normal.
  by rewrite !(ascii_eqb_false c _) by (by apply not_special_ne).
Qed.

Lemma run_show st t :
  Re.pmode st = Re.Normal -> wf t ->
  Re.run st (show t) = Some (Re.push_item (item t) st).
Proof.
  destruct st as [m [alts items] out]. simpl. intros -> Ht.
  destruct t as [c|c| | |]; try reflexivity.
  - cbn [show Re.run Re.step Re.pmode]. by rewrite step_normal_literal.
  - cbn [show Re.run]. change (Re.step _ "\"%char)
      with (Some (Re.PState Re.Escaped (Re.Frame alts items) out)).
    cbn [Re.step Re.pmode]. by rewrite (special_not_alnum c Ht).
Qed.

Lemma run_tokens ts : forall st,
  Re.pmode st = Re.Normal -> Forall wf ts ->
  Re.run st (text ts)
  = Some (Re.PState Re.Normal
            (Re.Frame (Re.alts_rev (Re.cur st))
                      (rev (map item ts) ++ Re.items_rev (Re.cur st)))
            (Re.outer st)).
Proof.
  induction ts as [|t ts IH]; intros st Hmode Hts.
  - destruct st as [m [alts items] out]. simpl in *. by subst.
  - apply Forall_cons in Hts as [Ht Hts].
    rewrite text_cons, run_app, (run_show st t Hmode Ht). cbn [mbind option_bind].
    rewrite IH by done. cbn [Re.push_item Re.cur Re.outer Re.alts_rev Re.items_rev].
    cbn [map rev]. by rewrite <- app_assoc.
Qed.

Lemma seq_of_rev items : Re.seq_of (rev items) = cat_list items.
Proof.
  unfold Re.seq_of, cat_list.
  rewrite <- (rev_involutive items) at 2. by rewrite fold_left_rev_right.
Qed.

Lemma regex_source_tokens is_absolute is_dir_only pattern :
  regex_source is_absolute is_dir_only pattern
  = head_text is_absolute ++ text (tokens pattern) ++ tail_text is_dir_only.
Proof.
  unfold regex_source. rewrite glob_translation.
  destruct is_absolute, is_dir_only; by rewrite <- app_assoc.
Qed.

Lemma run_head is_absolute :
  Re.run Re.init (head_text is_absolute)
  = Some (Re.PState Re.Normal (Re.Frame [] [head_anchor is_absolute]) []).
Proof. by destruct is_absolute. Qed.

Lemma run_tail is_dir_only items :
  Re.run (Re.PState Re.Normal (Re.Frame [] items) []) (tail_text is_dir_only)
  = Some (Re.PState Re.Normal (Re.Frame [] (tail_anchor is_dir_only :: items)) []).
Proof. by destruct is_dir_only. Qed.

(** The pattern compiler never raises: the text it builds always parses,
    to the anchors around the items of the pattern's tokens. *)
Lemma pattern_to_regex_total is_absolute is_dir_only pattern :
  _pattern_to_regex is_absolute is_dir_only pattern
  = Some (pattern_regex is_absolute is_dir_only pattern).
Proof.
  unfold _pattern_to_regex, Re.compile. rewrite regex_source_tokens.
  rewrite run_app, run_head. cbn [mbind option_bind].
  rewrite run_app, run_tokens by (try done; apply tokens_wf).
  cbn [mbind option_bind Re.cur Re.outer Re.alts_rev Re.items_rev].
  rewrite run_tail. f_equal.
  unfold Re.alt_of, pattern_regex. cbn [Re.alts_rev Re.items_rev fold_left].
  rewrite <- seq_of_rev. f_equal. cbn [rev]. by rewrite rev_app_distr.
Qed.

(** ** Compiled patterns and where they match *)

Lemma GitIgnorePattern_init_total line :
  GitIgnorePattern__init__ line =
  let negated := startswith line "!" in
  let p := if negated then drop_first line else line in
  let dir_only := endswith p "/" in
  let p := if dir_only then drop_last p else p in
  let absolute := startswith p "/" in
  let p := if absolute then drop_first p else p in
  Some {| pattern := line; is_negated := negated; is_dir_only := dir_only;
          is_absolute := absolute;
          regex_pattern := pattern_regex absolute dir_only p |}.
Proof.
  unfold GitIgnorePattern__init__. cbv zeta.
  by rewrite pattern_to_regex_total.
Qed.

Lemma init_regex line pat :
  GitIgnorePattern__init__ line = Some pat ->
  exists p, regex_pattern pat
            = pattern_regex (is_absolute pat) (is_dir_only pat) p.
Proof.
  rewrite GitIgnorePattern_init_total. cbv zeta. intros [= <-].
  eexists. reflexivity.
Qed.

Lemma endswith_snoc s c : endswith (s ++ [c]) [c] = true.
Proof.
  unfold endswith. rewrite rev_app_distr. cbn [rev app].
  rewrite startswith_cons, ascii_eqb_refl. by destruct (rev s).
Qed.

Lemma init_dir_only body pat :
  GitIgnorePattern__init__ (body ++ chars "/") = Some pat ->
  is_dir_only pat = true.
Proof.
  rewrite GitIgnorePattern_init_total. cbv zeta. intros [= <-].
  cbn [is_dir_only chars list_ascii_of_string].
  destruct body as [|c body]; [reflexivity|].
  rewrite <- app_comm_cons, startswith_cons.
  assert (startswith (body ++ ["/"%char]) [] = true) as ->
    by (by destruct (body ++ ["/"%char])).
  rewrite andb_true_r. destruct (ascii_eqb c "!").
  - apply (endswith_snoc body).
  - apply (endswith_snoc (c :: body)).
Qed.

(** Compiling patterns never raises, so reading the file is the only
    way for [parse_gitignore] to fail. *)
Lemma parse_lines_total lines : is_Some (parse_lines lines).
Proof.
  induction lines as [|line lines [ps IH]]; [by eexists|].
  cbn [parse_lines]. destruct (_ || _); [by eexists|].
  rewrite GitIgnorePattern_init_total. cbv zeta. cbn [mbind option_bind].
  rewrite IH. by eexists.
Qed.

Lemma parse_gitignore_raises fs gitignore_path :
  parse_gitignore fs gitignore_path = None <->
  FS.exists_ fs gitignore_path = true /\ open_r fs gitignore_path = None.
Proof.
  unfold parse_gitignore.
  destruct (FS.exists_ fs gitignore_path); cbn [negb]; [|by intuition].
  destruct (open_r fs gitignore_path) as [text|]; cbn [mbind option_bind].
  - destruct (parse_lines_total (text_lines text)) as [ps ->]. by intuition.
  - by intuition.
Qed.

(** *** Where a match may start *)

Lemma search_from_bol r s : Re.search_from (Re.Cat Re.Bol r) false s = false.
Proof. induction s as [|c s IH]; [done|]. simpl in *. exact IH. Qed.

Lemma search_anchored r s :
  Re.search (Re.Cat Re.Bol r) s
  = Re.matches_at (Re.Cat Re.Bol r) true s (fun _ _ => true).
Proof.
  unfold Re.search. destruct s as [|c s]; cbn [Re.search_from].
  - apply orb_false_r.
  - rewrite (search_from_bol r s). apply orb_false_r.
Qed.

Lemma matches_at_no_bol r :
  no_bol r = true ->
  forall k, (forall b1 b2 s, k b1 s = k b2 s) ->
  forall b1 b2 s, Re.matches_at r b1 s k = Re.matches_at r b2 s k.
Proof.
  induction r as [|c| |neg cs| | |r IH|r1 IH1 r2 IH2|r1 IH1 r2 IH2|r IH];
    intros Hr k Hk b1 b2 s; simpl in *; try done.
  - by rewrite (Hk b1 b2).
  - generalize (length s). intros fuel. revert b1 b2 s.
    induction fuel as [|fuel IHf]; intros b1 b2 s; [apply Hk|].
    rewrite (Hk b1 b2). f_equal. apply IH; [done|].
    intros b1' b2' s'. destruct (Nat.ltb _ _); [apply IHf|done].
  - apply andb_true_iff in Hr as [Hr1 Hr2]. apply IH1; [done|].
    intros b1' b2' s'. by apply IH2.
  - apply andb_true_iff in Hr as [Hr1 Hr2].
    by rewrite (IH1 Hr1 k Hk b1 b2), (IH2 Hr2 k Hk b1 b2).
  - by apply IH.
Qed.

Lemma search_from_suffix r pre s b :
  pre <> [] -> Re.search_from r false s = true ->
  Re.search_from r b (pre ++ s) = true.
Proof.
  intros Hpre Hs. revert b. induction pre as [|c pre IH]; intros b; [done|].
  cbn [app Re.search_from]. apply orb_true_iff. right.
  destruct pre as [|c' pre']; [done|]. by apply IH.
Qed.

Lemma item_no_bol t : no_bol (item t) = true.
Proof. by destruct t. Qed.

Lemma body_no_bol ts is_dir_only :
  no_bol (cat_list (map item ts ++ [tail_anchor is_dir_only])) = true.
Proof.
  induction ts as [|t ts IH]; [by destruct is_dir_only|].
  simpl. by rewrite item_no_bol, IH.
Qed.

(** A pattern that is not anchored and matches a path also matches that
    path below any directory. *)
Lemma search_unanchored is_dir_only p dir path :
  Re.search (pattern_regex false is_dir_only p) path = true ->
  Re.search (pattern_regex false is_dir_only p) (dir ++ "/"%char :: path) = true.
Proof.
  unfold pattern_regex, Re.search. cbn [cat_list foldr].
  set (rest := foldr Re.Cat Re.Empty _).
  assert (no_bol rest = true) as Hrest by apply body_no_bol.
  set (r := Re.Cat (head_anchor false) rest).
  assert (forall b s, Re.matches_at r b s (fun _ _ => true)
          = (b && Re.matches_at rest b s (fun _ _ => true))
            || match s with
               | c :: s' => ascii_eqb c "/"
                            && Re.matches_at rest false s' (fun _ _ => true)
               | [] => false
               end) as Hr.
  { intros b s. unfold r, head_anchor. cbn [Re.matches_at]. by destruct s. }
  assert (forall b1 b2 s, Re.matches_at rest b1 s (fun _ _ => true)
                          = Re.matches_at rest b2 s (fun _ _ => true))
    as Hindep by (intros; by apply matches_at_no_bol).
  assert (forall b s, Re.matches_at rest b s (fun _ _ => true) = true ->
          Re.search_from r false ("/"%char :: s) = true) as Hsep.
  { intros b s Hm. cbn [Re.search_from]. rewrite Hr. cbn [andb orb].
    rewrite ascii_eqb_refl. cbn [andb].
    by rewrite (Hindep false b), Hm. }
  assert (forall s, Re.search_from r false s = true ->
          Re.search_from r true (dir ++ "/"%char :: s) = true) as Hlater.
  { intros s Hs.
    change (dir ++ "/"%char :: s) with (dir ++ ["/"%char] ++ s).
    rewrite app_assoc. apply search_from_suffix; [by destruct dir|done]. }
  intros Hsearch.
  assert (Re.matches_at rest true path (fun _ _ => true) = true
          \/ Re.search_from r false path = true) as [Hm|Hs].
  { destruct path as [|c path].
    - cbn [Re.search_from] in Hsearch. rewrite orb_false_r, Hr in Hsearch.
      rewrite orb_false_r in Hsearch. by left.
    - cbn [Re.search_from] in Hsearch.
      apply orb_true_iff in Hsearch as [Hsearch|Hsearch].
      + rewrite Hr in Hsearch. apply orb_true_iff in Hsearch as [Hm|Hm]; [by left|].
        right. cbn [Re.search_from]. rewrite Hr. cbn [andb orb]. by rewrite Hm.
      + right. cbn [Re.search_from]. by rewrite Hsearch, orb_true_r. }
  - destruct dir as [|c dir].
    + cbn [app Re.search_from]. rewrite Hr. cbn [andb].
      rewrite ascii_eqb_refl. cbn [andb].
      by rewrite (Hindep false true), Hm, orb_true_r.
    + apply search_from_suffix; [done|]. by eapply Hsep.
  - by apply Hlater.
Qed.

(** ** Pattern sets *)

Lemma is_ignored_fold rel_path is_dir ps :
  is_ignored_by_gitignore rel_path is_dir ps =
  fold_left (fun ignored p =>
               if matches p rel_path is_dir then negb (is_negated p) else ignored)
            ps false.
Proof. by destruct ps. Qed.

Lemma running_verdict_fold rel_path is_dir ps ignored :
  running_verdict ignored rel_path is_dir ps =
  fold_left (fun ignored p =>
               if matches p rel_path is_dir then negb (is_negated p) else ignored)
            ps ignored.
Proof. revert ignored. induction ps as [|p ps IH]; intros ignored; simpl; [done|apply IH]. Qed.

Lemma is_ignored_snoc rel_path is_dir ps p :
  is_ignored_by_gitignore rel_path is_dir (ps ++ [p]) =
  if matches p rel_path is_dir then negb (is_negated p)
  else is_ignored_by_gitignore rel_path is_dir ps.
Proof. by rewrite !is_ignored_fold, fold_left_app. Qed.

Lemma is_ignored_last_match rel_path is_dir ps :
  is_ignored_by_gitignore rel_path is_dir ps = last_match_verdict rel_path is_dir ps.
Proof.
  induction ps as [|p ps IH] using rev_ind; [done|].
  rewrite is_ignored_snoc. unfold last_match_verdict in *.
  rewrite filter_app, filter_cons, filter_nil.
  destruct (decide (matches p rel_path is_dir = true)) as [Hm|Hm].
  - by rewrite Hm, last_snoc.
  - apply not_true_is_false in Hm. by rewrite Hm, app_nil_r.
Qed.

(** C1.  [is_ignored_by_gitignore] is the verdict of the loop that goes
    through the patterns in file order and overwrites a running boolean,
    started at false, with [not is_negated] at every pattern that matches;
    so the last pattern that matches decides and the verdict is false when
    none matches.  With the patterns [*.log] and [!keep.log], [keep.log] is
    not ignored and [other.log] is. *)
Theorem is_ignored_by_gitignore_last_match_wins :
  (forall (ps : list GitIgnorePattern) (rel_path : str) (is_dir : bool),
     is_ignored_by_gitignore rel_path is_dir ps
       = running_verdict false rel_path is_dir ps
     /\ is_ignored_by_gitignore rel_path is_dir ps
       = last_match_verdict rel_path is_dir ps)
  /\ (ps ← mapM GitIgnorePattern__init__ [chars "*.log"; chars "!keep.log"];
      Some (is_ignored_by_gitignore "keep.log" false ps,
            is_ignored_by_gitignore "other.log" false ps))
     = Some (false, true).
Proof.
  split; [|by vm_compute].
  intros ps rel_path is_dir. split.
  - by rewrite running_verdict_fold, is_ignored_fold.
  - apply is_ignored_last_match.
Qed.

(** C9.  Where no file exists at the path, [parse_gitignore] returns the
    empty list instead of raising, and no path is ignored by the empty
    list. *)
Theorem parse_gitignore_missing_file (fs : node) (gitignore_path : list str) :
  FS.exists_ fs gitignore_path = false ->
  parse_gitignore fs gitignore_path = Some []
  /\ forall (rel_path : str) (is_dir : bool),
       (fun ps => is_ignored_by_gitignore rel_path is_dir ps)
         <$> parse_gitignore fs gitignore_path = Some false.
Proof.
  intros Hmissing. unfold parse_gitignore. by rewrite Hmissing.
Qed.

Lemma parse_gitignore_missing_file_witness :
  FS.exists_ (Dir [(chars "main.py", File (Some []))]) [chars ".gitignore"] = false
  /\ parse_gitignore (Dir [(chars "main.py", File (Some []))]) [chars ".gitignore"]
     = Some [].
Proof.
  split; [reflexivity|].
  apply (parse_gitignore_missing_file
           (Dir [(chars "main.py", File (Some []))]) [chars ".gitignore"]).
  reflexivity.
Defined.

(** ** The binary detector *)

Lemma byte_val_zero (b : byte) : byte_val b = 0 <-> b = x00.
Proof. split; [|by intros ->]. by destruct b. Qed.

Lemma has_null_elem_of (sample : bytes) : has_null sample = true <-> x00 ∈ sample.
Proof.
  unfold has_null. rewrite existsb_exists. split.
  - intros (b & Hin & Hb). apply Nat.eqb_eq, byte_val_zero in Hb.
    subst b. by apply list_elem_of_In.
  - intros Hin. exists x00. split; [by apply list_elem_of_In|done].
Qed.

Lemma read_sample (content : bytes) (size : Z) :
  (0 <= size)%Z ->
  read content size = take (Z.to_nat size `min` length content) content.
Proof.
  intros Hsize. unfold read.
  destruct (Z.ltb_spec size 0) as [?|_]; [lia|].
  destruct (Nat.le_ge_cases (Z.to_nat size) (length content)) as [Hle|Hge].
  - by rewrite Nat.min_l.
  - rewrite Nat.min_r by done. by rewrite !take_ge.
Qed.

(** C7.  On a readable file, [is_binary_file] is true as soon as the first
    [min(sample_size, length)] bytes hold a null byte, whatever the other
    bytes are, and false when that sample has no null byte and is valid
    UTF-8. *)
Theorem is_binary_file_null_byte_or_text (fs : node) (file_path : list str)
    (content : bytes) (sample_size : Z) :
  open_rb fs file_path = Some content ->
  (0 <= sample_size)%Z ->
  let sample := take (Z.to_nat sample_size `min` length content) content in
  (x00 ∈ sample -> is_binary_file fs file_path sample_size = true)
  /\ (x00 ∉ sample -> utf8_valid sample = true ->
      is_binary_file fs file_path sample_size = false).
Proof.
  intros Hopen Hsize sample. unfold is_binary_file.
  rewrite Hopen, (read_sample _ _ Hsize). fold sample. split.
  - intros Hnull. apply has_null_elem_of in Hnull. by rewrite Hnull.
  - intros Hnonull Hutf8.
    destruct (has_null sample) eqn:Hn; [by apply has_null_elem_of in Hn|].
    by rewrite Hutf8.
Qed.

(** A file with a null byte between two words, sampled over four bytes,
    and a short text file. *)
Lemma is_binary_file_null_byte_or_text_witness :
  is_binary_file (Dir [(chars "blob", File (Some [x68; x69; x00; x68; x69]))])
                 [chars "blob"] 4 = true
  /\ is_binary_file (Dir [(chars "note", File (Some [x68; x69; x0a]))])
                    [chars "note"] default_sample_size = false.
Proof.
  split.
  - apply (is_binary_file_null_byte_or_text
             (Dir [(chars "blob", File (Some [x68; x69; x00; x68; x69]))])
             [chars "blob"] [x68; x69; x00; x68; x69] 4);
      [reflexivity | lia | compute_done].
  - apply (is_binary_file_null_byte_or_text
             (Dir [(chars "note", File (Some [x68; x69; x0a]))])
             [chars "note"] [x68; x69; x0a] default_sample_size);
      [reflexivity | unfold default_sample_size; lia | compute_done
      | reflexivity].
Defined.

(** C10.  A readable file of length zero, and more generally a readable
    file whose sample is empty, is classified as text. *)
Theorem is_binary_file_empty_sample (fs : node) (file_path : list str)
    (content : bytes) (sample_size : Z) :
  open_rb fs file_path = Some content ->
  content = [] \/ read content sample_size = [] ->
  is_binary_file fs file_path sample_size = false.
Proof.
  intros Hopen Hempty. unfold is_binary_file. rewrite Hopen.
  assert (read content sample_size = []) as ->; [|done].
  destruct Hempty as [->|?]; [|done].
  unfold read. by destruct (sample_size <? 0)%Z, (Z.to_nat sample_size).
Qed.

Lemma is_binary_file_empty_sample_witness :
  is_binary_file (Dir [(chars "__init__.py", File (Some []))])
                 [chars "__init__.py"] default_sample_size = false.
Proof.
  apply (is_binary_file_empty_sample
           (Dir [(chars "__init__.py", File (Some []))])
           [chars "__init__.py"] [] default_sample_size);
    [reflexivity | left; reflexivity].
Defined.

(** ** Single patterns on concrete paths *)

(** C2, as it was claimed: [**/cache] would match [cache], and [*.tmp]
    would not match [dir/sub.tmp/c].  The compiled matchers do neither. *)
Lemma wildcard_claim_fails :
  ~ matches_line "**/cache" "cache" false = Some true
  /\ ~ matches_line "*.tmp" "dir/sub.tmp/c" false = Some false.
Proof. by vm_compute. Qed.

(** C2, amended.  [*.tmp] matches [a.tmp], [dir/b.tmp] and also
    [dir/sub.tmp/c], where the segment [sub.tmp] is followed by a slash;
    its star does not run over a slash, so it does not match
    [dir/sub.tmp.d/c] nor [x.tm/p].  [**/cache] matches [a/cache] and
    [a/b/cache], and not [cache], as the slash after [.*] stays
    mandatory. *)
Theorem wildcard_semantics :
  matches_line "*.tmp" "a.tmp" false = Some true
  /\ matches_line "*.tmp" "dir/b.tmp" false = Some true
  /\ matches_line "*.tmp" "dir/sub.tmp/c" false = Some true
  /\ matches_line "*.tmp" "dir/sub.tmp.d/c" false = Some false
  /\ matches_line "*.tmp" "x.tm/p" false = Some false
  /\ matches_line "**/cache" "cache" false = Some false
  /\ matches_line "**/cache" "a/cache" false = Some true
  /\ matches_line "**/cache" "a/b/cache" false = Some true
  /\ regex_source false false "*.tmp" = chars "(^|/)[^/]*\.tmp($|/)"
  /\ regex_source false false "**/cache" = chars "(^|/).*/cache($|/)".
Proof. by vm_compute. Qed.

(** C5.  A pattern that is anchored to the root matches only from the
    start of the relative path; one that is not and matches a path also
    matches it below any directory, after a slash.  [/README.md] matches
    [README.md] and not [sub/README.md]; [README.md] matches both. *)
Theorem anchoring (line : str) (pat : GitIgnorePattern) :
  GitIgnorePattern__init__ line = Some pat ->
  (is_absolute pat = true ->
   forall path,
     Re.search (regex_pattern pat) path
     = Re.matches_at (regex_pattern pat) true path (fun _ _ => true))
  /\ (is_absolute pat = false ->
      forall dir path is_dir,
        matches pat path is_dir = true ->
        matches pat (dir ++ "/"%char :: path) is_dir = true)
  /\ matches_line "/README.md" "README.md" false = Some true
  /\ matches_line "/README.md" "sub/README.md" false = Some false
  /\ matches_line "README.md" "README.md" false = Some true
  /\ matches_line "README.md" "sub/README.md" false = Some true
  /\ regex_source true false "README.md" = chars "^README\.md($|/)"
  /\ regex_source false false "README.md" = chars "(^|/)README\.md($|/)".
Proof.
  intros Hinit. destruct (init_regex line pat Hinit) as [p Hp].
  split; [|split; [|by vm_compute]].
  - intros Habs path. rewrite Hp, Habs. apply search_anchored.
  - intros Habs dir path is_dir. unfold matches. rewrite Hp, Habs.
    destruct (is_dir_only pat && negb is_dir); [done|].
    apply search_unanchored.
Qed.

Lemma anchoring_witness :
  matches
    {| pattern := chars "README.md"; is_negated := false; is_dir_only := false;
       is_absolute := false;
       regex_pattern := pattern_regex false false "README.md" |}
    (chars "docs" ++ "/"%char :: chars "README.md") false = true.
Proof.
  pose proof
    (anchoring "README.md"
       {| pattern := chars "README.md"; is_negated := false;
          is_dir_only := false; is_absolute := false;
          regex_pattern := pattern_regex false false "README.md" |})
    as Hanchoring.
  destruct Hanchoring as (_ & Hbelow & _); [vm_compute; reflexivity|].
  apply Hbelow; vm_compute; reflexivity.
Defined.

(** C6.  A pattern whose line ends with a slash matches no path that is
    not a directory.  [build/] does not match the file [build] and matches
    the directory [build]. *)
Theorem dir_only_pattern_rejects_files :
  (forall body path : str,
     matches_line (body ++ chars "/") path false = Some false)
  /\ matches_line "build/" "build" false = Some false
  /\ matches_line "build/" "build" true = Some true.
Proof.
  split; [|by vm_compute].
  intros body path. unfold matches_line.
  destruct (GitIgnorePattern__init__ (body ++ chars "/")) as [pat|] eqn:Hinit.
  - cbn [fmap option_fmap option_map]. unfold matches.
    by rewrite (init_dir_only body pat Hinit).
  - by rewrite GitIgnorePattern_init_total in Hinit.
Qed.

(** ** The end-to-end scenario *)

Lemma scenario_all_orders root_dir a important b x :
  forallb (scenario_ok root_dir)
          (permutations (scenario_entries a important b x)) = true.
Proof. vm_compute. reflexivity. Qed.

(** C3.  In whatever order the root lists its five entries, the walk with
    the default configuration and no binary check yields the files
    [important.log] and [b.txt], and nothing else. *)
Theorem walk_scenario (root_dir : str) (a important b x : option bytes)
    (entries : list (str * node)) :
  entries ≡ₚ scenario_entries a important b x ->
  exists out,
    walk_filtered_files (Dir entries) root_dir false false true false = Some out
    /\ out.*2 ≡ₚ [chars "important.log"; chars "b.txt"].
Proof.
  intros Hperm.
  assert (scenario_ok root_dir entries = true) as Hok.
  { pose proof (scenario_all_orders root_dir a important b x) as Hall.
    rewrite forallb_forall in Hall. apply Hall.
    apply list_elem_of_In, permutations_Permutation. by symmetry. }
  unfold scenario_ok in Hok.
  destruct (walk_filtered_files _ _ _ _ _ _) as [out|]; [|done].
  exists out. split; [done|].
  apply bool_decide_eq_true in Hok as [-> | ->]; [done|apply Permutation_swap].
Qed.

Lemma walk_scenario_witness :
  exists out,
    walk_filtered_files
      (Dir (scenario_entries (Some []) (Some []) (Some []) (Some [])))
      "/repo" false false true false = Some out
    /\ out.*2 ≡ₚ [chars "important.log"; chars "b.txt"].
Proof.
  apply (walk_scenario "/repo" (Some []) (Some []) (Some []) (Some [])
           (scenario_entries (Some []) (Some []) (Some []) (Some []))).
  reflexivity.
Defined.

(** ** The walker *)

#[local] Opaque COMMON_IGNORE_DIRS.

Section WalkFacts.
Variable fs : node.
Variables show_hidden show_deps respect_gitignore binary_check : bool.
Variable gitignore_patterns : option (list GitIgnorePattern).

Abbreviation pruned' := (pruned show_hidden show_deps respect_gitignore gitignore_patterns).
Abbreviation skipped' :=
  (skipped fs show_hidden respect_gitignore binary_check gitignore_patterns).
Abbreviation filter_dirnames' :=
  (filter_dirnames show_hidden show_deps respect_gitignore gitignore_patterns).
Abbreviation process_files' :=
  (process_files fs show_hidden respect_gitignore binary_check gitignore_patterns).
Abbreviation walk_node' :=
  (walk_node fs show_hidden show_deps respect_gitignore binary_check
     gitignore_patterns).

Lemma gitignored_true rel_path is_dir :
  gitignored respect_gitignore gitignore_patterns rel_path is_dir = true <->
  respect_gitignore = true
  /\ is_ignored_by_gitignore rel_path is_dir (patterns_list gitignore_patterns)
     = true.
Proof.
  unfold gitignored. rewrite !andb_true_iff.
  destruct gitignore_patterns as [[|p ps]|]; cbn [truthy patterns_list default];
    unfold is_ignored_by_gitignore at 1; intuition congruence.
Qed.

Lemma pruned_excluded dirname rel :
  pruned' dirname rel = true <->
  excluded_dir show_hidden show_deps respect_gitignore
               (patterns_list gitignore_patterns) dirname rel.
Proof.
  unfold pruned, excluded_dir.
  destruct (decide (dirname ∈ COMMON_IGNORE_DIRS)) as [Hdep|Hdep].
  - rewrite (bool_decide_eq_true_2 _ Hdep).
    destruct (startswith dirname "."), show_hidden, show_deps;
      cbn [andb negb]; rewrite ?gitignored_true; intuition congruence.
  - rewrite (bool_decide_eq_false_2 _ Hdep).
    destruct (startswith dirname "."), show_hidden, show_deps;
      cbn [andb negb]; rewrite ?gitignored_true; intuition congruence.
Qed.

(** The walk of a directory, as the source has it: the directory is
    listed, its files are processed, and the walk goes on into the
    directories that the loop has left in [dirnames]. *)
Lemma walk_node_Dir entries dirpath rel :
  walk_node' (Dir entries) dirpath rel =
  Scanned rel
  :: process_files' dirpath rel (file_names entries)
  ++ flat_map (fun e => walk_node' e.2 (path_join dirpath e.1) (rel ++ [e.1]))
       (filter_dirnames' rel (dir_entries entries)).
Proof.
  simpl. f_equal. f_equal.
  induction entries as [|[dirname d] entries IH]; [done|].
  rewrite IH. unfold dir_entries. rewrite filter_cons. simpl.
  destruct (is_dir d) eqn:Hd; simpl.
  - destruct (decide (true = true)); [|done]. simpl.
    by destruct (pruned' dirname (rel ++ [dirname])).
  - by destruct (decide (false = true)).
Qed.

Lemma snoc_eq_app_cons {A} (l t k : list A) (x y : A) :
  l ++ [x] = t ++ y :: k -> t `prefix_of` l.
Proof.
  destruct k as [|z k _] using rev_ind.
  - intros H. apply app_inj_tail in H as [-> _]. done.
  - rewrite app_comm_cons, app_assoc. intros H.
    apply app_inj_tail in H as [-> _]. by eexists.
Qed.

Lemma prefix_snoc_inv {A} (t l : list A) (x : A) :
  t `prefix_of` l ++ [x] -> t = l ++ [x] \/ t `prefix_of` l.
Proof.
  intros [k Hk]. destruct k as [|y k].
  - left. by rewrite app_nil_r in Hk.
  - right. by eapply snoc_eq_app_cons.
Qed.

Lemma process_files_yields dirpath rel filenames e :
  e ∈ process_files' dirpath rel filenames ->
  exists filename,
    filename ∈ filenames
    /\ e = Yielded (path_join dirpath filename) (rel ++ [filename])
    /\ skipped' filename (rel ++ [filename]) = false.
Proof.
  unfold process_files. rewrite list_elem_of_omap.
  intros (filename & Hin & Hsome). exists filename.
  destruct (skipped' filename (rel ++ [filename])); [done|].
  by injection Hsome as <-.
Qed.

(** Nothing happens in the subtree of a pruned directory that the walk is
    not already in. *)
Lemma walk_node_avoids_pruned (parent : list str) (dirname : str) (n : node) :
  pruned' dirname (parent ++ [dirname]) = true ->
  forall dirpath rel e,
    ~ (parent ++ [dirname]) `prefix_of` rel ->
    e ∈ walk_node' n dirpath rel ->
    ~ beneath (parent ++ [dirname]) e.
Proof.
  intros Hpruned. set (t := parent ++ [dirname]) in *.
  induction n as [content|entries IH|] using node_ind;
    intros dirpath rel e Hout Hin.
  - apply list_elem_of_singleton in Hin as ->. done.
  - rewrite walk_node_Dir in Hin.
    apply elem_of_cons in Hin as [->|Hin]; [done|].
    apply elem_of_app in Hin as [Hin|Hin].
    + apply process_files_yields in Hin as (filename & _ & -> & _).
      intros (name & rest & Heq). apply Hout. by eapply snoc_eq_app_cons.
    + apply list_elem_of_In, in_flat_map in Hin as ([name d] & Hd & Hin).
      apply list_elem_of_In in Hd, Hin. simpl in Hin.
      assert ((name, d) ∈ entries /\ pruned' name (rel ++ [name]) = false)
        as [Hentry Hkept].
      { clear -Hd. unfold dir_entries in Hd.
        induction entries as [|[name' d'] entries IHe]; [by inversion Hd|].
        rewrite filter_cons in Hd. simpl in Hd.
        destruct (decide (is_dir d' = true)); simpl in Hd.
        - destruct (pruned' name' (rel ++ [name'])) eqn:Hp.
          + destruct (IHe Hd) as [? ?]. split; [by right|done].
          + apply elem_of_cons in Hd as [Heq|Hd].
            * injection Heq as -> ->. split; [by left|done].
            * destruct (IHe Hd) as [? ?]. split; [by right|done].
        - destruct (IHe Hd) as [? ?]. split; [by right|done]. }
      rewrite Forall_forall in IH.
      refine (IH (name, d) _ _ _ e _ Hin); [done|].
      intros Hpre. apply prefix_snoc_inv in Hpre as [Heq|Hpre]; [|done].
      unfold t in Heq, Hpruned. apply app_inj_tail in Heq as [-> ->].
      congruence.
  - apply list_elem_of_singleton in Hin as ->. done.
Qed.

(** Every file the walk yields has passed the tests of the file loop. *)
Lemma walk_node_yields_kept (n : node) :
  forall dirpath rel file_path file_rel,
    Yielded file_path file_rel ∈ walk_node' n dirpath rel ->
    exists filename, skipped' filename file_rel = false.
Proof.
  induction n as [content|entries IH|] using node_ind;
    intros dirpath rel file_path file_rel Hin.
  - by apply list_elem_of_singleton in Hin.
  - rewrite walk_node_Dir in Hin.
    apply elem_of_cons in Hin as [?|Hin]; [done|].
    apply elem_of_app in Hin as [Hin|Hin].
    + apply process_files_yields in Hin as (filename & _ & Heq & Hkept).
      injection Heq as -> ->. by exists filename.
    + apply list_elem_of_In, in_flat_map in Hin as ([name d] & Hd & Hin).
      apply list_elem_of_In in Hin. simpl in Hin.
      rewrite Forall_forall in IH. refine (IH (name, d) _ _ _ _ _ Hin).
      assert (forall l, (name, d) ∈ filter_dirnames' rel l -> (name, d) ∈ l)
        as Hsub.
      { induction l as [|[name' d'] l IHl]; [done|]. simpl.
        destruct (pruned' name' (rel ++ [name'])).
        - intros. right. auto.
        - intros [->|?]%elem_of_cons; [by left|right; auto]. }
      apply list_elem_of_In, Hsub in Hd. unfold dir_entries in Hd.
      by apply list_elem_of_filter in Hd as [_ ?].
  - by apply list_elem_of_singleton in Hin.
Qed.

End WalkFacts.

(** C4.  When a directory is excluded, hidden, a dependency directory or
    ignored by the patterns, the walk lists neither that directory nor any
    directory below it, and yields no file below it; the files it yields
    are those of the trace. *)
Theorem pruned_directory_never_visited (fs : node) (root_dir : str)
    (show_hidden show_deps respect_gitignore binary_check : bool)
    (gitignore_patterns : option (list GitIgnorePattern))
    (parent : list str) (dirname : str) :
  load_patterns fs respect_gitignore = Some gitignore_patterns ->
  excluded_dir show_hidden show_deps respect_gitignore
               (patterns_list gitignore_patterns) dirname (parent ++ [dirname]) ->
  exists trace,
    walk_trace fs root_dir show_hidden show_deps respect_gitignore binary_check
      = Some trace
    /\ walk_filtered_files fs root_dir show_hidden show_deps respect_gitignore
         binary_check = Some (yields trace)
    /\ forall e, e ∈ trace -> ~ beneath (parent ++ [dirname]) e.
Proof.
  intros Hload Hexcluded. unfold walk_filtered_files, walk_trace. rewrite Hload.
  eexists. split; [reflexivity|]. split; [reflexivity|].
  intros e Hin. eapply walk_node_avoids_pruned; [| |exact Hin].
  - by apply pruned_excluded.
  - intros [k Hk]. by destruct parent.
Qed.

(** A repository with a [.git] directory, walked without gitignore. *)
Lemma pruned_directory_never_visited_witness :
  exists trace,
    walk_trace
      (Dir [(chars ".git", Dir [(chars "config", File (Some []))]);
            (chars "main.py", File (Some []))])
      "/repo" false false false false = Some trace
    /\ walk_filtered_files
         (Dir [(chars ".git", Dir [(chars "config", File (Some []))]);
               (chars "main.py", File (Some []))])
         "/repo" false false false false = Some (yields trace)
    /\ forall e, e ∈ trace -> ~ beneath ([] ++ [chars ".git"]) e.
Proof.
  apply (pruned_directory_never_visited
           (Dir [(chars ".git", Dir [(chars "config", File (Some []))]);
                 (chars "main.py", File (Some []))])
           "/repo" false false false false None [] ".git").
  - reflexivity.
  - left. split; reflexivity.
Defined.

(** C8.  A file that cannot be opened or read is classified as binary, no
    exception leaves [is_binary_file]; a walk that checks for binary files
    never yields such a file, and raises only if loading the patterns
    does. *)
Theorem unreadable_file_is_excluded (fs : node) (file_path : list str) :
  open_rb fs file_path = None ->
  (forall sample_size, is_binary_file fs file_path sample_size = true)
  /\ forall root_dir show_hidden show_deps respect_gitignore,
       match walk_trace fs root_dir show_hidden show_deps respect_gitignore true
       with
       | Some trace => forall abs_path, Yielded abs_path file_path ∉ trace
       | None => load_patterns fs respect_gitignore = None
       end.
Proof.
  intros Hopen.
  assert (forall sample_size, is_binary_file fs file_path sample_size = true)
    as Hbinary.
  { intros sample_size. unfold is_binary_file. by rewrite Hopen. }
  split; [done|].
  intros root_dir show_hidden show_deps respect_gitignore. unfold walk_trace.
  destruct (load_patterns fs respect_gitignore) as [gp|]; [|done].
  cbn [mbind option_bind]. intros abs_path Hin.
  apply walk_node_yields_kept in Hin as [filename Hkept].
  unfold skipped in Hkept. rewrite Hbinary in Hkept.
  by repeat case_match.
Qed.

Lemma unreadable_file_is_excluded_witness :
  is_binary_file (Dir [(chars "secret.key", File None)]) [chars "secret.key"]
                 default_sample_size = true.
Proof.
  apply (unreadable_file_is_excluded
           (Dir [(chars "secret.key", File None)]) [chars "secret.key"]).
  reflexivity.
Defined.

(** * Further properties *)

Import Preview.

(** ** More on patterns and pattern sets *)

(** X1.  Building a pattern never raises: for every line the regex text
    compiles, and the pattern keeps the line as its text. *)
Theorem pattern_compiler_never_raises (line : str) :
  exists pat,
    GitIgnorePattern__init__ line = Some pat
    /\ pattern pat = line
    /\ forall is_absolute is_dir_only body,
         is_Some (_pattern_to_regex is_absolute is_dir_only body).
Proof.
  rewrite GitIgnorePattern_init_total. cbv zeta. eexists.
  split; [reflexivity|]. split; [reflexivity|].
  intros a d body. rewrite pattern_to_regex_total. by eexists.
Qed.

(** X2.  The regex text of a pattern is the anchor of its kind, then the
    translation of its tokens one by one, two stars to [.*], one star to
    [[^/]*], a question mark to [[^/]], any other character to itself,
    escaped if [re.escape] escapes it, then the closing group; and it
    compiles to the sequence of the items of these tokens between the
    anchors. *)
Theorem glob_translation_by_tokens (is_absolute is_dir_only : bool)
    (body : str) :
  regex_source is_absolute is_dir_only body
  = head_text is_absolute ++ text (tokens body) ++ tail_text is_dir_only
  /\ _pattern_to_regex is_absolute is_dir_only body
     = Some (cat_list (head_anchor is_absolute
                       :: map item (tokens body) ++ [tail_anchor is_dir_only])).
Proof.
  split; [apply regex_source_tokens|apply pattern_to_regex_total].
Qed.





Lemma fold_verdict_none rel_path is_dir ps ignored :
  any_match rel_path is_dir ps = false ->
  fold_left (fun ignored p =>
               if matches p rel_path is_dir then negb (is_negated p) else ignored)
            ps ignored = ignored.
Proof.
  revert ignored. induction ps as [|p ps IH]; intros ignored; [done|].
  cbn [any_match existsb fold_left]. intros [Hp Hps]%orb_false_iff.
  rewrite Hp. by apply IH.
Qed.

Lemma fold_verdict_some rel_path is_dir ps ignored ignored' :
  any_match rel_path is_dir ps = true ->
  fold_left (fun ignored p =>
               if matches p rel_path is_dir then negb (is_negated p) else ignored)
            ps ignored
  = fold_left (fun ignored p =>
               if matches p rel_path is_dir then negb (is_negated p) else ignored)
            ps ignored'.
Proof.
  revert ignored ignored'. induction ps as [|p ps IH]; intros i i'; [done|].
  cbn [any_match existsb fold_left].
  destruct (matches p rel_path is_dir) eqn:Hp; [done|].
  cbn [orb]. apply IH.
Qed.

(** X5.  Patterns that come later override: the verdict on two lists of
    patterns one after the other is the verdict of the second list if one
    of its patterns matches, and the verdict of the first list otherwise. *)
Theorem is_ignored_by_gitignore_app (rel_path : str) (is_dir : bool)
    (ps qs : list GitIgnorePattern) :
  is_ignored_by_gitignore rel_path is_dir (ps ++ qs)
  = if any_match rel_path is_dir qs
    then is_ignored_by_gitignore rel_path is_dir qs
    else is_ignored_by_gitignore rel_path is_dir ps.
Proof.
  rewrite !is_ignored_fold, fold_left_app.
  destruct (any_match rel_path is_dir qs) eqn:Hqs.
  - by apply fold_verdict_some.
  - by apply fold_verdict_none.
Qed.

(** ** Patterns without wildcard *)

Lemma tokens_plain body :
  Forall (fun c => c <> "*"%char /\ c <> "?"%char) body ->
  map item (tokens body) = map Re.Chr body.
Proof.
  induction 1 as [|c body [Hstar Hq] _ IH]; [done|].
  cbn [tokens]. rewrite (ascii_eqb_false c "*" Hstar), (ascii_eqb_false c "?" Hq).
  cbn [map]. rewrite IH. f_equal. unfold literal. by destruct (Re.is_special c).
Qed.

Lemma matches_at_tail b s :
  Re.matches_at (cat_list [tail_anchor false]) b s (fun _ _ => true) = true
  <-> s = [] \/ s = [Re.nl] \/ exists s', s = "/"%char :: s'.
Proof.
  cbn [cat_list foldr tail_anchor Re.matches_at].
  destruct s as [|c s]; cbn [Re.at_eol andb orb].
  - split; [by left|done].
  - rewrite !andb_true_r, orb_true_iff, ascii_eqb_true. split.
    + intros [Heol| ->]; [|right; right; by eexists].
      destruct s; [|done]. apply ascii_eqb_true in Heol as ->. by right; left.
    + intros [?|[[= -> ->]|[s' [= -> ->]]]]; [done| |by right].
      left. apply ascii_eqb_refl.
Qed.

Lemma matches_at_literal body : forall b s,
  Re.matches_at (cat_list (map Re.Chr body ++ [tail_anchor false])) b s
    (fun _ _ => true) = true
  <-> exists after,
        s = body ++ after
        /\ (after = [] \/ after = [Re.nl]
            \/ exists after', after = "/"%char :: after').
Proof.
  induction body as [|c body IH]; intros b s.
  - rewrite (matches_at_tail b s). split; [by exists s|by intros (? & -> & ?)].
  - cbn [map app cat_list foldr Re.matches_at].
    destruct s as [|a s].
    + split; [done|by intros (? & ? & _)].
    + rewrite andb_true_iff, ascii_eqb_true.
      change (foldr Re.Cat Re.Empty ?l) with (cat_list l). rewrite IH. split.
      * intros (-> & after & -> & Hafter). by exists after.
      * intros (after & [= -> ->] & Hafter). split; [done|by exists after].
Qed.

Lemma search_from_head_anchor rest :
  no_bol rest = true ->
  forall s b,
    Re.search_from (Re.Cat (head_anchor false) rest) b s = true
    <-> exists before s',
          s = before ++ s'
          /\ ((b = true /\ before = [])
              \/ exists before', before = before' ++ ["/"%char])
          /\ Re.matches_at rest false s' (fun _ _ => true) = true.
Proof.
  intros Hrest.
  assert (forall b1 b2 s, Re.matches_at rest b1 s (fun _ _ => true)
                          = Re.matches_at rest b2 s (fun _ _ => true))
    as Hindep by (intros; by apply matches_at_no_bol).
  set (r := Re.Cat (head_anchor false) rest).
  assert (forall b s, Re.matches_at r b s (fun _ _ => true)
          = (b && Re.matches_at rest false s (fun _ _ => true))
            || match s with
               | c :: s' => ascii_eqb c "/"
                            && Re.matches_at rest false s' (fun _ _ => true)
               | [] => false
               end) as Hr.
  { intros b s. unfold r, head_anchor. cbn [Re.matches_at].
    rewrite (Hindep b false). by destruct s. }
  induction s as [|c s IH]; intros b.
  - cbn [Re.search_from]. rewrite orb_false_r, Hr, orb_false_r, andb_true_iff.
    split.
    + intros [-> Hm]. exists [], []. split; [done|]. split; [by left|done].
    + intros (before & s' & Heq & Hbefore & Hm).
      symmetry in Heq. apply app_eq_nil in Heq as [-> ->].
      destruct Hbefore as [[-> _]|[before' Heq]]; [done|].
      by destruct before'.
  - cbn [Re.search_from]. rewrite orb_true_iff, Hr, orb_true_iff, IH.
    rewrite !andb_true_iff, ascii_eqb_true. split.
    + intros [[[-> Hm]|[-> Hm]]|(before & s' & -> & Hbefore & Hm)].
      * exists [], (c :: s). split; [done|]. split; [by left|done].
      * exists ["/"%char], s. split; [done|]. split; [right; by exists []|done].
      * exists (c :: before), s'. split; [done|]. split; [|done].
        right. destruct Hbefore as [[? _]|[before' ->]]; [done|].
        by exists (c :: before').
    + intros (before & s' & Heq & Hbefore & Hm).
      destruct Hbefore as [[-> ->]|[before' ->]].
      * left. left. cbn [app] in Heq. by subst.
      * destruct before' as [|c' before'].
        -- cbn [app] in Heq. injection Heq as -> ->. left. by right.
        -- cbn [app] in Heq. injection Heq as -> ->. right.
           exists (before' ++ ["/"%char]), s'. split; [done|].
           split; [right; by eexists|done].
Qed.

Lemma init_plain line :
  plain_line line ->
  GitIgnorePattern__init__ line
  = Some {| pattern := line; is_negated := false; is_dir_only := false;
            is_absolute := false;
            regex_pattern := pattern_regex false false line |}.
Proof.
  intros (Hneg & Habs & Hdir & _). rewrite GitIgnorePattern_init_total.
  cbv zeta. rewrite Hneg. cbv iota. rewrite Hdir. cbv iota. by rewrite Habs.
Qed.

Lemma pattern_regex_plain line :
  Forall (fun c => c <> "*"%char /\ c <> "?"%char) line ->
  pattern_regex false false line
  = Re.Cat (head_anchor false)
           (cat_list (map Re.Chr line ++ [tail_anchor false])).
Proof. intros Hchars. unfold pattern_regex. by rewrite tokens_plain. Qed.

Lemma literal_no_bol line :
  no_bol (cat_list (map Re.Chr line ++ [tail_anchor false])) = true.
Proof. by induction line. Qed.

(** X6.  A pattern without marker and without wildcard matches a path
    exactly when its text stands in the path as whole segments: from the
    start of the path or after a slash, up to the end of the path, to a
    slash, or to a line feed that ends the path.  Whether the path is a
    directory does not matter. *)
Theorem plain_pattern_matches_whole_segments (line path : str) (is_dir : bool) :
  plain_line line ->
  matches_line line path is_dir = Some true <-> occurs_as_segments line path.
Proof.
  intros Hplain. unfold matches_line. rewrite (init_plain line Hplain).
  destruct Hplain as (_ & _ & _ & Hchars).
  unfold fmap, option_fmap, option_map, matches.
  cbn [is_dir_only regex_pattern andb].
  rewrite (pattern_regex_plain line Hchars). unfold Re.search.
  split.
  - intros [= Hsearch].
    apply (search_from_head_anchor _ (literal_no_bol line)) in Hsearch
      as (before & s' & -> & Hbefore & Hm).
    apply matches_at_literal in Hm as (after & -> & Hafter).
    exists before, after. split; [done|]. split; [|done].
    destruct Hbefore as [[_ ->]|?]; [by left|by right].
  - intros (before & after & -> & Hbefore & Hafter). f_equal.
    apply (search_from_head_anchor _ (literal_no_bol line)).
    exists before, (line ++ after). split; [done|]. split.
    + destruct Hbefore as [->|?]; [by left|by right].
    + apply matches_at_literal. by exists after.
Qed.

Lemma plain_pattern_matches_whole_segments_witness :
  matches_line "README.md" "docs/README.md" false = Some true.
Proof.
  apply (plain_pattern_matches_whole_segments "README.md" "docs/README.md" false).
  - repeat split; try reflexivity.
    repeat (constructor; [split; discriminate|]). constructor.
  - exists (chars "docs/"), []. split; [reflexivity|].
    split; [right; by exists (chars "docs")|by left].
Defined.

(** ** More on the binary detector *)

Lemma utf8_valid_ascii_app (bs rest : bytes) :
  Forall is_ascii_text bs -> utf8_valid (bs ++ rest) = utf8_valid rest.
Proof.
  induction 1 as [|b bs [Hlo Hhi] _ IH]; [done|].
  cbn [app utf8_valid]. unfold in_range at 1.
  assert (Nat.leb 0 (byte_val b) && Nat.leb (byte_val b) 127 = true) as ->.
  { apply andb_true_iff. split; apply Nat.leb_le; lia. }
  exact IH.
Qed.

Lemma has_null_ascii (bs : bytes) : Forall is_ascii_text bs -> has_null bs = false.
Proof.
  intros Hbs. destruct (has_null bs) eqn:Hnull; [|done].
  apply has_null_elem_of in Hnull. rewrite Forall_forall in Hbs.
  apply Hbs in Hnull. destruct Hnull as [Hlo _].
  change (byte_val x00) with 0 in Hlo. lia.
Qed.

(** X7.  A readable file whose sample holds nothing but ASCII characters
    other than the null character is classified as text, whatever follows
    the sample, null bytes included. *)
Theorem is_binary_file_ascii_sample (fs : node) (file_path : list str)
    (content : bytes) (sample_size : Z) :
  open_rb fs file_path = Some content ->
  Forall is_ascii_text (read content sample_size) ->
  is_binary_file fs file_path sample_size = false.
Proof.
  intros Hopen Hsample. unfold is_binary_file. rewrite Hopen.
  rewrite (has_null_ascii _ Hsample).
  rewrite <- (app_nil_r (read content sample_size)).
  by rewrite (utf8_valid_ascii_app _ [] Hsample).
Qed.

(** Two letters and then a null byte, sampled over two bytes. *)
Lemma is_binary_file_ascii_sample_witness :
  is_binary_file (Dir [(chars "blob", File (Some [x68; x69; x00]))])
                 [chars "blob"] 2 = false.
Proof.
  apply (is_binary_file_ascii_sample
           (Dir [(chars "blob", File (Some [x68; x69; x00]))])
           [chars "blob"] [x68; x69; x00] 2); [reflexivity|].
  change (Forall is_ascii_text [x68; x69]).
  repeat (constructor; [unfold is_ascii_text; vm_compute; lia|]). constructor.
Defined.

(** X8.  A sample that stops inside a character of several bytes does not
    decode: a readable file whose first [sample_size - 1] bytes are ASCII
    text and whose next byte is not ASCII is classified as binary, even
    when the whole file is valid UTF-8 text. *)
Theorem is_binary_file_cut_character (fs : node) (file_path : list str)
    (before after : bytes) (lead : byte) (sample_size : Z) :
  open_rb fs file_path = Some (before ++ lead :: after) ->
  Forall is_ascii_text before ->
  128 <= byte_val lead ->
  sample_size = Z.of_nat (length before + 1) ->
  is_binary_file fs file_path sample_size = true.
Proof.
  intros Hopen Hascii Hlead ->. unfold is_binary_file, read. rewrite Hopen.
  destruct (Z.ltb_spec (Z.of_nat (length before + 1)) 0) as [?|_]; [lia|].
  rewrite Nat2Z.id.
  assert (take (length before + 1) (before ++ lead :: after) = before ++ [lead])
    as ->.
  { rewrite take_app_ge by lia.
    by replace (length before + 1 - length before) with 1 by lia. }
  destruct (has_null (before ++ [lead])); [done|].
  rewrite (utf8_valid_ascii_app _ _ Hascii).
  cbn [utf8_valid]. unfold in_range at 1.
  assert (Nat.leb (byte_val lead) 127 = false) as ->
    by (apply Nat.leb_gt; lia).
  by rewrite andb_false_r.
Qed.

(** [caf] and the two bytes of an e with an acute accent, sampled over
    four bytes. *)
Lemma is_binary_file_cut_character_witness :
  utf8_valid [x63; x61; x66; xc3; xa9] = true
  /\ is_binary_file (Dir [(chars "menu", File (Some [x63; x61; x66; xc3; xa9]))])
                    [chars "menu"] 4 = true.
Proof.
  split; [reflexivity|].
  apply (is_binary_file_cut_character
           (Dir [(chars "menu", File (Some [x63; x61; x66; xc3; xa9]))])
           [chars "menu"] [x63; x61; x66] [xa9] xc3 4); [reflexivity| | |reflexivity].
  - repeat (constructor; [unfold is_ascii_text; vm_compute; lia|]). constructor.
  - vm_compute. lia.
Defined.

(** ** More on the walker *)

Section ReachFacts.
Variable fs : node.
Variables show_hidden show_deps respect_gitignore binary_check : bool.
Variable gitignore_patterns : option (list GitIgnorePattern).

Abbreviation pruned_ := (pruned show_hidden show_deps respect_gitignore gitignore_patterns).
Abbreviation skipped_ :=
  (skipped fs show_hidden respect_gitignore binary_check gitignore_patterns).
Abbreviation walk_ :=
  (walk_node fs show_hidden show_deps respect_gitignore binary_check
     gitignore_patterns).
Abbreviation reach_ :=
  (reach show_hidden show_deps respect_gitignore gitignore_patterns).
Abbreviation visits_ :=
  (visits fs show_hidden show_deps respect_gitignore binary_check
     gitignore_patterns).

Lemma elem_of_filter_dirnames rel d c entries :
  (d, c) ∈ filter_dirnames show_hidden show_deps respect_gitignore
             gitignore_patterns rel (dir_entries entries)
  <-> (d, c) ∈ entries /\ is_dir c = true /\ pruned_ d (rel ++ [d]) = false.
Proof.
  unfold dir_entries. induction entries as [|[d' c'] entries IH].
  - rewrite filter_nil. cbn [filter_dirnames]. split.
    + by intros ?%elem_of_nil.
    + by intros [?%elem_of_nil _].
  - rewrite filter_cons. cbn [snd]. rewrite elem_of_cons.
    destruct (decide (is_dir c' = true)) as [Hdir|Hdir].
    + cbn [filter_dirnames].
      destruct (pruned_ d' (rel ++ [d'])) eqn:Hp.
      * rewrite IH. split; [tauto|]. intros [[[= -> ->]|?] [? ?]]; [congruence|tauto].
      * rewrite elem_of_cons, IH. split.
        -- intros [[= -> ->]|?]; [tauto|tauto].
        -- tauto.
    + rewrite IH. split; [tauto|].
      intros [[[= -> ->]|?] [? ?]]; [congruence|tauto].
Qed.

Lemma elem_of_process_files dirpath rel filenames e :
  e ∈ process_files fs show_hidden respect_gitignore binary_check
        gitignore_patterns dirpath rel filenames
  <-> exists filename,
        filename ∈ filenames
        /\ skipped_ filename (rel ++ [filename]) = false
        /\ e = Yielded (path_join dirpath filename) (rel ++ [filename]).
Proof.
  unfold process_files. rewrite list_elem_of_omap. split.
  - intros (filename & Hin & Hsome). exists filename.
    destruct (skipped_ filename (rel ++ [filename])); [done|].
    by injection Hsome as <-.
  - intros (filename & Hin & Hkept & ->). exists filename.
    by rewrite Hkept.
Qed.

Lemma walk_node_visits_1 (n : node) : forall dirpath rel e,
  e ∈ walk_ n dirpath rel -> visits_ n dirpath rel e.
Proof.
  induction n as [content|entries IH|] using node_ind; intros dirpath rel e Hin.
  - apply list_elem_of_singleton in Hin as ->.
    exists [], (File content). split; [constructor|left]. by rewrite app_nil_r.
  - rewrite walk_node_Dir in Hin.
    apply elem_of_cons in Hin as [->|Hin].
    { exists [], (Dir entries). split; [constructor|left]. by rewrite app_nil_r. }
    apply elem_of_app in Hin as [Hin|Hin].
    + apply elem_of_process_files in Hin as (filename & Hf & Hkept & ->).
      exists [], (Dir entries). split; [constructor|right].
      exists entries, filename. by rewrite app_nil_l.
    + apply list_elem_of_In, in_flat_map in Hin as ([d c] & Hd & Hin).
      apply list_elem_of_In in Hd, Hin. cbn [fst snd] in Hin.
      apply elem_of_filter_dirnames in Hd as (Hentry & Hdir & Hkept).
      rewrite Forall_forall in IH.
      destruct (IH (d, c) Hentry _ _ _ Hin) as (ds & n' & Hreach & He).
      exists (d :: ds), n'. split; [by econstructor|].
      destruct He as [->|(entries' & filename & Hn' & Hf & Hskip & ->)].
      * left. by rewrite <- app_assoc.
      * right. exists entries', filename.
        rewrite <- !app_assoc in Hskip. by rewrite <- !app_assoc.
  - apply list_elem_of_singleton in Hin as ->.
    exists [], DirDenied. split; [constructor|left]. by rewrite app_nil_r.
Qed.

Lemma walk_node_Scanned n dirpath rel : Scanned rel ∈ walk_ n dirpath rel.
Proof. destruct n; simpl; by left. Qed.

Lemma walk_node_visits_2 n rel ds n' :
  reach_ n rel ds n' ->
  forall dirpath,
    Scanned (rel ++ ds) ∈ walk_ n dirpath rel
    /\ forall entries filename,
         n' = Dir entries ->
         filename ∈ file_names entries ->
         skipped_ filename (rel ++ ds ++ [filename]) = false ->
         Yielded (path_join (join_all dirpath ds) filename)
                 (rel ++ ds ++ [filename]) ∈ walk_ n dirpath rel.
Proof.
  induction 1 as [n rel|entries rel d c ds n' Hentry Hdir Hkept Hreach IH];
    intros dirpath.
  - split; [rewrite app_nil_r; apply walk_node_Scanned|].
    intros entries filename -> Hf Hskip. rewrite walk_node_Dir.
    right. apply elem_of_app. left. apply elem_of_process_files.
    exists filename. by rewrite app_nil_l in Hskip.
  - assert (forall e, e ∈ walk_ c (path_join dirpath d) (rel ++ [d]) ->
                      e ∈ walk_ (Dir entries) dirpath rel) as Hsub.
    { intros e He. rewrite walk_node_Dir. right. apply elem_of_app. right.
      apply list_elem_of_In, in_flat_map. exists (d, c).
      split; apply list_elem_of_In; [|done].
      by apply elem_of_filter_dirnames. }
    destruct (IH (path_join dirpath d)) as [Hscan Hyield]. split.
    + apply Hsub. by rewrite <- app_assoc in Hscan.
    + intros entries' filename Hn' Hf Hskip. apply Hsub.
      specialize (Hyield entries' filename Hn' Hf).
      rewrite <- !app_assoc in Hyield. by apply Hyield.
Qed.

Lemma walk_node_visits n dirpath rel e :
  e ∈ walk_ n dirpath rel <-> visits_ n dirpath rel e.
Proof.
  split; [apply walk_node_visits_1|].
  intros (ds & n' & Hreach & He).
  destruct (walk_node_visits_2 n rel ds n' Hreach dirpath) as [Hscan Hyield].
  destruct He as [->|(entries & filename & Hn' & Hf & Hskip & ->)]; [done|].
  by eapply Hyield.
Qed.

End ReachFacts.

Lemma elem_of_yields trace file_path rel_path :
  (file_path, rel_path) ∈ yields trace
  <-> exists rel, Yielded file_path rel ∈ trace /\ rel_path = join_sep rel.
Proof.
  unfold yields. rewrite list_elem_of_omap. split.
  - intros ([r|a r] & Hin & Hsome); [done|].
    injection Hsome as -> <-. by exists r.
  - intros (r & Hin & ->). by exists (Yielded file_path r).
Qed.

Lemma reach_at_path sh sd rg gp n rel ds n' :
  reach sh sd rg gp n rel ds n' -> at_path n ds n'.
Proof. induction 1; econstructor; eauto. Qed.

Lemma pruned_not_hidden sd rg gp d rel :
  pruned false sd rg gp d rel = false -> startswith d "." = false.
Proof.
  unfold pruned. destruct (startswith d "."); [|done]. by cbn [andb negb].
Qed.

Lemma reach_not_hidden sd rg gp n rel ds n' :
  reach false sd rg gp n rel ds n' ->
  Forall (fun d => startswith d "." = false) ds.
Proof.
  induction 1 as [|entries rel d c ds n' _ _ Hkept _ IH]; constructor; [|done].
  by eapply pruned_not_hidden.
Qed.

Lemma file_names_elem_of filename entries :
  filename ∈ file_names entries <->
  exists c, (filename, File c) ∈ entries.
Proof.
  unfold file_names. rewrite list_elem_of_fmap. split.
  - intros ([name n] & -> & [Hfile Hin]%list_elem_of_filter).
    destruct n as [c| |]; try done. by exists c.
  - intros (c & Hin). exists (filename, File c). split; [done|].
    by apply list_elem_of_filter.
Qed.

(** X11.  Whatever the filters, a walk yields files of the tree only: each
    pair is made of the path from the root of the walk down to a file, its
    components joined by slashes, and of the root directory joined with
    these components by [os.path.join]. *)
Theorem walk_yields_files_of_the_tree (fs : node) (root_dir : str)
    (show_hidden show_deps respect_gitignore binary_check : bool)
    (out : list (str * str)) (file_path rel_path : str) :
  walk_filtered_files fs root_dir show_hidden show_deps respect_gitignore
    binary_check = Some out ->
  (file_path, rel_path) ∈ out ->
  exists ds filename content,
    at_path fs (ds ++ [filename]) (File content)
    /\ rel_path = join_sep (ds ++ [filename])
    /\ file_path = path_join (join_all root_dir ds) filename.
Proof.
  unfold walk_filtered_files, walk_trace.
  destruct (load_patterns fs respect_gitignore) as [gp|]; [|done].
  cbn [mbind option_bind fmap option_fmap option_map]. intros [= <-] Hin.
  apply elem_of_yields in Hin as (rel & Hin & ->).
  apply walk_node_visits in Hin as (ds & n' & Hreach & He).
  destruct He as [?|(entries & filename & -> & Hf & _ & He)]; [done|].
  injection He as -> ->. apply file_names_elem_of in Hf as [content Hf].
  exists ds, filename, content. split; [|done].
  apply reach_at_path in Hreach. clear -Hreach Hf.
  remember (Dir entries) as n' eqn:Hn'.
  induction Hreach as [n|entries' d c ds n' Hentry _ IH]; subst.
  - econstructor; [done|constructor].
  - cbn [app]. econstructor; [done|]. by apply IH.
Qed.

Lemma walk_yields_files_of_the_tree_witness :
  exists ds filename content,
    at_path (Dir [(chars "src", Dir [(chars "main.py", File (Some []))])])
            (ds ++ [filename]) (File content)
    /\ chars "src/main.py" = join_sep (ds ++ [filename])
    /\ chars "/repo/src/main.py" = path_join (join_all "/repo" ds) filename.
Proof.
  apply (walk_yields_files_of_the_tree
           (Dir [(chars "src", Dir [(chars "main.py", File (Some []))])])
           "/repo" false false false false
           [(chars "/repo/src/main.py", chars "src/main.py")]).
  - reflexivity.
  - apply list_elem_of_here.
Defined.

Lemma pruned_nothing d rel : pruned true true false None d rel = false.
Proof.
  unfold pruned, gitignored. cbn [negb andb]. by rewrite !andb_false_r.
Qed.

Lemma at_path_snoc_inv ds : forall n filename n'',
  at_path n (ds ++ [filename]) n'' ->
  exists entries, at_path n ds (Dir entries) /\ (filename, n'') ∈ entries.
Proof.
  induction ds as [|d ds IH]; intros n filename n'' Hat; inversion Hat; subst.
  - match goal with H : at_path _ [] _ |- _ => inversion H; subst end.
    eexists. split; [constructor|done].
  - match goal with H : at_path _ (ds ++ _) _ |- _ =>
      apply IH in H as (entries' & Hat' & Hin) end.
    exists entries'. split; [by econstructor|done].
Qed.

Lemma at_path_reach n ds entries rel :
  at_path n ds (Dir entries) ->
  reach true true false None n rel ds (Dir entries).
Proof.
  intros Hat. revert rel. remember (Dir entries) as n' eqn:Hn'.
  induction Hat as [n|entries' d c ds n' Hentry Hat IH]; intros rel;
    [constructor|].
  econstructor; [done| |apply pruned_nothing|by apply IH].
  subst. by inversion Hat.
Qed.

(** X12.  With every filter off, the walk yields every file of the tree. *)
Theorem walk_unfiltered_yields_every_file (fs : node) (root_dir : str)
    (ds : list str) (filename : str) (content : option bytes) :
  at_path fs (ds ++ [filename]) (File content) ->
  exists out,
    walk_filtered_files fs root_dir true true false false = Some out
    /\ (path_join (join_all root_dir ds) filename, join_sep (ds ++ [filename]))
       ∈ out.
Proof.
  intros Hat. eexists. split; [reflexivity|].
  apply elem_of_yields. exists (ds ++ [filename]). split; [|done].
  apply at_path_snoc_inv in Hat as (entries & Hat & Hin).
  apply (walk_node_visits fs true true false false None fs root_dir []).
  exists ds, (Dir entries). split; [by apply at_path_reach|].
  right. exists entries, filename. split; [done|]. split; [|split; [|done]].
  - apply file_names_elem_of. by exists content.
  - unfold skipped, gitignored. cbn [negb andb]. by rewrite andb_false_r.
Qed.

Lemma walk_unfiltered_yields_every_file_witness :
  exists out,
    walk_filtered_files
      (Dir [(chars ".git", Dir [(chars "config", File None)])])
      "/repo" true true false false = Some out
    /\ (path_join (join_all "/repo" [chars ".git"]) "config",
        join_sep ([chars ".git"] ++ [chars "config"])) ∈ out.
Proof.
  apply (walk_unfiltered_yields_every_file
           (Dir [(chars ".git", Dir [(chars "config", File None)])])
           "/repo" [chars ".git"] "config" None).
  eapply at_down; [apply list_elem_of_here|].
  eapply at_down; [apply list_elem_of_here|]. apply at_here.
Defined.

(** X9.  Every file that is yielded has passed the tests of the file loop:
    its name is not hidden unless hidden files are shown; the patterns do
    not ignore its relative path if gitignore is respected; it can be read
    and is not binary if binary files are checked. *)
Theorem yielded_file_passed_the_tests (fs : node) (root_dir : str)
    (show_hidden show_deps respect_gitignore binary_check : bool)
    (gitignore_patterns : option (list GitIgnorePattern))
    (trace : list event) (file_path : str) (rel : list str) :
  load_patterns fs respect_gitignore = Some gitignore_patterns ->
  walk_trace fs root_dir show_hidden show_deps respect_gitignore binary_check
    = Some trace ->
  Yielded file_path rel ∈ trace ->
  exists ds filename,
    rel = ds ++ [filename]
    /\ (show_hidden = false -> startswith filename "." = false)
    /\ (respect_gitignore = true ->
        is_ignored_by_gitignore (join_sep rel) false
          (patterns_list gitignore_patterns) = false)
    /\ (binary_check = true ->
        is_binary_file fs rel default_sample_size = false
        /\ is_Some (open_rb fs rel)).
Proof.
  intros Hload. unfold walk_trace. rewrite Hload.
  cbn [mbind option_bind]. intros [= <-] Hin.
  apply walk_node_visits in Hin as (ds & n' & _ & He).
  destruct He as [?|(entries & filename & _ & _ & Hkept & He)]; [done|].
  injection He as -> ->. cbn [app] in *. exists ds, filename.
  split; [done|]. unfold skipped in Hkept.
  destruct (startswith filename "." && negb show_hidden) eqn:Hhidden; [done|].
  destruct (gitignored _ _ _ _) eqn:Hgit; [done|].
  split; [|split].
  - intros ->. by rewrite andb_true_r in Hhidden.
  - intros ->. destruct (is_ignored_by_gitignore _ _ _) eqn:Hig; [|done].
    assert (gitignored true gitignore_patterns (join_sep (ds ++ [filename]))
              false = true); [|congruence].
    by apply gitignored_true.
  - intros ->. cbn [andb] in Hkept. split; [done|].
    unfold is_binary_file in Hkept. by destruct (open_rb fs _).
Qed.

Lemma yielded_file_passed_the_tests_witness :
  exists ds filename,
    [chars "src"; chars "main.py"] = ds ++ [filename]
    /\ (false = false -> startswith filename "." = false)
    /\ (false = true ->
        is_ignored_by_gitignore (join_sep [chars "src"; chars "main.py"]) false
          (patterns_list None) = false)
    /\ (true = true ->
        is_binary_file
          (Dir [(chars "src", Dir [(chars "main.py", File (Some []))])])
          [chars "src"; chars "main.py"] default_sample_size = false
        /\ is_Some (open_rb
                      (Dir [(chars "src", Dir [(chars "main.py", File (Some []))])])
                      [chars "src"; chars "main.py"])).
Proof.
  apply (yielded_file_passed_the_tests
           (Dir [(chars "src", Dir [(chars "main.py", File (Some []))])])
           "/repo" false false false true None
           [Scanned []; Scanned [chars "src"];
            Yielded (chars "/repo/src/main.py") [chars "src"; chars "main.py"]]
           (chars "/repo/src/main.py")).
  - reflexivity.
  - reflexivity.
  - apply list_elem_of_further, list_elem_of_further, list_elem_of_here.
Defined.

(** X10.  Unless hidden entries are shown, no component of the path of a
    directory that is listed or of a file that is yielded starts with a
    dot. *)
Theorem walk_shows_nothing_hidden (fs : node) (root_dir : str)
    (show_deps respect_gitignore binary_check : bool)
    (trace : list event) (e : event) :
  walk_trace fs root_dir false show_deps respect_gitignore binary_check
    = Some trace ->
  e ∈ trace ->
  Forall (fun name => startswith name "." = false) (event_path e).
Proof.
  unfold walk_trace.
  destruct (load_patterns fs respect_gitignore) as [gp|]; [|done].
  cbn [mbind option_bind]. intros [= <-] Hin.
  apply walk_node_visits in Hin as (ds & n' & Hreach & He).
  apply reach_not_hidden in Hreach.
  destruct He as [->|(entries & filename & _ & _ & Hkept & ->)]; [done|].
  cbn [event_path app]. apply Forall_app. split; [done|].
  constructor; [|done]. unfold skipped in Hkept.
  destruct (startswith filename "."); [|done]. by cbn [andb negb] in Hkept.
Qed.

Lemma walk_shows_nothing_hidden_witness :
  Forall (fun name => startswith name "." = false)
         (event_path (Yielded (chars "/repo/main.py") [chars "main.py"])).
Proof.
  apply (walk_shows_nothing_hidden
           (Dir [(chars ".env", File (Some [])); (chars "main.py", File (Some []))])
           "/repo" false false false
           [Scanned []; Yielded (chars "/repo/main.py") [chars "main.py"]]).
  - reflexivity.
  - apply list_elem_of_further, list_elem_of_here.
Defined.

(** *** Paths as text *)

Lemma startswith_slash_head (s : str) :
  startswith s "/" = true <-> exists s', s = "/"%char :: s'.
Proof.
  destruct s as [|c s]; cbn [chars list_ascii_of_string].
  - split; [done|by intros [? ?]].
  - rewrite startswith_cons. split.
    + intros [->%ascii_eqb_true _]%andb_true_iff. by eexists.
    + intros [s' [= -> ->]]. rewrite ascii_eqb_refl. by destruct s'.
Qed.

Lemma endswith_slash_last (s : str) :
  endswith s "/" = true <-> exists s', s = s' ++ ["/"%char].
Proof.
  unfold endswith. rewrite startswith_slash_head. split.
  - intros [s' Hs]. exists (rev s').
    by rewrite <- (rev_involutive s), Hs.
  - intros [s' ->]. exists (rev s'). by rewrite rev_app_distr.
Qed.

Lemma name_ok_no_leading_slash name rest :
  name_ok name -> startswith (name ++ rest) "/" = false.
Proof.
  intros [Hne Hslash]. apply not_true_iff_false.
  intros [s' Hs]%startswith_slash_head.
  destruct name as [|c name]; [done|]. injection Hs as -> _.
  apply Hslash. by left.
Qed.

Lemma name_ok_no_trailing_slash prefix name :
  name_ok name -> endswith (prefix ++ name) "/" = false.
Proof.
  intros [Hne Hslash]. apply not_true_iff_false.
  intros [s' Hs]%endswith_slash_last.
  destruct name as [|c name _] using rev_ind; [done|].
  rewrite app_assoc in Hs. apply app_inj_tail in Hs as [_ ->].
  apply Hslash, elem_of_app. right. by left.
Qed.

Lemma join_sep_cons name names :
  names <> [] -> join_sep (name :: names) = name ++ "/"%char :: join_sep names.
Proof. by destruct names. Qed.

Lemma join_sep_no_leading_slash names :
  Forall name_ok names -> startswith (join_sep names) "/" = false.
Proof.
  intros [|name rest Hname _]; [done|].
  destruct rest as [|name' rest].
  - rewrite <- (app_nil_r name). by apply name_ok_no_leading_slash.
  - rewrite join_sep_cons by done. by apply name_ok_no_leading_slash.
Qed.

Lemma name_ok_no_slash_first name :
  name_ok name -> startswith name "/" = false.
Proof.
  intros Hname. rewrite <- (app_nil_r name).
  by apply name_ok_no_leading_slash.
Qed.

Lemma path_join_relative dirpath rest :
  startswith rest "/" = false ->
  path_join dirpath rest
  = if bool_decide (dirpath = []) || endswith dirpath "/"
    then dirpath ++ rest else dirpath ++ "/"%char :: rest.
Proof. intros Hrest. unfold path_join. by rewrite Hrest. Qed.

Lemma path_join_name dirpath name rest :
  name_ok name ->
  startswith rest "/" = false ->
  path_join (path_join dirpath name) rest
  = path_join dirpath (name ++ "/"%char :: rest).
Proof.
  intros Hname Hrest.
  rewrite (path_join_relative dirpath (name ++ _))
    by by apply name_ok_no_leading_slash.
  rewrite (path_join_relative dirpath name)
    by by apply name_ok_no_slash_first.
  rewrite (path_join_relative _ rest Hrest).
  destruct (bool_decide (dirpath = []) || endswith dirpath "/").
  - rewrite (name_ok_no_trailing_slash dirpath name Hname).
    rewrite bool_decide_eq_false_2; [cbn [orb]; by rewrite <- app_assoc|].
    destruct Hname as [Hne _]. by destruct dirpath, name.
  - change (dirpath ++ "/"%char :: name) with (dirpath ++ ["/"%char] ++ name).
    rewrite app_assoc.
    rewrite (name_ok_no_trailing_slash (dirpath ++ ["/"%char]) name Hname).
    rewrite bool_decide_eq_false_2; [cbn [orb]; by rewrite <- !app_assoc|].
    by destruct dirpath.
Qed.

Lemma path_join_all dirpath ds filename :
  Forall name_ok (ds ++ [filename]) ->
  path_join (join_all dirpath ds) filename
  = path_join dirpath (join_sep (ds ++ [filename])).
Proof.
  revert dirpath. induction ds as [|d ds IH]; intros dirpath Hok; [done|].
  cbn [app] in Hok. apply Forall_cons in Hok as [Hd Hok].
  cbn [join_all foldl app]. change (foldl path_join ?a ds) with (join_all a ds).
  rewrite IH by done. rewrite join_sep_cons by (by destruct ds).
  apply path_join_name; [done|]. by apply join_sep_no_leading_slash.
Qed.

(** X13.  For a file whose path has proper names only, not empty and
    without a slash, the absolute path that is yielded is the root
    directory joined by [os.path.join] with the relative path that is
    yielded. *)
Theorem yielded_paths_agree (fs : node) (root_dir : str)
    (show_hidden show_deps respect_gitignore binary_check : bool)
    (trace : list event) (file_path : str) (rel : list str) :
  walk_trace fs root_dir show_hidden show_deps respect_gitignore binary_check
    = Some trace ->
  Yielded file_path rel ∈ trace ->
  Forall name_ok rel ->
  file_path = path_join root_dir (join_sep rel)
  /\ (file_path, join_sep rel) ∈ yields trace.
Proof.
  unfold walk_trace.
  destruct (load_patterns fs respect_gitignore) as [gp|]; [|done].
  cbn [mbind option_bind]. intros [= <-] Hin Hok. split.
  - apply walk_node_visits in Hin as (ds & n' & _ & He).
    destruct He as [?|(entries & filename & _ & _ & _ & He)]; [done|].
    injection He as -> ->. cbn [app] in *. by apply path_join_all.
  - apply elem_of_yields. by exists rel.
Qed.

Lemma yielded_paths_agree_witness :
  chars "/repo/src/main.py" = path_join "/repo" (join_sep [chars "src"; chars "main.py"])
  /\ (chars "/repo/src/main.py", join_sep [chars "src"; chars "main.py"])
     ∈ yields [Scanned []; Scanned [chars "src"];
               Yielded (chars "/repo/src/main.py") [chars "src"; chars "main.py"]].
Proof.
  apply (yielded_paths_agree
           (Dir [(chars "src", Dir [(chars "main.py", File (Some []))])])
           "/repo" false false false false
           [Scanned []; Scanned [chars "src"];
            Yielded (chars "/repo/src/main.py") [chars "src"; chars "main.py"]]).
  - reflexivity.
  - apply list_elem_of_further, list_elem_of_further, list_elem_of_here.
  - repeat (constructor; [split; [discriminate|by compute_done]|]). constructor.
Defined.

(** *** The filters one by one *)

Section FilterFacts.
Variable fs : node.
Variables show_hidden show_deps : bool.

Lemma skipped_binary_check respect_gitignore gitignore_patterns filename rel :
  skipped fs show_hidden respect_gitignore true gitignore_patterns filename rel
  = skipped fs show_hidden respect_gitignore false gitignore_patterns
      filename rel
    || is_binary_file fs rel default_sample_size.
Proof.
  unfold skipped. destruct (startswith filename "." && negb show_hidden); [done|].
  by destruct (gitignored _ _ _ _).
Qed.

Lemma process_files_binary_check respect_gitignore gitignore_patterns
    dirpath rel filenames :
  process_files fs show_hidden respect_gitignore true gitignore_patterns
    dirpath rel filenames
  = filter (fun e => not_binary fs e = true)
      (process_files fs show_hidden respect_gitignore false gitignore_patterns
         dirpath rel filenames).
Proof.
  unfold process_files.
  induction filenames as [|filename filenames IH]; [done|].
  cbn [omap list_omap]. rewrite skipped_binary_check.
  destruct (skipped fs show_hidden respect_gitignore false gitignore_patterns
              filename (rel ++ [filename])); [exact IH|].
  cbn [orb]. rewrite filter_cons. cbn [not_binary].
  destruct (is_binary_file fs (rel ++ [filename]) default_sample_size);
    cbn [negb].
  - by destruct (decide (false = true)) as [|_].
  - destruct (decide (true = true)) as [_|]; [|done]. by f_equal.
Qed.

Lemma walk_node_binary_check respect_gitignore gitignore_patterns (n : node) :
  forall dirpath rel,
    walk_node fs show_hidden show_deps respect_gitignore true
      gitignore_patterns n dirpath rel
    = filter (fun e => not_binary fs e = true)
        (walk_node fs show_hidden show_deps respect_gitignore false
           gitignore_patterns n dirpath rel).
Proof.
  induction n as [content|entries IH|] using node_ind; intros dirpath rel;
    try done.
  rewrite !walk_node_Dir, filter_cons. cbn [not_binary].
  destruct (decide (true = true)) as [_|]; [|done]. f_equal.
  rewrite filter_app. f_equal; [apply process_files_binary_check|].
  rewrite Forall_forall in IH.
  assert (forall l, (forall e, e ∈ l -> e ∈ entries) ->
    flat_map (fun e => walk_node fs show_hidden show_deps respect_gitignore
                         true gitignore_patterns e.2
                         (path_join dirpath e.1) (rel ++ [e.1])) l
    = filter (fun e => not_binary fs e = true)
        (flat_map (fun e => walk_node fs show_hidden show_deps
                              respect_gitignore false gitignore_patterns e.2
                              (path_join dirpath e.1) (rel ++ [e.1])) l))
    as Hall.
  { induction l as [|e l IHl]; intros Hsub; [done|].
    cbn [flat_map]. rewrite filter_app, <- IHl.
    - f_equal. apply IH, Hsub. by left.
    - intros e' He'. apply Hsub. by right. }
  apply Hall. intros [d c] Hin.
  apply elem_of_filter_dirnames in Hin. tauto.
Qed.


End FilterFacts.

(** X14.  The binary check does not change which directories are walked:
    what a walk with the check does is what the walk without it does,
    less the files that [is_binary_file] classifies as binary. *)
Theorem binary_check_only_removes_files (fs : node) (root_dir : str)
    (show_hidden show_deps respect_gitignore : bool) :
  walk_trace fs root_dir show_hidden show_deps respect_gitignore true
  = filter (fun e => not_binary fs e = true)
    <$> walk_trace fs root_dir show_hidden show_deps respect_gitignore false.
Proof.
  unfold walk_trace.
  destruct (load_patterns fs respect_gitignore) as [gp|]; [|done].
  cbn [mbind option_bind fmap option_fmap option_map]. f_equal.
  apply walk_node_binary_check.
Qed.



(** *** No path twice *)

Section NoDupFacts.
Variable fs : node.
Variables show_hidden show_deps respect_gitignore binary_check : bool.
Variable gitignore_patterns : option (list GitIgnorePattern).

Abbreviation walk__ :=
  (walk_node fs show_hidden show_deps respect_gitignore binary_check
     gitignore_patterns).

Lemma walk_node_path_prefix n dirpath rel e :
  e ∈ walk__ n dirpath rel -> rel `prefix_of` event_path e.
Proof.
  intros (ds & n' & _ & He)%walk_node_visits_1.
  destruct He as [->|(entries & filename & _ & _ & _ & ->)];
    cbn [event_path]; by eexists.
Qed.

Lemma NoDup_fst_agree {A B} (l : list (A * B)) x y1 y2 :
  NoDup l.*1 -> (x, y1) ∈ l -> (x, y2) ∈ l -> y1 = y2.
Proof.
  induction l as [|[x' y'] l IH]; [by intros _ ?%elem_of_nil|].
  rewrite fmap_cons. cbn [fst]. intros [Hx' Hl]%NoDup_cons.
  intros [[= -> ->]|H1]%elem_of_cons [[= ->]|H2]%elem_of_cons; try done.
  - destruct Hx'. apply list_elem_of_fmap. by exists (x', y2).
  - destruct Hx'. apply list_elem_of_fmap. by exists (x', y1).
  - by apply IH.
Qed.

Lemma process_files_paths dirpath rel filenames :
  NoDup filenames ->
  NoDup (event_path
           <$> process_files fs show_hidden respect_gitignore binary_check
                 gitignore_patterns dirpath rel filenames).
Proof.
  unfold process_files.
  induction 1 as [|filename filenames Hnew _ IH]; [constructor|].
  cbn [omap list_omap]. destruct (skipped _ _ _ _ _ _ _); [exact IH|].
  rewrite fmap_cons. apply NoDup_cons. split; [|exact IH].
  cbn [event_path]. intros (e & Heq & Hin)%list_elem_of_fmap.
  apply list_elem_of_omap in Hin as (filename' & Hin & Hsome).
  destruct (skipped _ _ _ _ _ _ _); [done|]. injection Hsome as <-.
  cbn [event_path] in Heq. apply app_inv_head in Heq. by injection Heq as ->.
Qed.

Lemma walk_node_paths (n : node) :
  unique_names n ->
  forall dirpath rel, NoDup (event_path <$> walk__ n dirpath rel).
Proof.
  induction n as [content|entries IH|] using node_ind;
    intros Hunique dirpath rel;
    [apply NoDup_singleton| |apply NoDup_singleton].
  inversion Hunique as [| |entries' Hnames Hchildren]; subst.
  rewrite walk_node_Dir, fmap_cons, fmap_app. cbn [event_path].
  set (kept := filter_dirnames show_hidden show_deps respect_gitignore
                 gitignore_patterns rel (dir_entries entries)).
  assert (forall p, p ∈ event_path <$> flat_map
            (fun e => walk__ e.2 (path_join dirpath e.1) (rel ++ [e.1])) kept ->
          exists d c k, (d, c) ∈ kept /\ p = rel ++ d :: k) as Hbelow.
  { intros p (e & -> & Hin)%list_elem_of_fmap.
    apply list_elem_of_In, in_flat_map in Hin as ([d c] & Hd & Hin).
    apply list_elem_of_In in Hd, Hin.
    apply walk_node_path_prefix in Hin as [k Hk]. exists d, c, k.
    split; [done|]. rewrite Hk. cbn [fst]. by rewrite <- app_assoc. }
  assert (forall p, p ∈ event_path <$> process_files fs show_hidden
            respect_gitignore binary_check gitignore_patterns dirpath rel
            (file_names entries) ->
          exists filename, filename ∈ file_names entries
                           /\ p = rel ++ [filename]) as Hfiles.
  { intros p (e & -> & Hin)%list_elem_of_fmap.
    apply elem_of_process_files in Hin as (filename & Hin & _ & ->).
    by exists filename. }
  apply NoDup_cons. split; [|apply NoDup_app; split; [|split]].
  - intros [Hin|Hin]%elem_of_app.
    + apply Hfiles in Hin as (filename & _ & Heq).
      apply (f_equal length) in Heq. rewrite length_app in Heq.
      simpl in Heq. lia.
    + apply Hbelow in Hin as (d & c & k & _ & Heq).
      apply (f_equal length) in Heq. rewrite length_app in Heq.
      simpl in Heq. lia.
  - apply process_files_paths. unfold file_names.
    apply NoDup_fmap_fst.
    + intros x y1 y2 [_ H1]%list_elem_of_filter [_ H2]%list_elem_of_filter.
      by eapply NoDup_fst_agree.
    + apply NoDup_filter. by eapply NoDup_fmap_1.
  - intros p (filename & Hf & ->)%Hfiles (d & c & k & Hd & Heq)%Hbelow.
    apply app_inv_head in Heq. injection Heq as -> <-.
    apply file_names_elem_of in Hf as [content Hf].
    apply elem_of_filter_dirnames in Hd as (Hd & Hdir & _).
    by rewrite <- (NoDup_fst_agree entries d _ _ Hnames Hf Hd) in Hdir.
  - assert (NoDup kept.*1 /\ forall e, e ∈ kept -> e ∈ entries)
      as [Hkept Hsub].
    { split.
      - unfold kept, dir_entries. clear -Hnames.
        induction entries as [|[d c] entries IHe]; [constructor|].
        rewrite fmap_cons in Hnames. apply NoDup_cons in Hnames as [Hd Hnames].
        specialize (IHe Hnames). rewrite filter_cons. cbn [snd].
        destruct (decide (is_dir c = true)); [|done]. cbn [filter_dirnames].
        destruct (pruned _ _ _ _ _ _); [done|].
        rewrite fmap_cons. apply NoDup_cons. split; [|done].
        intros ([d' c'] & Heq & Hin)%list_elem_of_fmap. cbn [fst] in Heq.
        subst d'. apply elem_of_filter_dirnames in Hin as [Hin _].
        apply Hd, list_elem_of_fmap. by exists (d, c').
      - intros [d c] Hin. apply elem_of_filter_dirnames in Hin. tauto. }
    clear Hbelow Hfiles. rewrite Forall_forall in IH, Hchildren.
    induction kept as [|[d c] kept IHk]; [constructor|].
    rewrite fmap_cons in Hkept. apply NoDup_cons in Hkept as [Hd Hkept].
    cbn [flat_map]. rewrite fmap_app. apply NoDup_app. split; [|split].
    + apply (IH (d, c)); [apply Hsub; by left|].
      apply (Hchildren (d, c)), Hsub. by left.
    + intros p (e & -> & Hin)%list_elem_of_fmap
               (e' & Heq & Hin')%list_elem_of_fmap.
      apply walk_node_path_prefix in Hin as [k Hk].
      apply list_elem_of_In, in_flat_map in Hin' as ([d' c'] & Hd' & Hin').
      apply list_elem_of_In in Hd', Hin'.
      apply walk_node_path_prefix in Hin' as [k' Hk'].
      rewrite Hk, Hk' in Heq. cbn [fst] in Heq.
      rewrite <- !app_assoc in Heq. apply app_inv_head in Heq.
      injection Heq as -> _. apply Hd, list_elem_of_fmap. by exists (d', c').
    + apply IHk; [done|]. intros e He. apply Hsub. by right.
Qed.

End NoDupFacts.

(** X16.  In a tree where no directory has two entries of the same name,
    a walk lists no directory twice and yields no file twice. *)
Theorem walk_visits_nothing_twice (fs : node) (root_dir : str)
    (show_hidden show_deps respect_gitignore binary_check : bool)
    (trace : list event) :
  unique_names fs ->
  walk_trace fs root_dir show_hidden show_deps respect_gitignore binary_check
    = Some trace ->
  NoDup (event_path <$> trace) /\ NoDup trace.
Proof.
  intros Hunique. unfold walk_trace.
  destruct (load_patterns fs respect_gitignore) as [gp|]; [|done].
  cbn [mbind option_bind]. intros [= <-].
  assert (NoDup (event_path <$> walk_node fs show_hidden show_deps
                   respect_gitignore binary_check gp fs root_dir [])) as Hpaths
    by by apply walk_node_paths.
  split; [done|]. by eapply NoDup_fmap_1.
Qed.

Lemma walk_visits_nothing_twice_witness :
  NoDup (event_path <$> [Scanned []; Yielded (chars "/repo/main.py") [chars "main.py"]])
  /\ NoDup [Scanned []; Yielded (chars "/repo/main.py") [chars "main.py"]].
Proof.
  apply (walk_visits_nothing_twice
           (Dir [(chars "main.py", File (Some []))])
           "/repo" false false false false).
  - apply unique_Dir; [apply NoDup_singleton|].
    constructor; [apply unique_File|constructor].
  - reflexivity.
Defined.

(** ** The preview of a file *)

Lemma preview_loop_spec max_lines f : forall i lines,
  (0 <= i)%Z ->
  preview_loop max_lines i f lines
  = if (i + Z.of_nat (length f) <=? Z.max i max_lines)%Z
    then lines ++ f
    else lines ++ take (Z.to_nat (max_lines - i)) f
         ++ [truncation_line max_lines].
Proof.
  induction f as [|line f IH]; intros i lines Hi.
  - cbn [preview_loop length]. rewrite app_nil_r.
    destruct (Z.leb_spec (i + Z.of_nat 0) (Z.max i max_lines)); [done|lia].
  - cbn [preview_loop]. destruct (Z.geb_spec i max_lines) as [Hge|Hlt].
    + destruct (Z.leb_spec (i + Z.of_nat (length (line :: f)))
                           (Z.max i max_lines)) as [Hle|_].
      { cbn [length] in Hle. lia. }
      by replace (Z.to_nat (max_lines - i)) with 0%nat by lia.
    + rewrite IH by lia. cbn [length].
      replace (Z.max (i + 1) max_lines) with (Z.max i max_lines) by lia.
      replace (i + 1 + Z.of_nat (length f))%Z
        with (i + Z.of_nat (S (length f)))%Z by lia.
      destruct (Z.leb_spec (i + Z.of_nat (S (length f))) (Z.max i max_lines)).
      * by rewrite <- app_assoc.
      * replace (Z.to_nat (max_lines - i))
          with (S (Z.to_nat (max_lines - (i + 1)))) by lia.
        cbn [take]. by rewrite <- !app_assoc.
Qed.

Lemma concat_text_lines_from text : forall cur_rev,
  Re.cr ∉ text ->
  concat (text_lines_from cur_rev text) = rev cur_rev ++ text.
Proof.
  induction text as [|c text IH]; intros cur_rev Hcr.
  - cbn [text_lines_from]. destruct cur_rev; [done|].
    cbn [concat]. by rewrite !app_nil_r.
  - cbn [text_lines_from].
    rewrite (ascii_eqb_false c Re.cr) by (intros ->; apply Hcr; by left).
    assert (Re.cr ∉ text) as Hcr' by (intros ?; apply Hcr; by right).
    destruct (decide (c = Re.nl)) as [->|Hnl].
    + rewrite ascii_eqb_refl. cbn [concat]. rewrite (IH [] Hcr').
      cbn [rev]. by rewrite <- app_assoc.
    + rewrite (ascii_eqb_false c Re.nl Hnl), (IH _ Hcr'). cbn [rev].
      by rewrite <- app_assoc.
Qed.

(** X17.  The preview of a file that is read as text is its first
    [max_lines] lines, followed by the truncation line if the file has
    more lines than that; a [max_lines] below zero counts as zero, and an
    empty file has an empty preview. *)
Theorem read_file_preview_lines (text : str) (max_lines : Z) :
  read_file_preview (Decoded text) max_lines
  = if (Z.of_nat (length (text_lines text)) <=? Z.max 0 max_lines)%Z
    then concat (text_lines text)
    else concat (take (Z.to_nat max_lines) (text_lines text))
         ++ truncation_line max_lines.
Proof.
  unfold read_file_preview. rewrite preview_loop_spec by done.
  rewrite Z.add_0_l, Z.sub_0_r, !app_nil_l.
  destruct (_ <=? _)%Z; [done|].
  by rewrite concat_app, concat_cons, concat_nil, app_nil_r.
Qed.

(** X18.  A file without carriage return that has no more than
    [max_lines] lines is its own preview. *)
Theorem read_file_preview_short_file (text : str) (max_lines : Z) :
  Re.cr ∉ text ->
  (Z.of_nat (length (text_lines text)) <= max_lines)%Z ->
  read_file_preview (Decoded text) max_lines = text.
Proof.
  intros Hcr Hshort. unfold read_file_preview.
  rewrite preview_loop_spec by done. rewrite Z.add_0_l, app_nil_l.
  destruct (Z.leb_spec (Z.of_nat (length (text_lines text)))
                       (Z.max 0 max_lines)); [|lia].
  by apply (concat_text_lines_from text []).
Qed.

Lemma read_file_preview_short_file_witness :
  read_file_preview (Decoded (chars "import os" ++ [Re.nl] ++ chars "print(1)")) 200
  = chars "import os" ++ [Re.nl] ++ chars "print(1)".
Proof.
  apply (read_file_preview_short_file
           (chars "import os" ++ [Re.nl] ++ chars "print(1)") 200).
  - by compute_done.
  - vm_compute. discriminate.
Defined.

Import Tree.

(** ** The tree of the files *)

Abbreviation is_leaf d q := (tree_at d q = Some FileLeaf).
Abbreviation is_subtree d q :=
  (exists defaulting sub, tree_at d q = Some (SubTree defaulting sub)).

Lemma dict_get_set key key' value d :
  dict_get key' (dict_set key value d)
  = if bool_decide (key = key') then Some value else dict_get key' d.
Proof.
  induction d as [|[k v] d IH]; cbn [dict_set dict_get].
  - by destruct (bool_decide (key = key')).
  - destruct (decide (k = key)) as [->|Hk].
    + rewrite (bool_decide_eq_true_2 _ eq_refl). cbn [dict_get].
      by destruct (bool_decide (key = key')).
    + rewrite (bool_decide_eq_false_2 _ Hk). cbn [dict_get]. rewrite IH.
      destruct (decide (k = key')) as [->|Hk'].
      * rewrite (bool_decide_eq_true_2 _ eq_refl).
        by rewrite bool_decide_eq_false_2 by done.
      * by rewrite (bool_decide_eq_false_2 _ Hk').
Qed.

Lemma tree_at_cons d part rest :
  rest <> [] ->
  tree_at d (part :: rest)
  = match dict_get part d with
    | Some (SubTree _ sub) => tree_at sub rest
    | _ => None
    end.
Proof. by destruct rest. Qed.

Lemma tree_at_nil q : q <> [] -> tree_at [] q = None.
Proof. destruct q as [|k [|k' q]]; done. Qed.

Lemma is_leaf_cons_inv d part rest :
  is_leaf d (part :: rest) ->
  (rest = [] /\ dict_get part d = Some FileLeaf)
  \/ (rest <> [] /\ exists b sub, dict_get part d = Some (SubTree b sub)
                                 /\ is_leaf sub rest).
Proof.
  destruct rest as [|k rest]; [by left|]. right. split; [done|].
  rewrite tree_at_cons in H by done.
  destruct (dict_get part d) as [[|b sub]|]; try done. by exists b, sub.
Qed.

Lemma insert_parts_cons part rest d :
  rest <> [] ->
  insert_parts (part :: rest) d
  = match dict_get part (if dict_mem part d then d
                         else dict_set part (SubTree true []) d) with
    | Some (SubTree defaulting sub) =>
        sub' ← insert_parts rest sub;
        Some (dict_set part (SubTree defaulting sub')
                (if dict_mem part d then d
                 else dict_set part (SubTree true []) d))
    | _ => None
    end.
Proof. by destruct rest. Qed.

Lemma insert_parts_tree_at parts : forall d,
  parts <> [] ->
  (forall q, q <> [] -> q `prefix_of` parts -> q <> parts -> ~ is_leaf d q) ->
  exists d',
    insert_parts parts d = Some d'
    /\ is_leaf d' parts
    /\ (forall q, q <> [] -> q `prefix_of` parts -> q <> parts ->
          is_subtree d' q)
    /\ (forall q, parts `prefix_of` q -> q <> parts -> tree_at d' q = None)
    /\ (forall q, q <> [] -> ~ q `prefix_of` parts -> ~ parts `prefix_of` q ->
          tree_at d' q = tree_at d q).
Proof.
  induction parts as [|part rest IH]; intros d Hne Hfree; [done|].
  destruct rest as [|part' rest].
  - (* the file *)
    eexists. split; [reflexivity|]. split; [|split; [|split]].
    + cbn [tree_at]. by rewrite dict_get_set, (bool_decide_eq_true_2 _ eq_refl).
    + intros [|k q] Hq Hpre Hneq; [done|].
      pose proof (prefix_cons_inv_1 _ _ _ _ Hpre) as ->.
      apply prefix_cons_inv_2, prefix_nil_inv in Hpre. by subst.
    + intros [|k [|k' q]] Hpre Hneq.
      * by apply prefix_nil_inv in Hpre.
      * apply prefix_cons_inv_1 in Hpre. by subst.
      * pose proof (prefix_cons_inv_1 _ _ _ _ Hpre) as <-.
        rewrite tree_at_cons by done.
        by rewrite dict_get_set, (bool_decide_eq_true_2 _ eq_refl).
    + intros [|k q] Hq _ Hpre; [done|].
      assert (part <> k) as Hk.
      { intros ->. apply Hpre. apply prefix_cons, prefix_nil. }
      destruct q as [|k' q].
      * cbn [tree_at]. by rewrite dict_get_set, (bool_decide_eq_false_2 _ Hk).
      * rewrite !tree_at_cons by done.
        by rewrite dict_get_set, (bool_decide_eq_false_2 _ Hk).
  - (* a directory on the way *)
    assert (part' :: rest <> []) as Hne' by done.
    remember (part' :: rest) as parts' eqn:Hparts'. clear Hparts'.
    rewrite insert_parts_cons by done.
    set (current := if dict_mem part d then d
                    else dict_set part (SubTree true []) d).
    assert (exists b sub,
              dict_get part current = Some (SubTree b sub)
              /\ (forall q, q <> [] -> tree_at sub q = tree_at d (part :: q))
              /\ (forall k, k <> part -> dict_get k current = dict_get k d))
      as (b & sub & Hsub & Hbelow & Hother).
    { assert (~ is_leaf d [part]) as Hpart.
      { apply Hfree; [done|by exists parts'|by intros [= <-]]. }
      unfold current, dict_mem. cbn [tree_at] in Hpart.
      destruct (dict_get part d) as [[|b sub]|] eqn:Hget; [done| |].
      - exists b, sub. split; [done|]. split; [|done].
        intros q Hq. by rewrite tree_at_cons, Hget.
      - exists true, [].
        rewrite dict_get_set, (bool_decide_eq_true_2 _ eq_refl).
        split; [done|]. split.
        + intros q Hq. by rewrite tree_at_cons, Hget, tree_at_nil.
        + intros k Hk. rewrite dict_get_set.
          by rewrite bool_decide_eq_false_2. }
    rewrite Hsub.
    destruct (IH sub Hne') as (sub' & Hins & Hfile & Hdirs & Hgone & Hsame).
    { intros q Hq Hpre Hneq. rewrite Hbelow by done.
      apply Hfree; [done|by apply prefix_cons|by intros [= ?]]. }
    rewrite Hins. cbn [mbind option_bind]. eexists. split; [reflexivity|].
    split; [|split; [|split]].
    + rewrite tree_at_cons by done.
      by rewrite dict_get_set, (bool_decide_eq_true_2 _ eq_refl).
    + intros [|k q] Hq Hpre Hneq; [done|].
      pose proof (prefix_cons_inv_1 _ _ _ _ Hpre) as ->.
      apply prefix_cons_inv_2 in Hpre. destruct q as [|k' q].
      * cbn [tree_at].
        rewrite dict_get_set, (bool_decide_eq_true_2 _ eq_refl).
        by eexists _, _.
      * rewrite tree_at_cons by done.
        rewrite dict_get_set, (bool_decide_eq_true_2 _ eq_refl).
        apply Hdirs; [done..|]. by intros <-.
    + intros [|k q] Hpre Hneq; [by apply prefix_nil_inv in Hpre|].
      pose proof (prefix_cons_inv_1 _ _ _ _ Hpre) as <-.
      apply prefix_cons_inv_2 in Hpre.
      assert (q <> []) as Hq by (intros ->; by apply prefix_nil_inv in Hpre).
      rewrite tree_at_cons by done.
      rewrite dict_get_set, (bool_decide_eq_true_2 _ eq_refl).
      apply Hgone; [done|]. by intros ->.
    + intros [|k q] Hq Hpre1 Hpre2; [done|].
      destruct (decide (k = part)) as [->|Hk].
      * assert (q <> []) as Hq'.
        { intros ->. apply Hpre1, prefix_cons, prefix_nil. }
        rewrite tree_at_cons by done.
        rewrite dict_get_set, (bool_decide_eq_true_2 _ eq_refl).
        rewrite Hsame, Hbelow; [done..| |].
        -- intros ?. by apply Hpre1, prefix_cons.
        -- intros ?. by apply Hpre2, prefix_cons.
      * destruct q as [|k' q].
        -- cbn [tree_at]. rewrite dict_get_set.
           rewrite bool_decide_eq_false_2 by done. by apply Hother.
        -- rewrite !tree_at_cons by done. rewrite dict_get_set.
           rewrite bool_decide_eq_false_2 by done. by rewrite Hother.
Qed.

Lemma insert_parts_leaves parts d :
  parts <> [] ->
  (forall q, q <> [] -> q `prefix_of` parts -> q <> parts -> ~ is_leaf d q) ->
  exists d',
    insert_parts parts d = Some d'
    /\ (forall q, q <> [] ->
          (is_leaf d' q
           <-> q = parts \/ (is_leaf d q /\ ~ parts `prefix_of` q)))
    /\ (forall q, q <> [] ->
          (is_subtree d' q
           <-> (q `prefix_of` parts /\ q <> parts)
               \/ (is_subtree d q /\ ~ parts `prefix_of` q))).
Proof.
  intros Hne Hfree.
  destruct (insert_parts_tree_at parts d Hne Hfree)
    as (d' & Hins & Hfile & Hdirs & Hgone & Hsame).
  exists d'. split; [done|].
  assert (forall q, q <> [] ->
            q = parts
            \/ (q `prefix_of` parts /\ q <> parts)
            \/ (parts `prefix_of` q /\ q <> parts)
            \/ (~ q `prefix_of` parts /\ ~ parts `prefix_of` q)) as Hcases.
  { intros q _. destruct (decide (q = parts)); [by left|right].
    destruct (decide (q `prefix_of` parts)); [by left|right].
    destruct (decide (parts `prefix_of` q)); [by left|by right]. }
  split; intros q Hq;
    destruct (Hcases q Hq) as [->|[[Hpre Hneq]|[[Hpre Hneq]|[Hpre1 Hpre2]]]].
  - split; [by left|done].
  - destruct (Hdirs q Hq Hpre Hneq) as (b & sub & Hsub). rewrite Hsub.
    split; [done|].
    intros [?|[Hleaf _]]; [done|]. by destruct (Hfree q).
  - rewrite Hgone by done. split; [done|]. by intros [?|[_ ?]].
  - rewrite Hsame by done. split; [by right|]. intros [->|[? _]]; [|done].
    by destruct Hpre1.
  - rewrite Hfile. split; [by intros (? & ? & ?)|].
    intros [[_ ?]|[_ ?]]; done.
  - split; [by left|]. intros _. by apply Hdirs.
  - rewrite Hgone by done. split; [by intros (? & ? & ?)|].
    intros [[Hpre' _]|[_ ?]]; [|done]. destruct Hneq.
    by apply (anti_symm prefix).
  - rewrite Hsame by done. split; [by right|]. by intros [[? _]|[? _]].
Qed.

Lemma split_from_ne cur_rev s : split_from cur_rev s <> [].
Proof.
  revert cur_rev. induction s as [|c s IH]; intros cur_rev; [done|].
  cbn [split_from]. destruct (ascii_eqb c "/"); [done|apply IH].
Qed.

Abbreviation paths out := ((fun o : str * str => split_sep o.2) <$> out).

Lemma build_files_leaves show_hidden out : forall d,
  Forall (fun o : str * str =>
            bool_decide (basename o.2 = chars ".gitignore") && negb show_hidden
            = false) out ->
  (forall p q, p ∈ paths out -> q <> [] -> q `prefix_of` p -> q <> p ->
     (q ∉ paths out) /\ ~ is_leaf d q) ->
  exists d',
    build_files show_hidden out d = Some d'
    /\ (forall q, q <> [] ->
          (is_leaf d' q
           <-> q ∈ paths out
               \/ (is_leaf d q /\ forall p, p ∈ paths out -> ~ p `prefix_of` q)))
    /\ (forall q, q <> [] ->
          (is_subtree d' q
           <-> (exists p, p ∈ paths out /\ q `prefix_of` p /\ q <> p)
               \/ (is_subtree d q
                   /\ forall p, p ∈ paths out -> ~ p `prefix_of` q))).
Proof.
  induction out as [|[a r] out IH]; intros d Htest Hfree.
  - exists d. split; [done|]. split; intros q Hq.
    + split; [|by intros [?%elem_of_nil|[? _]]].
      intros Hleaf. right. split; [done|]. by intros p ?%elem_of_nil.
    + split; [|by intros [(? & ?%elem_of_nil & _)|[? _]]].
      intros Hsub. right. split; [done|]. by intros p ?%elem_of_nil.
  - apply Forall_cons in Htest as [Hr Htest]. cbn [snd] in Hr.
    rewrite fmap_cons in Hfree. cbn [snd] in Hfree.
    set (p := split_sep r) in *.
    assert (p <> []) as Hp by apply split_from_ne.
    assert (Forall (fun p => p <> []) (paths out)) as Hne.
    { apply Forall_forall. intros ? ([? r'] & -> & _)%list_elem_of_fmap.
      apply split_from_ne. }
    destruct (insert_parts_leaves p d Hp) as (d1 & Hins & Hleaves1 & Hdirs1).
    { intros q Hq Hpre Hneq. by apply (Hfree p q); [left|..]. }
    destruct (IH d1 Htest) as (d' & Hall & Hleaves & Hdirs).
    { intros p' q Hp' Hq Hpre Hneq.
      destruct (Hfree p' q) as [Hnotin Hnotleaf]; [by right|done..|].
      split; [by intros ?; apply Hnotin; right|].
      rewrite Hleaves1 by done. intros [->|[? _]]; [|done].
      apply Hnotin. by left. }
    exists d'. cbn [build_files]. rewrite Hr. fold p. rewrite Hins.
    split; [done|].
    assert (forall p', p' ∈ paths out -> p' `prefix_of` p -> p' = p) as Hmin.
    { intros p' Hp' Hpre. destruct (decide (p' = p)) as [|Hneq]; [done|].
      destruct (Hfree p p') as [Hnot _]; [by left| |done..|].
      - by eapply Forall_forall in Hne.
      - destruct Hnot. by right. }
    split; intros q Hq; rewrite fmap_cons; cbn [snd]; fold p.
    + rewrite Hleaves, Hleaves1 by done. split.
      * intros [Hin|[[->|[Hleaf Hpre]] Hrest]].
        -- left. by right.
        -- left. by left.
        -- right. split; [done|].
           by intros p' [->|Hin]%elem_of_cons; [|apply Hrest].
      * intros [[->|Hin]%elem_of_cons|[Hleaf Hrest]].
        -- destruct (decide (p ∈ paths out)) as [Hin|Hnotin]; [by left|]. right.
           split; [by left|]. intros p' Hp' Hpre.
           apply Hmin in Hpre as ->; done.
        -- by left.
        -- right. split.
           ++ right. split; [done|]. apply Hrest. by left.
           ++ intros p' Hp'. apply Hrest. by right.
    + rewrite Hdirs, Hdirs1 by done. split.
      * intros [(p' & Hin & Hpre & Hneq)|[[[Hpre Hneq]|[Hsub Hpre]] Hrest]].
        -- left. exists p'. split; [by right|done].
        -- left. exists p. split; [by left|done].
        -- right. split; [done|].
           by intros p' [->|Hin]%elem_of_cons; [|apply Hrest].
      * intros [(p' & [->|Hin]%elem_of_cons & Hpre & Hneq)|[Hsub Hrest]].
        -- right. split; [by left|]. intros p' Hp' Hpre'.
           assert (p' = p) as -> by (apply Hmin; [done|by etrans]).
           destruct Hneq. by apply (anti_symm prefix).
        -- left. by exists p'.
        -- right. split.
           ++ right. split; [done|]. apply Hrest. by left.
           ++ intros p' Hp'. apply Hrest. by right.
Qed.

Lemma split_from_name name : forall cur_rev s,
  "/"%char ∉ name ->
  split_from cur_rev (name ++ s) = split_from (rev name ++ cur_rev) s.
Proof.
  induction name as [|c name IH]; intros cur_rev s Hname; [done|].
  apply not_elem_of_cons in Hname as [Hc Hname].
  cbn [app split_from]. rewrite ascii_eqb_false by done.
  rewrite IH by done. cbn [rev]. by rewrite <- app_assoc.
Qed.

Lemma split_join names :
  names <> [] -> Forall (fun name => "/"%char ∉ name) names ->
  split_sep (join_sep names) = names.
Proof.
  unfold split_sep. induction names as [|name names IH]; intros Hne Hnames; [done|].
  apply Forall_cons in Hnames as [Hname Hnames].
  destruct names as [|name' names].
  - cbn [join_sep]. rewrite <- (app_nil_r name) at 1.
    rewrite split_from_name by done. cbn [split_from].
    by rewrite app_nil_r, rev_involutive.
  - change (join_sep (name :: name' :: names))
      with (name ++ "/"%char :: join_sep (name' :: names)).
    rewrite split_from_name by done. cbn [split_from].
    rewrite ascii_eqb_refl, app_nil_r, rev_involutive. f_equal. by apply IH.
Qed.

Lemma basename_join ds filename :
  Forall (fun name => "/"%char ∉ name) (ds ++ [filename]) ->
  basename (join_sep (ds ++ [filename])) = filename.
Proof.
  intros Hnames. unfold basename. rewrite split_join; [|by destruct ds|done].
  apply last_last.
Qed.

Lemma at_path_app_inv p : forall n q n',
  at_path n (p ++ q) n' -> exists c, at_path n p c /\ at_path c q n'.
Proof.
  induction p as [|d p IH]; intros n q n' Hat.
  - exists n. split; [constructor|done].
  - inversion Hat as [|entries d' c ds n'' Hin Hat']; subst.
    apply IH in Hat' as (c' & Hp & Hq). exists c'. split; [|done].
    by econstructor.
Qed.

Lemma at_path_functional p : forall n c1 c2,
  unique_names n -> at_path n p c1 -> at_path n p c2 -> c1 = c2.
Proof.
  induction p as [|d p IH]; intros n c1 c2 Hunique H1 H2.
  - inversion H1; inversion H2; by subst.
  - inversion H1 as [|entries d1 e1 ds1 n1 Hin1 Hat1]; subst.
    inversion H2 as [|entries2 d2 e2 ds2 n2 Hin2 Hat2]; subst.
    inversion Hunique as [| |entries' Hnames Hchildren]; subst.
    assert (e1 = e2) as <- by by eapply NoDup_fst_agree.
    eapply IH; [|done..].
    by eapply Forall_forall in Hchildren; [|exact Hin1].
Qed.

Lemma at_path_names p : forall n n',
  proper_names n -> at_path n p n' -> Forall entry_name p.
Proof.
  induction p as [|d p IH]; intros n n' Hproper Hat; [constructor|].
  inversion Hat as [|entries d' c ds n'' Hin Hat']; subst.
  inversion Hproper as [| |entries' Hnames Hchildren]; subst.
  constructor.
  - eapply Forall_forall in Hnames; [done|].
    apply list_elem_of_fmap. by exists (d, c).
  - eapply IH; [|done].
    by eapply Forall_forall in Hchildren; [|exact Hin].
Qed.

Lemma at_path_app n p c q n' :
  at_path n p c -> at_path c q n' -> at_path n (p ++ q) n'.
Proof. induction 1; [done|]. intros Hq. econstructor; eauto. Qed.

Lemma skipped_not_hidden fs sh rg bc gp filename rel :
  skipped fs sh rg bc gp filename rel = false ->
  startswith filename "." && negb sh = false.
Proof. unfold skipped. by destruct (startswith filename "." && negb sh). Qed.

Lemma walk_node_yielded fs sh sd rg bc gp n dirpath file_path rel :
  Yielded file_path rel ∈ walk_node fs sh sd rg bc gp n dirpath [] ->
  exists ds filename c,
    rel = ds ++ [filename]
    /\ at_path n rel (File c)
    /\ startswith filename "." && negb sh = false.
Proof.
  intros (ds & n' & Hreach & He)%walk_node_visits_1.
  destruct He as [?|(entries & filename & -> & Hf & Hskip & He)]; [done|].
  injection He as _ ->. cbn [app] in *.
  apply file_names_elem_of in Hf as [c Hc].
  exists ds, filename, c. split; [done|]. split.
  - eapply at_path_app; [by eapply reach_at_path|].
    econstructor; [done|constructor].
  - by eapply skipped_not_hidden.
Qed.

Lemma entry_name_no_slash names :
  Forall entry_name names -> Forall (fun name => "/"%char ∉ name) names.
Proof. intros H. eapply Forall_impl; [exact H|]. by intros name [[_ ?] _]. Qed.

Lemma yielded_not_gitignore fs sh sd rg bc gp dirpath file_path rel :
  proper_names fs ->
  Yielded file_path rel ∈ walk_node fs sh sd rg bc gp fs dirpath [] ->
  split_sep (join_sep rel) = rel
  /\ bool_decide (basename (join_sep rel) = chars ".gitignore") && negb sh
     = false.
Proof.
  intros Hproper (ds & filename & c & -> & Hat & Hdot)%walk_node_yielded.
  apply at_path_names, entry_name_no_slash in Hat; [|done].
  split; [apply split_join; [by destruct ds|done]|].
  rewrite basename_join by done.
  destruct sh; [apply andb_false_r|]. rewrite andb_true_r in Hdot |- *.
  apply bool_decide_eq_false_2. by intros ->.
Qed.

(** X19.  The test of [build_tree_structure] for the [.gitignore] file
    never applies: the walk yields no file whose base name is [.gitignore]
    unless hidden files are shown, and then the test is off. *)
Theorem gitignore_entry_test_never_applies (fs : node) (root_dir : str)
    (show_hidden show_deps respect_gitignore binary_check : bool)
    (out : list (str * str)) (abs_path rel_path : str) :
  proper_names fs ->
  walk_filtered_files fs root_dir show_hidden show_deps respect_gitignore
    binary_check = Some out ->
  (abs_path, rel_path) ∈ out ->
  bool_decide (basename rel_path = chars ".gitignore") && negb show_hidden
  = false.
Proof.
  intros Hproper. unfold walk_filtered_files, walk_trace.
  destruct (load_patterns fs respect_gitignore) as [gp|]; [|done].
  cbn [mbind option_bind fmap option_fmap option_map]. intros [= <-].
  intros (rel & Hin & ->)%elem_of_yields.
  by eapply yielded_not_gitignore.
Qed.

Lemma gitignore_entry_test_never_applies_witness :
  bool_decide (basename (chars ".gitignore") = chars ".gitignore") && negb true
  = false.
Proof.
  apply (gitignore_entry_test_never_applies
           (Dir [(chars ".gitignore", File (Some []))])
           "/repo" true false false false
           [(chars "/repo/.gitignore", chars ".gitignore")]
           "/repo/.gitignore" ".gitignore").
  - apply proper_Dir.
    + constructor; [|constructor]. unfold entry_name, name_ok. compute_done.
    + constructor; [apply proper_File|constructor].
  - reflexivity.
  - apply list_elem_of_here.
Defined.

(** The tree that the loop builds from the files of a walk. *)
Lemma build_files_shape fs root_dir sh sd rg gp :
  unique_names fs -> proper_names fs ->
  exists tree,
    build_files sh (yields (walk_node fs sh sd rg false gp fs root_dir [])) []
    = Some tree
    /\ forall p, p <> [] ->
         (is_leaf tree p
          <-> exists file_path,
                Yielded file_path p ∈ walk_node fs sh sd rg false gp fs root_dir [])
         /\ (is_subtree tree p
             <-> exists file_path rel,
                   Yielded file_path rel
                   ∈ walk_node fs sh sd rg false gp fs root_dir []
                   /\ p `prefix_of` rel /\ p <> rel).
Proof.
  intros Hunique Hproper.
  set (trace := walk_node fs sh sd rg false gp fs root_dir []).
  assert (forall p, p ∈ paths (yields trace)
                    <-> exists file_path, Yielded file_path p ∈ trace)
    as Hpaths.
  { intros p. rewrite list_elem_of_fmap. split.
    - intros ([a r] & -> & (rel & Hin & ->)%elem_of_yields). cbn [snd].
      exists a. by rewrite (proj1 (yielded_not_gitignore _ _ _ _ _ _ _ _ _
                                     Hproper Hin)).
    - intros [a Hin]. exists (a, join_sep p). cbn [snd]. split.
      + by rewrite (proj1 (yielded_not_gitignore _ _ _ _ _ _ _ _ _
                             Hproper Hin)).
      + apply elem_of_yields. by exists p. }
  destruct (build_files_leaves sh (yields trace) [])
    as (tree & Hbuild & Hleaves & Hdirs).
  { apply Forall_forall. intros [a r] (rel & Hin & ->)%elem_of_yields.
    cbn [snd]. by eapply yielded_not_gitignore. }
  { intros p q [a Hp]%Hpaths Hq [k ->] Hneq.
    split; [|by rewrite tree_at_nil].
    intros [a' Hq']%Hpaths.
    apply walk_node_yielded in Hp as (_ & _ & c & _ & Hat & _).
    apply walk_node_yielded in Hq' as (_ & _ & c' & _ & Hat' & _).
    apply at_path_app_inv in Hat as (c0 & Hat0 & Hk).
    assert (c0 = File c') as -> by by eapply at_path_functional.
    inversion Hk; subst. by rewrite app_nil_r in Hneq. }
  exists tree. split; [done|]. intros p Hp. split.
  - rewrite Hleaves by done. rewrite Hpaths. split; [|by left].
    intros [?|[Hleaf _]]; [done|]. by rewrite tree_at_nil in Hleaf.
  - rewrite Hdirs by done. split.
    + intros [(rel & [a Hin]%Hpaths & Hpre & Hneq)|[(b & sub & Hsub) _]].
      * by exists a, rel.
      * by rewrite tree_at_nil in Hsub.
    + intros (a & rel & Hin & Hpre & Hneq). left. exists rel.
      split; [|done]. apply Hpaths. by exists a.
Qed.



(** ** The tree of the directories *)

Lemma set_dir_tree_at parts : forall dirname defaulting d,
  Forall (fun part => part <> chars ".") parts ->
  is_subtree d parts ->
  exists d',
    set_dir parts dirname defaulting d = Some d'
    /\ tree_at d' (parts ++ [dirname]) = Some (SubTree true [])
    /\ (forall q, (parts ++ [dirname]) `prefix_of` q ->
          q <> parts ++ [dirname] -> tree_at d' q = None)
    /\ (forall q, q <> [] -> q `prefix_of` parts -> is_subtree d' q)
    /\ (forall q, q <> [] -> ~ q `prefix_of` (parts ++ [dirname]) ->
          ~ (parts ++ [dirname]) `prefix_of` q ->
          tree_at d' q = tree_at d q).
Proof.
  induction parts as [|part rest IH]; intros dirname defaulting d Hparts Hdir.
  - eexists. split; [reflexivity|]. cbn [app]. split; [|split; [|split]].
    + cbn [tree_at]. by rewrite dict_get_set, (bool_decide_eq_true_2 _ eq_refl).
    + intros [|k [|k' q]] Hpre Hneq.
      * by apply prefix_nil_inv in Hpre.
      * apply prefix_cons_inv_1 in Hpre. by subst.
      * pose proof (prefix_cons_inv_1 _ _ _ _ Hpre) as <-.
        rewrite tree_at_cons by done.
        rewrite dict_get_set, (bool_decide_eq_true_2 _ eq_refl).
        by apply tree_at_nil.
    + intros q Hq Hpre. by apply prefix_nil_inv in Hpre.
    + intros [|k q] Hq _ Hpre; [done|].
      assert (dirname <> k) as Hk.
      { intros ->. apply Hpre. apply prefix_cons, prefix_nil. }
      destruct q as [|k' q].
      * cbn [tree_at]. by rewrite dict_get_set, (bool_decide_eq_false_2 _ Hk).
      * rewrite !tree_at_cons by done.
        by rewrite dict_get_set, (bool_decide_eq_false_2 _ Hk).
  - apply Forall_cons in Hparts as [Hpart Hrest].
    cbn [set_dir]. rewrite (bool_decide_eq_false_2 _ Hpart).
    assert (exists b sub,
              dict_get part d = Some (SubTree b sub)
              /\ is_subtree sub rest) as (b & sub & Hget & Hsub).
    { destruct Hdir as (b & sub & Hat). destruct rest as [|part' rest].
      - exists b, sub. split; [done|]. by eexists _, _.
      - rewrite tree_at_cons in Hat by done.
        destruct (dict_get part d) as [[|b' sub']|]; try done.
        exists b', sub'. split; [done|]. by exists b, sub. }
    rewrite Hget.
    destruct (IH dirname b sub Hrest Hsub)
      as (sub' & Hset & Hnew & Hgone & Hdirs & Hsame).
    rewrite Hset. cbn [mbind option_bind]. eexists. split; [reflexivity|].
    assert (rest ++ [dirname] <> []) as Hne by by destruct rest.
    split; [|split; [|split]].
    + rewrite <- app_comm_cons, tree_at_cons by done.
      by rewrite dict_get_set, (bool_decide_eq_true_2 _ eq_refl).
    + rewrite <- app_comm_cons.
      intros [|k q] Hpre Hneq; [by apply prefix_nil_inv in Hpre|].
      pose proof (prefix_cons_inv_1 _ _ _ _ Hpre) as <-.
      apply prefix_cons_inv_2 in Hpre.
      assert (q <> []) as Hq by (intros ->; by apply prefix_nil_inv in Hpre).
      rewrite tree_at_cons by done.
      rewrite dict_get_set, (bool_decide_eq_true_2 _ eq_refl).
      apply Hgone; [done|]. by intros ->.
    + intros [|k q] Hq Hpre; [done|].
      pose proof (prefix_cons_inv_1 _ _ _ _ Hpre) as ->.
      apply prefix_cons_inv_2 in Hpre. destruct q as [|k' q].
      * cbn [tree_at].
        rewrite dict_get_set, (bool_decide_eq_true_2 _ eq_refl).
        by eexists _, _.
      * rewrite tree_at_cons by done.
        rewrite dict_get_set, (bool_decide_eq_true_2 _ eq_refl).
        by apply Hdirs.
    + rewrite <- app_comm_cons. intros [|k q] Hq Hpre1 Hpre2; [done|].
      destruct (decide (k = part)) as [->|Hk].
      * assert (q <> []) as Hq'.
        { intros ->. apply Hpre1, prefix_cons, prefix_nil. }
        rewrite !tree_at_cons by done.
        rewrite dict_get_set, (bool_decide_eq_true_2 _ eq_refl), Hget.
        apply Hsame; [done| |].
        -- intros ?. by apply Hpre1, prefix_cons.
        -- intros ?. by apply Hpre2, prefix_cons.
      * destruct q as [|k' q].
        -- cbn [tree_at]. rewrite dict_get_set.
           by rewrite bool_decide_eq_false_2 by done.
        -- rewrite !tree_at_cons by done. rewrite dict_get_set.
           by rewrite bool_decide_eq_false_2 by done.
Qed.

Lemma entry_name_not_dot names :
  Forall entry_name names -> Forall (fun name => name <> chars ".") names.
Proof. intros H. eapply Forall_impl; [exact H|]. by intros name (_ & ? & _). Qed.

Lemma add_dir_set_dir rel dirname d :
  Forall entry_name rel -> add_dir rel dirname d = set_dir rel dirname true d.
Proof.
  intros Hrel. unfold add_dir. destruct rel as [|name rel]; [done|].
  cbn [relpath].
  assert (split_sep (join_sep (name :: rel)) = name :: rel) as Hsplit.
  { apply split_join; [done|by apply entry_name_no_slash]. }
  rewrite Hsplit. rewrite bool_decide_eq_false_2; [done|].
  intros Hdot. rewrite Hdot in Hsplit. injection Hsplit as <- _.
  apply Forall_cons in Hrel as [(_ & ? & _) _]. done.
Qed.

Lemma tree_at_prefix q : forall d k,
  q <> [] -> is_subtree d (q ++ k) -> is_subtree d q.
Proof.
  induction q as [|a q IH]; intros d k Hq Hsub; [done|].
  destruct k as [|b k]; [by rewrite app_nil_r in Hsub|].
  destruct Hsub as (f & sub & Hat).
  rewrite <- app_comm_cons, tree_at_cons in Hat by by destruct q.
  destruct (dict_get a d) as [[|b' sub']|] eqn:Hget; try done.
  destruct q as [|a' q].
  - cbn [tree_at]. rewrite Hget. by eexists _, _.
  - rewrite tree_at_cons, Hget by done. eapply IH; [done|]. by exists f, sub.
Qed.

Lemma add_dir_dirs rel dirname d :
  Forall entry_name rel ->
  is_subtree d rel ->
  (forall q, ~ is_leaf d q) ->
  exists d',
    add_dir rel dirname d = Some d'
    /\ (forall q, ~ is_leaf d' q)
    /\ (forall q, q <> [] ->
          (is_subtree d' q
           <-> q = rel ++ [dirname]
               \/ (is_subtree d q /\ ~ (rel ++ [dirname]) `prefix_of` q))).
Proof.
  intros Hrel Hdir Hnofile. rewrite add_dir_set_dir by done.
  destruct (set_dir_tree_at rel dirname true d)
    as (d' & Hset & Hnew & Hgone & Hdirs & Hsame);
    [by apply entry_name_not_dot|done|].
  exists d'. split; [done|].
  assert (forall q, q <> [] ->
            q = rel ++ [dirname]
            \/ ((rel ++ [dirname]) `prefix_of` q /\ q <> rel ++ [dirname])
            \/ (q `prefix_of` rel /\ q <> rel ++ [dirname])
            \/ (~ q `prefix_of` (rel ++ [dirname])
                /\ ~ (rel ++ [dirname]) `prefix_of` q)) as Hcases.
  { intros q _. destruct (decide (q = rel ++ [dirname])); [by left|right].
    destruct (decide ((rel ++ [dirname]) `prefix_of` q)); [by left|right].
    destruct (decide (q `prefix_of` (rel ++ [dirname]))) as [Hpre|];
      [left|by right].
    by apply prefix_snoc_inv in Hpre as [?|?]. }
  assert (forall q, q `prefix_of` rel -> ~ (rel ++ [dirname]) `prefix_of` q)
    as Hshort.
  { intros q Hq Hpre. apply prefix_length in Hq, Hpre.
    rewrite length_app in Hpre. cbn [length] in Hpre. lia. }
  split.
  - intros [|k q]; [done|].
    destruct (Hcases (k :: q)) as [->|[[Hpre Hneq]|[[Hpre Hneq]|[Hpre1 Hpre2]]]];
      [done|by rewrite Hnew|by rewrite Hgone| |].
    + destruct (Hdirs (k :: q)) as (b & sub & ->); done.
    + rewrite Hsame by done. apply Hnofile.
  - intros q Hq.
    destruct (Hcases q Hq) as [->|[[Hpre Hneq]|[[Hpre Hneq]|[Hpre1 Hpre2]]]].
    + split; [by left|]. intros _. by eexists _, _.
    + rewrite Hgone by done. split; [by intros (? & ? & ?)|].
      by intros [?|[_ ?]].
    + split; [|intros _; by apply Hdirs]. intros _. right.
      split; [|by apply Hshort].
      destruct Hpre as [k ->]. by eapply tree_at_prefix.
    + rewrite Hsame by done. split; [by right|]. intros [->|[? _]]; [|done].
      by destruct Hpre1.
Qed.

Lemma tree_at_neither d q :
  ~ is_leaf d q -> ~ is_subtree d q -> tree_at d q = None.
Proof.
  destruct (tree_at d q) as [[|b sub]|]; [done| |done].
  intros _ Hsub. destruct Hsub. by eexists _, _.
Qed.

Lemma snoc_not_prefix {A} (rel : list A) (x : A) :
  ~ (rel ++ [x]) `prefix_of` rel.
Proof.
  intros Hpre%prefix_length. rewrite length_app in Hpre.
  cbn [length] in Hpre. lia.
Qed.

Lemma snoc_prefix_snoc {A} (rel : list A) (x y : A) :
  (rel ++ [x]) `prefix_of` (rel ++ [y]) -> x = y.
Proof.
  intros Hpre%prefix_app_inv. by apply prefix_cons_inv_1 in Hpre.
Qed.

Section DirsFacts.
Variables show_hidden show_deps respect_gitignore : bool.
Variable gitignore_patterns : option (list GitIgnorePattern).

Abbreviation pruned_d :=
  (pruned show_hidden show_deps respect_gitignore gitignore_patterns).
Abbreviation kept_d :=
  (filter_dirnames show_hidden show_deps respect_gitignore gitignore_patterns).
Abbreviation add_dirs_d :=
  (add_dirs show_hidden show_deps respect_gitignore gitignore_patterns).
Abbreviation walk_dirs_d :=
  (walk_dirs show_hidden show_deps respect_gitignore gitignore_patterns).
Abbreviation reach_d :=
  (reach show_hidden show_deps respect_gitignore gitignore_patterns).

(** The loop over the names of a directory puts the names it keeps into
    the tree, below the directory. *)
Lemma add_dirs_dirs rel dirnames : forall d,
  Forall entry_name rel ->
  is_subtree d rel ->
  (forall q, ~ is_leaf d q) ->
  exists d',
    add_dirs_d rel dirnames d = Some d'
    /\ (forall q, ~ is_leaf d' q)
    /\ (forall q, q <> [] ->
          (is_subtree d' q
           <-> (exists dirname, dirname ∈ (kept_d rel dirnames).*1
                                /\ q = rel ++ [dirname])
               \/ (is_subtree d q
                   /\ forall dirname, dirname ∈ (kept_d rel dirnames).*1 ->
                        ~ (rel ++ [dirname]) `prefix_of` q))).
Proof.
  induction dirnames as [|[dirname c] dirnames IH]; intros d Hrel Hdir Hnofile.
  - exists d. split; [done|]. split; [done|]. intros q Hq. cbn [filter_dirnames].
    split; [|by intros [(? & ?%elem_of_nil & _)|[? _]]].
    intros Hsub. right. split; [done|]. by intros ? ?%elem_of_nil.
  - cbn [add_dirs filter_dirnames].
    destruct (pruned_d dirname (rel ++ [dirname])); [by apply IH|].
    destruct (add_dir_dirs rel dirname d) as (d1 & Hadd & Hnofile1 & Hdirs1);
      [done..|].
    rewrite Hadd. cbn [mbind option_bind].
    destruct (IH d1) as (d' & Hloop & Hnofile' & Hdirs); [done| |done|].
    { destruct rel as [|name rel]; [by eexists _, _|].
      apply Hdirs1; [done|]. right. split; [done|]. apply snoc_not_prefix. }
    exists d'. split; [done|]. split; [done|].
    intros q Hq. rewrite Hdirs, Hdirs1 by done. rewrite fmap_cons. cbn [fst].
    split.
    + intros [(dn & Hin & ->)|[[->|[Hsub Hpre]] Hrest]].
      * left. exists dn. split; [by right|done].
      * left. exists dirname. split; [by left|done].
      * right. split; [done|].
        by intros dn [->|Hin]%elem_of_cons; [|apply Hrest].
    + intros [(dn & [->|Hin]%elem_of_cons & ->)|[Hsub Hrest]].
      * destruct (decide (dirname ∈ (kept_d rel dirnames).*1)) as [Hin|Hnotin].
        -- left. by exists dirname.
        -- right. split; [by left|]. intros dn Hin Hpre.
           apply snoc_prefix_snoc in Hpre as ->. done.
      * left. by exists dn.
      * right. split.
        -- right. split; [done|]. apply Hrest. by left.
        -- intros dn Hin. apply Hrest. by right.
Qed.

Lemma foldl_bind_None {A B} (f : B -> A -> option A) (l : list B) :
  foldl (fun acc e => acc ≫= f e) None l = None.
Proof. by induction l. Qed.

Lemma foldl_bind_cons {A B} (f : B -> A -> option A) (a : A) (x : B)
    (l : list B) :
  foldl (fun acc e => acc ≫= f e) (Some a) (x :: l)
  = foldl (fun acc e => acc ≫= f e) (f x a) l.
Proof. done. Qed.

(** The walk of a directory: the loop over its names, then the walk goes
    on into the directories that the loop has kept, each from the tree
    the one before has left. *)
Lemma walk_dirs_Dir entries rel d :
  walk_dirs_d (Dir entries) rel d
  = d1 ← add_dirs_d rel (dir_entries entries) d;
    foldl (fun acc e => acc ≫= walk_dirs_d e.2 (rel ++ [e.1])) (Some d1)
      (kept_d rel (dir_entries entries)).
Proof.
  cbn [walk_dirs].
  destruct (add_dirs_d rel (dir_entries entries) d) as [d1|]; [|done].
  cbn [mbind option_bind]. revert d1.
  induction entries as [|[dirname c] entries IH]; intros d1; [done|].
  unfold dir_entries. rewrite filter_cons. cbn [snd].
  destruct (is_dir c) eqn:Hc.
  - destruct (decide (true = true)) as [_|]; [|done].
    cbn [andb filter_dirnames].
    destruct (pruned_d dirname (rel ++ [dirname])); cbn [negb].
    + cbn [mbind option_bind]. apply IH.
    + rewrite (foldl_bind_cons (fun e => walk_dirs_d e.2 (rel ++ [e.1]))).
      cbn beta. cbn [fst snd].
      destruct (walk_dirs_d c (rel ++ [dirname]) d1) as [d2|].
      * cbn [mbind option_bind]. apply IH.
      * by rewrite foldl_bind_None.
  - destruct (decide (false = true)) as [|_]; [done|].
    cbn [andb mbind option_bind]. apply IH.
Qed.

Lemma kept_NoDup rel entries :
  NoDup entries.*1 -> NoDup (kept_d rel (dir_entries entries)).*1.
Proof.
  intros Hnames. induction entries as [|[d c] entries IH]; [constructor|].
  rewrite fmap_cons in Hnames. apply NoDup_cons in Hnames as [Hd Hnames].
  specialize (IH Hnames). unfold dir_entries. rewrite filter_cons. cbn [snd].
  destruct (decide (is_dir c = true)); [|done]. cbn [filter_dirnames].
  destruct (pruned_d d (rel ++ [d])); [done|].
  rewrite fmap_cons. apply NoDup_cons. split; [|done].
  intros ([d' c'] & Heq & Hin)%list_elem_of_fmap. cbn [fst] in Heq.
  subst d'. apply elem_of_filter_dirnames in Hin as [Hin _].
  apply Hd, list_elem_of_fmap. by exists (d, c').
Qed.

Lemma reach_file_inv content rel ds n' :
  reach_d (File content) rel ds n' -> ds = [].
Proof. by inversion 1. Qed.

Lemma reach_denied_inv rel ds n' : reach_d DirDenied rel ds n' -> ds = [].
Proof. by inversion 1. Qed.

(** The directories that a walk puts into the tree are those it reaches. *)
Lemma walk_dirs_dirs (n : node) : forall rel d,
  unique_names n -> proper_names n ->
  Forall entry_name rel ->
  is_subtree d rel ->
  (forall q, ~ is_leaf d q) ->
  (forall q, rel `prefix_of` q -> q <> rel -> tree_at d q = None) ->
  exists d',
    walk_dirs_d n rel d = Some d'
    /\ (forall q, ~ is_leaf d' q)
    /\ (forall q, q <> [] ->
          (is_subtree d' q
           <-> is_subtree d q
               \/ exists ds n', ds <> [] /\ reach_d n rel ds n'
                                /\ q = rel ++ ds)).
Proof.
  induction n as [content|entries IH|] using node_ind;
    intros rel d Hunique Hproper Hrel Hdir Hnofile Hbelow.
  - exists d. split; [done|]. split; [done|]. intros q Hq.
    split; [by left|]. intros [?|(ds & n' & Hds & Hreach & _)]; [done|].
    by apply reach_file_inv in Hreach.
  - inversion Hunique as [| |entries' Hnames Hchildren]; subst.
    inversion Hproper as [| |entries' Hentries Hpchildren]; subst.
    rewrite walk_dirs_Dir.
    destruct (add_dirs_dirs rel (dir_entries entries) d)
      as (d1 & Hadd & Hnofile1 & Hdirs1); [done..|].
    rewrite Hadd. cbn [mbind option_bind].
    pose proof (kept_NoDup rel entries Hnames) as Hkept.
    assert (forall e, e ∈ kept_d rel (dir_entries entries) ->
              e ∈ entries /\ is_dir e.2 = true
              /\ pruned_d e.1 (rel ++ [e.1]) = false) as Hsub.
    { intros [dn c] Hin. by apply elem_of_filter_dirnames in Hin. }
    assert (forall dn, dn ∈ (kept_d rel (dir_entries entries)).*1 ->
              is_subtree d1 (rel ++ [dn])
              /\ forall q, (rel ++ [dn]) `prefix_of` q -> q <> rel ++ [dn] ->
                   tree_at d1 q = None) as Hready.
    { intros dn Hdn. split.
      - apply Hdirs1; [by destruct rel|]. left. by exists dn.
      - intros q Hpre Hneq. apply tree_at_neither; [done|].
        assert (q <> []) as Hq.
        { intros ->. apply prefix_nil_inv in Hpre. by destruct rel. }
        rewrite Hdirs1 by done.
        intros [(dn' & _ & ->)|[Hsubq _]].
        + apply snoc_prefix_snoc in Hpre. by subst.
        + destruct Hsubq as (b & sub & Hat). rewrite Hbelow in Hat; [done| |].
          * etrans; [|exact Hpre]. by apply prefix_app_r.
          * intros ->. by apply snoc_not_prefix in Hpre. }
    assert (exists d',
              foldl (fun acc e => acc ≫= walk_dirs_d e.2 (rel ++ [e.1]))
                (Some d1) (kept_d rel (dir_entries entries)) = Some d'
              /\ (forall q, ~ is_leaf d' q)
              /\ (forall q, q <> [] ->
                    (is_subtree d' q
                     <-> is_subtree d1 q
                         \/ exists dn c ds n',
                              (dn, c) ∈ kept_d rel (dir_entries entries)
                              /\ ds <> [] /\ reach_d c (rel ++ [dn]) ds n'
                              /\ q = (rel ++ [dn]) ++ ds)))
      as (d' & Hfold & Hnofile' & Hdirs).
    { clear Hadd Hdirs1. revert d1 Hnofile1 Hready.
      induction (kept_d rel (dir_entries entries)) as [|[dn c] kept IHk];
        intros d1 Hnofile1 Hready.
      - exists d1. split; [done|]. split; [done|]. intros q Hq.
        split; [by left|].
        by intros [?|(? & ? & ? & ? & ?%elem_of_nil & _)].
      - rewrite fmap_cons in Hkept. apply NoDup_cons in Hkept as [Hdn Hkept].
        destruct (Hsub (dn, c)) as (Hin & Hc & Hp); [by left|].
        cbn [fst snd] in Hc, Hp.
        destruct (Hready dn) as [Hdn1 Hbelow1]; [by left|].
        rewrite Forall_forall in IH, Hchildren, Hpchildren.
        rewrite Forall_forall in Hentries.
        destruct (IH (dn, c) Hin (rel ++ [dn]) d1)
          as (d2 & Hwalk & Hnofile2 & Hdirs2);
          [by apply (Hchildren (dn, c))|by apply (Hpchildren (dn, c))|
           |done..|].
        { apply Forall_app. split; [done|]. constructor; [|constructor].
          apply Hentries, list_elem_of_fmap. by exists (dn, c). }
        cbn [fst snd] in Hwalk.
        destruct (IHk Hkept) with (d1 := d2) as (d' & Hfold & Hnofile' & Hdirs);
          [by intros e He; apply Hsub; right|done| |].
        { intros dn' Hdn'. destruct (Hready dn') as [Hsub' Hbelow']; [by right|].
          split.
          - apply Hdirs2; [by destruct rel|]. by left.
          - intros q Hpre Hneq. apply tree_at_neither; [done|].
            assert (q <> []) as Hq.
            { intros ->. apply prefix_nil_inv in Hpre. by destruct rel. }
            rewrite Hdirs2 by done.
            intros [(b & sub & Hat)|(ds & n' & Hds & _ & ->)].
            + by rewrite Hbelow' in Hat.
            + rewrite <- app_assoc in Hpre.
              apply prefix_app_inv, prefix_cons_inv_1 in Hpre. by subst. }
        exists d'. split.
        { rewrite (foldl_bind_cons (fun e => walk_dirs_d e.2 (rel ++ [e.1]))).
          cbn beta. cbn [fst snd]. by rewrite Hwalk. }
        split; [done|]. intros q Hq. rewrite Hdirs, Hdirs2 by done. split.
        + intros [[?|(ds & n' & Hds & Hreach & ->)]
                 |(dn' & c' & ds & n' & Hin' & Hds & Hreach & ->)].
          * by left.
          * right. exists dn, c, ds, n'. split; [by left|done].
          * right. exists dn', c', ds, n'. split; [by right|done].
        + intros [?|(dn' & c' & ds & n' & [[= -> ->]|Hin']%elem_of_cons
                      & Hds & Hreach & ->)].
          * left. by left.
          * left. right. by exists ds, n'.
          * right. by exists dn', c', ds, n'. }
    exists d'. split; [done|]. split; [done|].
    intros q Hq. rewrite Hdirs, Hdirs1 by done. split.
    + intros [[(dn & Hdn & ->)|[? _]]
             |(dn & c & ds & n' & Hin & Hds & Hreach & ->)].
      * right. apply list_elem_of_fmap in Hdn as ([dn' c] & -> & Hin).
        destruct (Hsub _ Hin) as (Hin' & Hc & Hp). cbn [fst snd] in *.
        exists [dn'], c. split; [done|]. split; [|done].
        econstructor; [done..|constructor].
      * by left.
      * right. destruct (Hsub _ Hin) as (Hin' & Hc & Hp). cbn [fst snd] in *.
        exists (dn :: ds), n'. split; [done|]. split.
        -- by econstructor.
        -- by rewrite <- app_assoc.
    + intros [Hsubq|(ds & n' & Hds & Hreach & ->)].
      * left. right. split; [done|]. intros dn _ Hpre.
        destruct Hsubq as (b & sub & Hat). rewrite Hbelow in Hat; [done| |].
        -- etrans; [|exact Hpre]. by apply prefix_app_r.
        -- intros ->. by apply snoc_not_prefix in Hpre.
      * inversion Hreach as [|entries' rel' dn c ds' n'' Hin Hc Hp Hreach'];
          subst; [done|].
        assert ((dn, c) ∈ kept_d rel (dir_entries entries)) as Hk
          by by apply elem_of_filter_dirnames.
        destruct ds' as [|dn' ds'].
        -- left. left. exists dn. split; [|done].
           apply list_elem_of_fmap. by exists (dn, c).
        -- right. exists dn, c, (dn' :: ds'), n'.
           split; [done|]. split; [done|]. split; [done|].
           by rewrite <- app_assoc.
  - exists d. split; [done|]. split; [done|]. intros q Hq.
    split; [by left|]. intros [?|(ds & n' & Hds & Hreach & _)]; [done|].
    by apply reach_denied_inv in Hreach.
Qed.

End DirsFacts.

Lemma reach_prefix sh sd rg gp n rel ds k n' :
  reach sh sd rg gp n rel (ds ++ k) n' -> exists c, reach sh sd rg gp n rel ds c.
Proof.
  revert n rel. induction ds as [|d ds IH]; intros n rel Hreach.
  - exists n. constructor.
  - inversion Hreach as [|entries rel' d' c ds' n'' Hin Hc Hp Hreach']; subst.
    apply IH in Hreach' as [c' Hreach']. exists c'. by econstructor.
Qed.

Lemma walk_node_scanned fs sh sd rg bc gp n dirpath rel p :
  Scanned p ∈ walk_node fs sh sd rg bc gp n dirpath rel
  <-> exists ds n', reach sh sd rg gp n rel ds n' /\ p = rel ++ ds.
Proof.
  rewrite walk_node_visits. split.
  - intros (ds & n' & Hreach & [[= ->]|(? & ? & _ & _ & _ & ?)]); [|done].
    by exists ds, n'.
  - intros (ds & n' & Hreach & ->). exists ds, n'. split; [done|by left].
Qed.

(** The tree that the walk of the directories builds from the root. *)
Lemma walk_dirs_shape fs sh sd rg gp :
  unique_names fs -> proper_names fs ->
  exists tree,
    walk_dirs sh sd rg gp fs [] [] = Some tree
    /\ (forall p, ~ is_leaf tree p)
    /\ (forall p, p <> [] ->
          (is_subtree tree p <-> exists n', reach sh sd rg gp fs [] p n')).
Proof.
  intros Hunique Hproper.
  destruct (walk_dirs_dirs sh sd rg gp fs [] [])
    as (tree & Hwalk & Hnofile & Hdirs); [done|done|constructor| | | |].
  - by eexists _, _.
  - intros [|k q]; [done|]. by rewrite tree_at_nil.
  - intros [|k q] _ Hq; [done|]. by apply tree_at_nil.
  - exists tree. split; [done|]. split; [done|]. intros p Hp.
    rewrite Hdirs by done. split.
    + intros [(b & sub & Hat)|(ds & n' & _ & Hreach & ->)].
      * by rewrite tree_at_nil in Hat.
      * by exists n'.
    + intros [n' Hreach]. right. by exists p, n'.
Qed.

(** X21.  In a tree with proper names, none twice in a directory,
    [build_tree_structure] with [dirs_only] does not raise, and the
    dictionary it returns has a directory exactly at the paths of the
    directories that the walk of [walk_filtered_files] lists below the
    root, and nothing anywhere else. *)
Theorem build_tree_structure_dirs_only_shape (fs : node) (root_dir : str)
    (show_hidden show_deps respect_gitignore binary_check : bool)
    (trace : list event) :
  unique_names fs -> proper_names fs ->
  walk_trace fs root_dir show_hidden show_deps respect_gitignore binary_check
    = Some trace ->
  exists tree,
    build_tree_structure fs root_dir true show_hidden show_deps
      respect_gitignore = Some tree
    /\ forall p, p <> [] ->
         (Scanned p ∈ trace ->
          exists defaulting sub, tree_at tree p = Some (SubTree defaulting sub))
         /\ (Scanned p ∉ trace -> tree_at tree p = None).
Proof.
  intros Hunique Hproper. unfold walk_trace.
  unfold build_tree_structure, build_tree_structure_dirs.
  destruct (load_patterns fs respect_gitignore) as [gp|]; [|done].
  cbn [mbind option_bind]. intros [= <-].
  destruct (walk_dirs_shape fs show_hidden show_deps respect_gitignore gp)
    as (tree & Hwalk & Hnofile & Hdirs); [done..|].
  exists tree. split; [done|]. intros p Hp. rewrite walk_node_scanned. split.
  - intros (ds & n' & Hreach & ->). apply Hdirs; [done|]. by exists n'.
  - intros Hnot. apply tree_at_neither; [done|].
    intros [n' Hreach]%Hdirs; [|done]. apply Hnot. by exists p, n'.
Qed.

(** Two directories, one in the other, and a file. *)
Lemma build_tree_structure_dirs_only_shape_witness :
  exists tree,
    build_tree_structure
      (Dir [(chars "src", Dir [(chars "pkg", Dir [])]);
            (chars "README", File (Some []))])
      "/repo" true false false false = Some tree
    /\ forall p, p <> [] ->
         (Scanned p
          ∈ [Scanned [];
             Yielded (chars "/repo/README") [chars "README"];
             Scanned [chars "src"];
             Scanned [chars "src"; chars "pkg"]] ->
          exists defaulting sub, tree_at tree p = Some (SubTree defaulting sub))
         /\ (Scanned p
             ∉ [Scanned [];
                Yielded (chars "/repo/README") [chars "README"];
                Scanned [chars "src"];
                Scanned [chars "src"; chars "pkg"]] ->
             tree_at tree p = None).
Proof.
  apply (build_tree_structure_dirs_only_shape
           (Dir [(chars "src", Dir [(chars "pkg", Dir [])]);
                 (chars "README", File (Some []))])
           "/repo" false false false false).
  - apply unique_Dir; [compute_done|].
    constructor; [|constructor; [|constructor]].
    + apply unique_Dir; [apply NoDup_singleton|].
      constructor; [|constructor]. apply unique_Dir; constructor.
    + apply unique_File.
  - apply proper_Dir.
    + constructor; [|constructor; [|constructor]];
        unfold entry_name, name_ok; compute_done.
    + constructor; [|constructor; [|constructor]].
      * apply proper_Dir.
        -- constructor; [|constructor]. unfold entry_name, name_ok.
           compute_done.
        -- constructor; [|constructor]. apply proper_Dir; constructor.
      * apply proper_File.
  - reflexivity.
Defined.

(** X22.  Every directory of the tree that [build_tree_structure] builds
    from the files is a directory of the tree it builds with
    [dirs_only]. *)
Theorem dirs_only_keeps_directories (fs : node) (root_dir : str)
    (show_hidden show_deps respect_gitignore : bool)
    (files_tree dirs_tree : dict) (p : list str) :
  unique_names fs -> proper_names fs ->
  build_tree_structure fs root_dir false show_hidden show_deps
    respect_gitignore = Some files_tree ->
  build_tree_structure fs root_dir true show_hidden show_deps
    respect_gitignore = Some dirs_tree ->
  (exists defaulting sub, tree_at files_tree p = Some (SubTree defaulting sub)) ->
  exists defaulting sub, tree_at dirs_tree p = Some (SubTree defaulting sub).
Proof.
  intros Hunique Hproper.
  unfold build_tree_structure, build_tree_structure_dirs,
    build_tree_structure_files, walk_filtered_files, walk_trace.
  destruct (load_patterns fs respect_gitignore) as [gp|]; [|done].
  cbn [fmap option_fmap option_map mbind option_bind].
  destruct (build_files_shape fs root_dir show_hidden show_deps
              respect_gitignore gp Hunique Hproper)
    as (tree & -> & Hfiles).
  destruct (walk_dirs_shape fs show_hidden show_deps respect_gitignore gp)
    as (tree' & -> & _ & Hdirs); [done..|].
  intros [= <-] [= <-] Hsub.
  destruct p as [|name p']; [by eexists _, _|].
  assert (name :: p' <> []) as Hp by done.
  remember (name :: p') as p eqn:Heqp. clear Heqp.
  apply Hdirs; [done|].
  apply (Hfiles p Hp) in Hsub as (a & rel & Hin & Hpre & Hneq).
  apply walk_node_visits_1 in Hin
    as (ds & n' & Hreach & [?|(? & filename & _ & _ & _ & [= _ ->])]); [done|].
  cbn [app] in Hpre, Hneq.
  apply prefix_snoc_inv in Hpre as [?|[k ->]]; [done|].
  by eapply reach_prefix.
Qed.

Lemma dirs_only_keeps_directories_witness :
  exists defaulting sub,
    tree_at [(chars "src", SubTree true [])] [chars "src"]
    = Some (SubTree defaulting sub).
Proof.
  apply (dirs_only_keeps_directories
           (Dir [(chars "src", Dir [(chars "main.py", File (Some []))])])
           "/repo" false false false
           [(chars "src", SubTree true [(chars "main.py", FileLeaf)])]
           [(chars "src", SubTree true [])]
           [chars "src"]).
  - apply unique_Dir; [apply NoDup_singleton|].
    constructor; [|constructor].
    apply unique_Dir; [apply NoDup_singleton|].
    constructor; [apply unique_File|constructor].
  - apply proper_Dir.
    + constructor; [|constructor]. unfold entry_name, name_ok. compute_done.
    + constructor; [|constructor]. apply proper_Dir.
      * constructor; [|constructor]. unfold entry_name, name_ok. compute_done.
      * constructor; [apply proper_File|constructor].
  - reflexivity.
  - reflexivity.
  - by eexists _, _.
Defined.

(** ** The printed tree *)

Lemma nat_of_ascii_inj x y : nat_of_ascii x = nat_of_ascii y -> x = y.
Proof.
  intros H. rewrite <- (ascii_nat_embedding x), <- (ascii_nat_embedding y).
  by rewrite H.
Qed.

Lemma str_lt_cons x a y b :
  str_lt (x :: a) (y :: b)
  = match Nat.compare (nat_of_ascii x) (nat_of_ascii y) with
    | Lt => true
    | Eq => str_lt a b
    | Gt => false
    end.
Proof.
  cbn [str_lt].
  destruct (Nat.compare_spec (nat_of_ascii x) (nat_of_ascii y)) as [Heq|Hlt|Hgt].
  - apply nat_of_ascii_inj in Heq as ->.
    by rewrite Nat.ltb_irrefl, ascii_eqb_refl.
  - by apply Nat.ltb_lt in Hlt as ->.
  - assert (x <> y) by (intros ->; lia). rewrite ascii_eqb_false by done.
    by replace (Nat.ltb _ _) with false by (symmetry; apply Nat.ltb_ge; lia).
Qed.

Lemma str_lt_irrefl a : str_lt a a = false.
Proof.
  induction a as [|x a IH]; [done|].
  by rewrite str_lt_cons, Nat.compare_refl.
Qed.

Lemma str_lt_trans a : forall b c,
  str_lt a b = true -> str_lt b c = true -> str_lt a c = true.
Proof.
  induction a as [|x a IH]; intros [|y b] [|z c]; try done.
  rewrite !str_lt_cons.
  destruct (Nat.compare_spec (nat_of_ascii x) (nat_of_ascii y)) as [Hxy|Hxy|Hxy];
    destruct (Nat.compare_spec (nat_of_ascii y) (nat_of_ascii z)) as [Hyz|Hyz|Hyz];
    destruct (Nat.compare_spec (nat_of_ascii x) (nat_of_ascii z)) as [Hxz|Hxz|Hxz];
    try done; try lia.
  apply IH.
Qed.

Lemma str_lt_total a : forall b,
  str_lt a b = false -> str_lt b a = false -> a = b.
Proof.
  induction a as [|x a IH]; intros [|y b]; try done.
  rewrite !str_lt_cons.
  destruct (Nat.compare_spec (nat_of_ascii x) (nat_of_ascii y)) as [Hxy|Hxy|Hxy];
    destruct (Nat.compare_spec (nat_of_ascii y) (nat_of_ascii x)) as [Hyx|Hyx|Hyx];
    try done; try lia.
  intros Hab Hba. apply nat_of_ascii_inj in Hxy as ->. f_equal. by apply IH.
Qed.

Lemma key_lt_irrefl k : key_lt k k = false.
Proof.
  unfold key_lt. rewrite (bool_decide_eq_true_2 _ eq_refl). apply str_lt_irrefl.
Qed.

Lemma key_lt_trans k1 k2 k3 :
  key_lt k1 k2 = true -> key_lt k2 k3 = true -> key_lt k1 k3 = true.
Proof.
  destruct k1 as [b1 s1], k2 as [b2 s2], k3 as [b3 s3]. unfold key_lt.
  cbn [fst snd]. destruct b1, b2, b3; cbn; try done; apply str_lt_trans.
Qed.

Lemma key_lt_total k1 k2 :
  key_lt k1 k2 = false -> key_lt k2 k1 = false -> k1 = k2.
Proof.
  destruct k1 as [b1 s1], k2 as [b2 s2]. unfold key_lt. cbn [fst snd].
  destruct b1, b2; cbn; try done; intros H1 H2; f_equal; by apply str_lt_total.
Qed.

(** *** Sorting by a key *)

Section Sorted.
Context {A K : Type}.
Variable lt : K -> K -> bool.
Variable key_of : A -> K.
Hypothesis lt_irrefl : forall k, lt k k = false.
Hypothesis lt_trans : forall k1 k2 k3,
  lt k1 k2 = true -> lt k2 k3 = true -> lt k1 k3 = true.
Hypothesis lt_total : forall k1 k2, lt k1 k2 = false -> lt k2 k1 = false -> k1 = k2.

Abbreviation before := (fun x y : A => lt (key_of x) (key_of y) = true).

Lemma elem_of_sorted_insert x y l :
  y ∈ sorted_insert lt key_of x l <-> y = x \/ y ∈ l.
Proof.
  induction l as [|z l IH]; cbn [sorted_insert].
  - by rewrite list_elem_of_singleton, elem_of_nil; intuition.
  - destruct (lt (key_of z) (key_of x)).
    + rewrite !elem_of_cons, IH. tauto.
    + by rewrite elem_of_cons.
Qed.

Lemma elem_of_sorted y l : y ∈ sorted lt key_of l <-> y ∈ l.
Proof.
  induction l as [|x l IH]; [done|]. cbn [sorted].
  by rewrite elem_of_sorted_insert, elem_of_cons, IH.
Qed.

Lemma elem_of_sorted_1 y l : y ∈ sorted lt key_of l -> y ∈ l.
Proof. apply elem_of_sorted. Qed.

Lemma elem_of_sorted_2 y l : y ∈ l -> y ∈ sorted lt key_of l.
Proof. apply elem_of_sorted. Qed.

Lemma sorted_insert_sorted x l :
  StronglySorted before l -> key_of x ∉ key_of <$> l ->
  StronglySorted before (sorted_insert lt key_of x l).
Proof.
  induction 1 as [|z l Hl IH Hz]; intros Hx; cbn [sorted_insert].
  - by repeat constructor.
  - rewrite fmap_cons in Hx. apply not_elem_of_cons in Hx as [Hxz Hx].
    destruct (lt (key_of z) (key_of x)) eqn:Hzx.
    + constructor; [by apply IH|]. apply Forall_forall.
      intros y [->|Hy]%elem_of_sorted_insert; [done|].
      rewrite Forall_forall in Hz. by apply Hz.
    + assert (lt (key_of x) (key_of z) = true) as Hlt.
      { destruct (lt (key_of x) (key_of z)) eqn:Hxz'; [done|].
        destruct Hxz. by apply lt_total. }
      constructor; [by constructor|]. constructor; [done|].
      eapply Forall_impl; [exact Hz|]. intros y Hy. cbn beta in Hy |- *.
      by eapply lt_trans.
Qed.

Lemma sorted_sorted l :
  NoDup (key_of <$> l) -> StronglySorted before (sorted lt key_of l).
Proof.
  induction l as [|x l IH]; [constructor|].
  rewrite fmap_cons. intros [Hx Hl]%NoDup_cons. cbn [sorted].
  apply sorted_insert_sorted; [by apply IH|].
  intros (y & Hkey & Hy)%list_elem_of_fmap.
  apply Hx, list_elem_of_fmap. exists y. split; [done|].
  by apply elem_of_sorted_1.
Qed.

(** Two lists in the order of their keys that hold corresponding items
    hold them at the same places. *)
Lemma sorted_related (E : A -> A -> Prop) s : forall s',
  StronglySorted before s -> StronglySorted before s' ->
  (forall x y, E x y -> key_of x = key_of y) ->
  (forall x, x ∈ s -> exists y, y ∈ s' /\ E x y) ->
  (forall y, y ∈ s' -> exists x, x ∈ s /\ E x y) ->
  Forall2 E s s'.
Proof.
  induction s as [|x s IH]; intros [|y s'] Hs Hs' Hkey Hto Hfrom.
  - constructor.
  - destruct (Hfrom y) as (? & ?%elem_of_nil & _); [by left|done].
  - destruct (Hto x) as (? & ?%elem_of_nil & _); [by left|done].
  - apply StronglySorted_inv in Hs as [Hs Hx].
    apply StronglySorted_inv in Hs' as [Hs' Hy].
    rewrite Forall_forall in Hx, Hy.
    assert (E x y) as Hxy.
    { destruct (Hto x) as (y0 & [->|Hy0]%elem_of_cons & Hxy0); [by left|done|].
      destruct (Hfrom y) as (x0 & [->|Hx0]%elem_of_cons & Hx0y);
        [by left|done|].
      apply Hkey in Hxy0, Hx0y. apply Hx in Hx0. apply Hy in Hy0.
      rewrite <- Hxy0 in Hy0. rewrite Hx0y in Hx0.
      pose proof (lt_trans _ _ _ Hx0 Hy0) as Hirr.
      by rewrite lt_irrefl in Hirr. }
    constructor; [done|]. apply IH; [done..| |].
    + intros x1 Hx1.
      destruct (Hto x1) as (y1 & [->|Hy1]%elem_of_cons & Hx1y1);
        [by right| |by exists y1].
      apply Hx in Hx1. apply Hkey in Hxy, Hx1y1.
      rewrite Hx1y1, <- Hxy in Hx1. by rewrite lt_irrefl in Hx1.
    + intros y1 Hy1.
      destruct (Hfrom y1) as (x1 & [->|Hx1]%elem_of_cons & Hx1y1);
        [by right| |by exists x1].
      apply Hy in Hy1. apply Hkey in Hxy, Hx1y1.
      rewrite <- Hx1y1, Hxy in Hy1. by rewrite lt_irrefl in Hy1.
Qed.

End Sorted.

Lemma NoDup_keys (l : list (str * tree)) : NoDup l.*1 -> NoDup (key <$> l).
Proof.
  intros Hl. apply (NoDup_fmap_1 snd). by rewrite <- list_fmap_compose.
Qed.

Lemma dict_get_elem_of name t (d : dict) :
  dict_get name d = Some t -> (name, t) ∈ d.
Proof.
  induction d as [|[k v] d IH]; [done|]. cbn [dict_get].
  destruct (decide (k = name)) as [->|Hk].
  - rewrite (bool_decide_eq_true_2 _ eq_refl). intros [= ->]. by left.
  - rewrite (bool_decide_eq_false_2 _ Hk). intros ?. right. by apply IH.
Qed.

Lemma elem_of_dict_get name t (d : dict) :
  NoDup d.*1 -> (name, t) ∈ d -> dict_get name d = Some t.
Proof.
  induction d as [|[k v] d IH]; [by intros _ ?%elem_of_nil|].
  rewrite fmap_cons. intros [Hk Hd]%NoDup_cons. cbn [dict_get fst] in *.
  intros [[= -> ->]|Hin]%elem_of_cons.
  - by rewrite (bool_decide_eq_true_2 _ eq_refl).
  - rewrite bool_decide_eq_false_2; [by apply IH|].
    intros ->. apply Hk, list_elem_of_fmap. by exists (name, t).
Qed.

(** Two trees with the same files and the same directories. *)
Abbreviation same_paths d d' :=
  (forall p, p <> [] ->
     (is_leaf d p <-> is_leaf d' p) /\ (is_subtree d p <-> is_subtree d' p)).

Abbreviation same_item :=
  (fun x y : str * tree =>
     x.1 = y.1
     /\ match x.2, y.2 with
        | FileLeaf, FileLeaf => True
        | SubTree _ sub, SubTree _ sub' => same_paths sub sub'
        | _, _ => False
        end).

Lemma same_item_key x y : same_item x y -> key x = key y.
Proof.
  destruct x as [n [|b s]], y as [n' [|b' s']]; cbn; intros [-> H]; done.
Qed.

Lemma same_paths_items (d d' : dict) x :
  NoDup d.*1 -> same_paths d d' -> x ∈ d ->
  exists y, y ∈ d' /\ same_item x y.
Proof.
  intros Hd Hsame Hx. destruct x as [name t].
  apply elem_of_dict_get in Hx; [|done].
  destruct t as [|b sub].
  - assert (is_leaf d' [name]) as Hleaf.
    { apply Hsame; [done|]. by cbn [tree_at]. }
    cbn [tree_at] in Hleaf. apply dict_get_elem_of in Hleaf.
    by exists (name, FileLeaf).
  - assert (is_subtree d' [name]) as (b' & sub' & Hget').
    { apply Hsame; [done|]. cbn [tree_at]. by eexists _, _. }
    cbn [tree_at] in Hget'. exists (name, SubTree b' sub').
    split; [by apply dict_get_elem_of|]. split; [done|]. cbn [snd].
    intros q Hq. specialize (Hsame (name :: q)).
    rewrite !tree_at_cons, Hx, Hget' in Hsame by done. by apply Hsame.
Qed.

Lemma same_paths_sym (d d' : dict) : same_paths d d' -> same_paths d' d.
Proof. intros H p Hp. destruct (H p Hp). by split. Qed.

Lemma same_item_flip x y : same_item x y -> same_item y x.
Proof.
  destruct x as [n [|b s]], y as [n' [|b' s']]; cbn; intros [-> H];
    (split; [done|]); try done.
  by apply same_paths_sym.
Qed.

Lemma same_paths_sorted (d d' : dict) :
  NoDup d.*1 -> NoDup d'.*1 -> same_paths d d' ->
  Forall2 same_item (sorted key_lt key d) (sorted key_lt key d').
Proof.
  intros Hd Hd' Hsame.
  apply (sorted_related key_lt key key_lt_irrefl key_lt_trans).
  - by apply sorted_sorted, NoDup_keys; [apply key_lt_trans|apply key_lt_total|].
  - by apply sorted_sorted, NoDup_keys; [apply key_lt_trans|apply key_lt_total|].
  - apply same_item_key.
  - intros x Hx%elem_of_sorted_1.
    destruct (same_paths_items d d' x) as (y & Hy & Hxy); [done..|].
    exists y. split; [by apply elem_of_sorted_2|done].
  - intros y Hy%elem_of_sorted_1.
    destruct (same_paths_items d' d y) as (x & Hx & Hyx);
      [done|by apply same_paths_sym|done|].
    exists x. split; [by apply elem_of_sorted_2|by apply same_item_flip].
Qed.

Lemma imap_Forall2 {A B} (R : A -> A -> Prop) (l l' : list A) :
  Forall2 R l l' -> forall f g : nat -> A -> B,
  (forall i x y, l !! i = Some x -> l' !! i = Some y -> R x y -> f i x = g i y) ->
  imap f l = imap g l'.
Proof.
  induction 1 as [|x y l l' Hxy _ IH]; intros f g Hfg; [done|].
  cbn [imap]. f_equal.
  - by apply (Hfg 0).
  - apply IH. intros i x' y' Hx' Hy'. by apply (Hfg (S i)).
Qed.

(** The lines depend on the files and directories of a tree only, not on
    the order of the items of its dictionaries. *)
Lemma print_lines_same depth : forall b b' (d d' : dict) prefix,
  tree_ok (SubTree b d) -> tree_ok (SubTree b' d') ->
  same_paths d d' ->
  print_lines depth d prefix = print_lines depth d' prefix.
Proof.
  induction depth as [|depth IH]; intros b b' d d' prefix Hok Hok' Hsame;
    [done|].
  inversion Hok as [|? ? Hd Hsubs]; subst.
  inversion Hok' as [|? ? Hd' Hsubs']; subst.
  pose proof (same_paths_sorted d d' Hd Hd' Hsame) as Hitems.
  cbn [print_lines]. cbv zeta. rewrite (Forall2_length _ _ _ Hitems).
  f_equal. eapply imap_Forall2; [exact Hitems|].
  intros i [name t] [name' t'] Hx Hy [Hname Ht]. cbn [fst snd] in Hname, Ht.
  subst name'. apply list_elem_of_lookup_2, elem_of_sorted_1 in Hx, Hy.
  rewrite Forall_forall in Hsubs, Hsubs'.
  apply Hsubs in Hx. apply Hsubs' in Hy. cbn [snd] in Hx, Hy.
  destruct t as [|c sub], t' as [|c' sub']; try done.
  cbn [print_item is_none]. f_equal. by eapply IH.
Qed.

Lemma height_item name t (items : list (str * tree)) b :
  (name, t) ∈ items -> height t < height (SubTree b items).
Proof.
  cbn [height]. induction items as [|[k v] items IH]; [by intros ?%elem_of_nil|].
  intros [[= <- <-]|Hin]%elem_of_cons; [lia|]. apply IH in Hin. lia.
Qed.

Lemma height_flag b b' items :
  height (SubTree b items) = height (SubTree b' items).
Proof. done. Qed.

(** Deeper calls than the tree is high print the same lines. *)
Lemma print_lines_enough depth1 : forall depth2 (d : dict) prefix,
  height (SubTree true d) <= depth1 -> height (SubTree true d) <= depth2 ->
  print_lines depth1 d prefix = print_lines depth2 d prefix.
Proof.
  induction depth1 as [|depth1 IH]; intros [|depth2] d prefix H1 H2;
    try (cbn [height] in *; lia).
  cbn [print_lines]. cbv zeta. f_equal. apply imap_ext.
  intros i [name t] Hx. apply list_elem_of_lookup_2, elem_of_sorted_1 in Hx.
  destruct t as [|b sub]; [done|]. cbn [print_item is_none]. f_equal.
  apply (height_item _ _ _ true) in Hx.
  rewrite (height_flag b true) in Hx. apply IH; lia.
Qed.

(** The lines of a call are the lines of its loop, with the calls for the
    subtrees in their places. *)
Lemma print_tree_structure_unfold (tree : dict) prefix :
  print_tree_structure tree prefix
  = concat (imap (print_item print_tree_structure prefix
                    (length (sorted key_lt key tree)))
              (sorted key_lt key tree)).
Proof.
  unfold print_tree_structure at 1.
  destruct (height (SubTree true tree)) as [|n] eqn:Hh; [done|].
  cbn [print_lines]. cbv zeta. f_equal. apply imap_ext.
  intros i [name t] Hx. apply list_elem_of_lookup_2, elem_of_sorted_1 in Hx.
  destruct t as [|b sub]; [done|]. cbn [print_item is_none]. f_equal.
  apply (height_item _ _ _ true) in Hx.
  rewrite (height_flag b true), Hh in Hx.
  unfold print_tree_structure. apply print_lines_enough; lia.
Qed.

(** X23.  What [print_tree_structure] prints depends on the files and the
    directories of the tree only: two trees that have a file at the same
    paths and a directory at the same paths are printed alike, in
    whatever order their dictionaries hold their items. *)
Theorem print_tree_structure_order_free (tree tree' : dict) (prefix : str) :
  tree_ok (SubTree true tree) -> tree_ok (SubTree true tree') ->
  (forall p, p <> [] ->
     (tree_at tree p = Some FileLeaf <-> tree_at tree' p = Some FileLeaf)
     /\ ((exists defaulting sub,
            tree_at tree p = Some (SubTree defaulting sub))
         <-> exists defaulting sub,
               tree_at tree' p = Some (SubTree defaulting sub))) ->
  print_tree_structure tree prefix = print_tree_structure tree' prefix.
Proof.
  intros Hok Hok' Hsame. unfold print_tree_structure.
  set (h := height (SubTree true tree)). set (h' := height (SubTree true tree')).
  rewrite (print_lines_enough h (Nat.max h h') tree) by (unfold h; lia).
  rewrite (print_lines_enough h' (Nat.max h h') tree') by (unfold h'; lia).
  by eapply print_lines_same.
Qed.

(** The same two items, in the two orders. *)
Lemma print_tree_structure_order_free_witness :
  print_tree_structure
    [(chars "b", FileLeaf); (chars "a", SubTree true [])] []
  = print_tree_structure
      [(chars "a", SubTree true []); (chars "b", FileLeaf)] [].
Proof.
  apply (print_tree_structure_order_free
           [(chars "b", FileLeaf); (chars "a", SubTree true [])]
           [(chars "a", SubTree true []); (chars "b", FileLeaf)] []).
  - apply ok_SubTree; [compute_done|].
    constructor; [apply ok_FileLeaf|].
    constructor; [|constructor]. apply ok_SubTree; constructor.
  - apply ok_SubTree; [compute_done|].
    constructor; [|constructor; [apply ok_FileLeaf|constructor]].
    apply ok_SubTree; constructor.
  - intros [|k [|k' q]] Hp; [done| |].
    + cbn [tree_at dict_get]. repeat case_bool_decide; naive_solver.
    + cbn [tree_at dict_get]. repeat case_bool_decide; try naive_solver.
      all: destruct q; cbn [tree_at dict_get]; naive_solver.
Defined.

(** ** The keys of the dictionaries *)

Lemma dict_set_keys key value (d : dict) k :
  k ∈ (dict_set key value d).*1 -> k = key \/ k ∈ d.*1.
Proof.
  induction d as [|[k0 v0] d IH]; cbn [dict_set].
  - rewrite fmap_cons, fmap_nil. intros ?%list_elem_of_singleton. by left.
  - destruct (bool_decide (k0 = key)); rewrite !fmap_cons; cbn [fst]; [by right|].
    intros [->|Hin]%elem_of_cons; [right; by left|].
    destruct (IH Hin); [by left|right; by right].
Qed.

Lemma dict_set_NoDup key value (d : dict) :
  NoDup d.*1 -> NoDup (dict_set key value d).*1.
Proof.
  induction d as [|[k0 v0] d IH]; cbn [dict_set]; [intros _; apply NoDup_singleton|].
  rewrite fmap_cons. intros [Hk0 Hd]%NoDup_cons. cbn [fst] in Hk0.
  destruct (decide (k0 = key)) as [->|Hne].
  - rewrite (bool_decide_eq_true_2 _ eq_refl), fmap_cons. by apply NoDup_cons.
  - rewrite (bool_decide_eq_false_2 _ Hne), fmap_cons. apply NoDup_cons.
    split; [|by apply IH]. cbn [fst]. by intros [?|?]%dict_set_keys.
Qed.

Lemma dict_set_Forall (P : str * tree -> Prop) key value (d : dict) :
  P (key, value) -> Forall P d -> Forall P (dict_set key value d).
Proof.
  intros Hnew. induction 1 as [|[k0 v0] d Hx Hd IH]; cbn [dict_set].
  - by repeat constructor.
  - destruct (decide (k0 = key)) as [->|Hne].
    + rewrite (bool_decide_eq_true_2 _ eq_refl). by constructor.
    + rewrite (bool_decide_eq_false_2 _ Hne). by constructor.
Qed.

Lemma dict_set_ok b b' key value (d : dict) :
  tree_ok (SubTree b d) -> tree_ok value ->
  tree_ok (SubTree b' (dict_set key value d)).
Proof.
  inversion 1 as [|? ? Hkeys Hsubs]; subst. intros Hvalue. constructor.
  - by apply dict_set_NoDup.
  - by apply dict_set_Forall.
Qed.

Lemma dict_get_ok b key (d : dict) t :
  tree_ok (SubTree b d) -> dict_get key d = Some t -> tree_ok t.
Proof.
  inversion 1 as [|? ? Hkeys Hsubs]; subst. intros Hin%dict_get_elem_of.
  rewrite Forall_forall in Hsubs. by apply Hsubs in Hin.
Qed.

Lemma tree_ok_flag b b' (d : dict) : tree_ok (SubTree b d) -> tree_ok (SubTree b' d).
Proof. inversion 1; subst. by constructor. Qed.

Lemma tree_ok_nil b : tree_ok (SubTree b []).
Proof. constructor; constructor. Qed.

Lemma insert_parts_ok parts : forall b (d d' : dict),
  tree_ok (SubTree b d) -> insert_parts parts d = Some d' ->
  tree_ok (SubTree b d').
Proof.
  induction parts as [|part rest IH]; intros b d d' Hok; [by intros [= <-]|].
  destruct rest as [|part' rest].
  - intros [= <-]. apply (dict_set_ok b); [done|constructor].
  - rewrite insert_parts_cons by done.
    set (current := if dict_mem part d then d
                    else dict_set part (SubTree true []) d).
    assert (tree_ok (SubTree b current)) as Hcurrent.
    { unfold current. destruct (dict_mem part d); [done|].
      apply (dict_set_ok b); [done|apply tree_ok_nil]. }
    destruct (dict_get part current) as [[|b0 sub]|] eqn:Hget; try done.
    destruct (insert_parts (part' :: rest) sub) as [sub'|] eqn:Hins; [|done].
    cbn [mbind option_bind]. intros [= <-].
    apply (dict_set_ok b); [done|]. eapply IH; [|exact Hins].
    by eapply dict_get_ok.
Qed.

Lemma build_files_ok show_hidden out : forall b (d d' : dict),
  tree_ok (SubTree b d) -> build_files show_hidden out d = Some d' ->
  tree_ok (SubTree b d').
Proof.
  induction out as [|[a r] out IH]; intros b d d' Hok; [by intros [= <-]|].
  cbn [build_files]. destruct (_ && _); [by apply IH|].
  destruct (insert_parts (split_sep r) d) as [d1|] eqn:Hins; [|done].
  cbn [mbind option_bind]. apply IH. by eapply insert_parts_ok.
Qed.

Lemma set_dir_ok parts : forall dirname defaulting b (d d' : dict),
  tree_ok (SubTree b d) -> set_dir parts dirname defaulting d = Some d' ->
  tree_ok (SubTree b d').
Proof.
  induction parts as [|part rest IH]; intros dirname defaulting b d d' Hok.
  - intros [= <-]. apply (dict_set_ok b); [done|apply tree_ok_nil].
  - cbn [set_dir]. destruct (bool_decide (part = chars ".")); [by apply IH|].
    destruct (dict_get part d) as [[|b0 sub]|] eqn:Hget; [done| |].
    + destruct (set_dir rest dirname b0 sub) as [sub'|] eqn:Hset; [|done].
      cbn [mbind option_bind]. intros [= <-].
      apply (dict_set_ok b); [done|]. eapply IH; [|exact Hset].
      by eapply dict_get_ok.
    + destruct defaulting; [|done].
      destruct (set_dir rest dirname false []) as [sub'|] eqn:Hset; [|done].
      cbn [mbind option_bind]. intros [= <-].
      apply (dict_set_ok b); [done|]. eapply IH; [|exact Hset].
      apply tree_ok_nil.
Qed.

Lemma add_dir_ok rel dirname b (d d' : dict) :
  tree_ok (SubTree b d) -> add_dir rel dirname d = Some d' ->
  tree_ok (SubTree b d').
Proof.
  intros Hok. unfold add_dir. destruct (bool_decide _).
  - intros [= <-]. apply (dict_set_ok b); [done|apply tree_ok_nil].
  - by apply set_dir_ok.
Qed.

Lemma add_dirs_ok sh sd rg gp rel dirnames : forall b (d d' : dict),
  tree_ok (SubTree b d) -> add_dirs sh sd rg gp rel dirnames d = Some d' ->
  tree_ok (SubTree b d').
Proof.
  induction dirnames as [|[dirname c] dirnames IH]; intros b d d' Hok;
    [by intros [= <-]|].
  cbn [add_dirs]. destruct (pruned _ _ _ _ _ _); [by apply IH|].
  destruct (add_dir rel dirname d) as [d1|] eqn:Hadd; [|done].
  cbn [mbind option_bind]. apply IH. by eapply add_dir_ok.
Qed.

Lemma walk_dirs_ok sh sd rg gp (n : node) : forall rel b (d d' : dict),
  tree_ok (SubTree b d) -> walk_dirs sh sd rg gp n rel d = Some d' ->
  tree_ok (SubTree b d').
Proof.
  induction n as [content|entries IH|] using node_ind; intros rel b d d' Hok;
    [by intros [= <-]| |by intros [= <-]].
  cbn [walk_dirs].
  destruct (add_dirs sh sd rg gp rel (dir_entries entries) d) as [d1|] eqn:Hadd;
    [|done].
  cbn [mbind option_bind]. apply add_dirs_ok with (b := b) in Hadd; [|done].
  clear Hok. revert d1 Hadd.
  induction IH as [|[dirname c] entries Hc _ IHe]; intros d1 Hok;
    [by intros [= <-]|].
  cbn [snd] in Hc. destruct (is_dir c && negb _).
  - destruct (walk_dirs sh sd rg gp c (rel ++ [dirname]) d1) as [d2|] eqn:Hwalk;
      [|done].
    cbn [mbind option_bind]. apply IHe. by eapply Hc.
  - cbn [mbind option_bind]. by apply IHe.
Qed.

(** The dictionaries of a tree that [build_tree_structure] returns have
    each of their keys once. *)
Lemma build_tree_structure_ok fs root_dir dirs_only sh sd rg (tree : dict) :
  build_tree_structure fs root_dir dirs_only sh sd rg = Some tree ->
  tree_ok (SubTree true tree).
Proof.
  unfold build_tree_structure. destruct dirs_only.
  - unfold build_tree_structure_dirs.
    destruct (load_patterns fs rg) as [gp|]; [|done]. cbn [mbind option_bind].
    apply walk_dirs_ok, tree_ok_nil.
  - unfold build_tree_structure_files.
    destruct (walk_filtered_files fs root_dir sh sd rg false) as [out|]; [|done].
    cbn [mbind option_bind]. apply build_files_ok, tree_ok_nil.
Qed.

(** ** The order of a listing *)

Lemma reordered_sym n n' : reordered n n' -> reordered n' n.
Proof.
  induction 1 as [content| |entries entries' Hnames _ IH]; constructor; [done|].
  intros name c' c Hc' Hc. by apply (IH name c c').
Qed.

Lemma reordered_is_dir n n' : reordered n n' -> is_dir n' = is_dir n.
Proof. by destruct 1. Qed.

Lemma reordered_entry (entries entries' : list (str * node)) name c :
  entries.*1 ≡ₚ entries'.*1 -> (name, c) ∈ entries ->
  exists c', (name, c') ∈ entries'.
Proof.
  intros Hnames Hin.
  assert (name ∈ entries'.*1) as ([name' c'] & [= <-] & Hin')%list_elem_of_fmap.
  { rewrite <- Hnames. apply list_elem_of_fmap. by exists (name, c). }
  by exists c'.
Qed.

Lemma reordered_unique n n' : reordered n n' -> unique_names n -> unique_names n'.
Proof.
  induction 1 as [content| |entries entries' Hnames Hsame IH]; [done..|].
  inversion 1 as [| |? Hkeys Hsubs]; subst. constructor.
  - by rewrite <- Hnames.
  - apply Forall_forall. intros [name c'] Hin'. cbn [snd].
    destruct (reordered_entry entries' entries name c') as [c Hin]; [done..|].
    eapply IH; [done..|]. rewrite Forall_forall in Hsubs. by apply Hsubs in Hin.
Qed.

Lemma reordered_proper n n' : reordered n n' -> proper_names n -> proper_names n'.
Proof.
  induction 1 as [content| |entries entries' Hnames Hsame IH]; [done..|].
  inversion 1 as [| |? Hkeys Hsubs]; subst. constructor.
  - by rewrite <- Hnames.
  - apply Forall_forall. intros [name c'] Hin'. cbn [snd].
    destruct (reordered_entry entries' entries name c') as [c Hin]; [done..|].
    eapply IH; [done..|]. rewrite Forall_forall in Hsubs. by apply Hsubs in Hin.
Qed.

Lemma find_entry_elem_of name entries c :
  find_entry name entries = Some c -> (name, c) ∈ entries.
Proof.
  induction entries as [|[k v] entries IH]; [done|]. cbn [find_entry].
  destruct (decide (k = name)) as [->|Hk].
  - rewrite (bool_decide_eq_true_2 _ eq_refl). intros [= ->]. by left.
  - rewrite (bool_decide_eq_false_2 _ Hk). intros ?. right. by apply IH.
Qed.

Lemma find_entry_None name entries :
  find_entry name entries = None -> name ∉ entries.*1.
Proof.
  induction entries as [|[k v] entries IH]; [by intros _ ?%elem_of_nil|].
  cbn [find_entry]. destruct (decide (k = name)) as [->|Hk].
  - by rewrite (bool_decide_eq_true_2 _ eq_refl).
  - rewrite (bool_decide_eq_false_2 _ Hk), fmap_cons. intros Hnone.
    apply not_elem_of_cons. split; [done|by apply IH].
Qed.

(** The patterns that are loaded do not depend on the order. *)
Lemma load_patterns_reordered fs fs' rg :
  reordered fs fs' -> load_patterns fs' rg = load_patterns fs rg.
Proof.
  intros Hsame. unfold load_patterns. destruct rg; [|done]. f_equal.
  unfold parse_gitignore, exists_, open_r, open_rb.
  destruct Hsame as [content| |entries entries' Hnames Hsame]; [done..|].
  cbn [FS.lookup].
  destruct (find_entry (chars ".gitignore") entries) as [c|] eqn:Hfind;
    destruct (find_entry (chars ".gitignore") entries') as [c'|] eqn:Hfind'.
  - apply find_entry_elem_of in Hfind, Hfind'.
    by destruct (Hsame _ _ _ Hfind Hfind').
  - apply find_entry_elem_of in Hfind. apply find_entry_None in Hfind'.
    destruct Hfind'. rewrite <- Hnames. apply list_elem_of_fmap.
    by exists (chars ".gitignore", c).
  - apply find_entry_elem_of in Hfind'. apply find_entry_None in Hfind.
    destruct Hfind. rewrite Hnames. apply list_elem_of_fmap.
    by exists (chars ".gitignore", c').
  - done.
Qed.

(** The walk reaches the same directories. *)
Lemma reach_reordered sh sd rg gp n rel ds n1 :
  reach sh sd rg gp n rel ds n1 -> forall n', reordered n n' ->
  exists n1', reach sh sd rg gp n' rel ds n1' /\ reordered n1 n1'.
Proof.
  induction 1 as [n rel|entries rel d c ds n1 Hin Hc Hp _ IH]; intros n' Hsame.
  - exists n'. split; [constructor|done].
  - inversion Hsame as [| |? entries' Hnames Hchildren]; subst.
    destruct (reordered_entry entries entries' d c) as [c' Hin']; [done..|].
    pose proof (Hchildren _ _ _ Hin Hin') as Hcc'.
    destruct (IH c' Hcc') as (n1' & Hreach & Hn1).
    exists n1'. split; [|done]. econstructor; [done| |done..].
    by rewrite (reordered_is_dir c c').
Qed.

Lemma skipped_no_binary_check fs fs' sh rg gp filename rel :
  skipped fs' sh rg false gp filename rel = skipped fs sh rg false gp filename rel.
Proof. done. Qed.

(** The walk yields the same files. *)
Lemma yielded_reordered fs fs' root_dir sh sd rg gp rel :
  reordered fs fs' ->
  (exists file_path,
     Yielded file_path rel ∈ walk_node fs sh sd rg false gp fs root_dir []) ->
  exists file_path,
    Yielded file_path rel ∈ walk_node fs' sh sd rg false gp fs' root_dir [].
Proof.
  intros Hsame [a Hin].
  apply walk_node_visits in Hin
    as (ds & n1 & Hreach & [?|(entries & filename & -> & Hf & Hskip & [= -> ->])]);
    [done|].
  destruct (reach_reordered _ _ _ _ _ _ _ _ Hreach fs' Hsame) as (n1' & Hreach' & Hn1).
  inversion Hn1 as [| |? entries' Hnames Hchildren]; subst.
  apply file_names_elem_of in Hf as [content Hf].
  destruct (reordered_entry entries entries' filename (File content))
    as [c' Hf']; [done..|].
  pose proof (Hchildren _ _ _ Hf Hf') as Hc'. inversion Hc'; subst.
  eexists. apply walk_node_visits. exists ds, (Dir entries').
  split; [done|]. right. exists entries', filename.
  split; [done|]. split; [|split; [|reflexivity]].
  - apply file_names_elem_of. by exists content.
  - by rewrite (skipped_no_binary_check fs).
Qed.

Lemma reached_reordered fs fs' sh sd rg gp p :
  reordered fs fs' ->
  (exists n1, reach sh sd rg gp fs [] p n1) ->
  exists n1', reach sh sd rg gp fs' [] p n1'.
Proof.
  intros Hsame [n1 Hreach].
  destruct (reach_reordered _ _ _ _ _ _ _ _ Hreach fs' Hsame) as (n1' & ? & _).
  by exists n1'.
Qed.

(** X24.  What is printed for a directory does not depend on the order in
    which the directories are listed: for two trees with the same
    entries, in any order, [build_tree_structure] followed by
    [print_tree_structure] gives the same lines, with or without
    [dirs_only], or raises for both. *)
Theorem printed_tree_listing_order_free (fs fs' : node) (root_dir : str)
    (dirs_only show_hidden show_deps respect_gitignore : bool)
    (prefix : str) :
  reordered fs fs' -> unique_names fs -> proper_names fs ->
  (fun tree => print_tree_structure tree prefix)
    <$> build_tree_structure fs' root_dir dirs_only show_hidden show_deps
          respect_gitignore
  = (fun tree => print_tree_structure tree prefix)
      <$> build_tree_structure fs root_dir dirs_only show_hidden show_deps
            respect_gitignore.
Proof.
  intros Hsame Hunique Hproper.
  pose proof (reordered_unique _ _ Hsame Hunique) as Hunique'.
  pose proof (reordered_proper _ _ Hsame Hproper) as Hproper'.
  pose proof (reordered_sym _ _ Hsame) as Hsame'.
  destruct (build_tree_structure fs root_dir dirs_only show_hidden show_deps
              respect_gitignore) as [tree|] eqn:Hbuild;
    destruct (build_tree_structure fs' root_dir dirs_only show_hidden
                show_deps respect_gitignore) as [tree'|] eqn:Hbuild'.
  - cbn [fmap option_fmap option_map]. f_equal.
    pose proof (build_tree_structure_ok _ _ _ _ _ _ _ Hbuild) as Hok.
    pose proof (build_tree_structure_ok _ _ _ _ _ _ _ Hbuild') as Hok'.
    assert (same_paths tree' tree) as Hpaths.
    { revert Hbuild Hbuild'. unfold build_tree_structure.
      destruct dirs_only.
      - unfold build_tree_structure_dirs.
        rewrite (load_patterns_reordered fs fs') by done.
        destruct (load_patterns fs respect_gitignore) as [gp|]; [|done].
        cbn [mbind option_bind].
        destruct (walk_dirs_shape fs show_hidden show_deps respect_gitignore gp)
          as (t & -> & Hnofile & Hdirs); [done..|].
        destruct (walk_dirs_shape fs' show_hidden show_deps respect_gitignore
                    gp) as (t' & -> & Hnofile' & Hdirs'); [done..|].
        intros [= <-] [= <-] p Hp. split.
        + split; intros Hleaf; [by apply Hnofile' in Hleaf
                               |by apply Hnofile in Hleaf].
        + rewrite Hdirs, Hdirs' by done.
          split; by apply reached_reordered.
      - unfold build_tree_structure_files, walk_filtered_files, walk_trace.
        rewrite (load_patterns_reordered fs fs') by done.
        destruct (load_patterns fs respect_gitignore) as [gp|]; [|done].
        cbn [fmap option_fmap option_map mbind option_bind].
        destruct (build_files_shape fs root_dir show_hidden show_deps
                    respect_gitignore gp) as (t & -> & Hshape); [done..|].
        destruct (build_files_shape fs' root_dir show_hidden show_deps
                    respect_gitignore gp) as (t' & -> & Hshape'); [done..|].
        intros [= <-] [= <-] p Hp.
        destruct (Hshape p Hp) as [-> ->].
        destruct (Hshape' p Hp) as [-> ->]. split.
        + split; by apply yielded_reordered.
        + split; intros (a & rel & Hin & Hpre & Hneq).
          * destruct (yielded_reordered fs' fs root_dir show_hidden show_deps
                        respect_gitignore gp rel) as [a' Hin'];
              [done|by exists a|]. by exists a', rel.
          * destruct (yielded_reordered fs fs' root_dir show_hidden show_deps
                        respect_gitignore gp rel) as [a' Hin'];
              [done|by exists a|]. by exists a', rel. }
    unfold print_tree_structure.
    set (h := height (SubTree true tree)).
    set (h' := height (SubTree true tree')).
    rewrite (print_lines_enough h (Nat.max h h') tree) by (unfold h; lia).
    rewrite (print_lines_enough h' (Nat.max h h') tree') by (unfold h'; lia).
    by eapply print_lines_same.
  - exfalso. revert Hbuild Hbuild'. unfold build_tree_structure.
    destruct dirs_only.
    + unfold build_tree_structure_dirs.
      rewrite (load_patterns_reordered fs fs') by done.
      destruct (load_patterns fs respect_gitignore) as [gp|]; [|done].
      cbn [mbind option_bind].
      destruct (walk_dirs_shape fs' show_hidden show_deps respect_gitignore
                  gp) as (t' & -> & _); done.
    + unfold build_tree_structure_files, walk_filtered_files, walk_trace.
      rewrite (load_patterns_reordered fs fs') by done.
      destruct (load_patterns fs respect_gitignore) as [gp|]; [|done].
      cbn [fmap option_fmap option_map mbind option_bind].
      destruct (build_files_shape fs' root_dir show_hidden show_deps
                  respect_gitignore gp) as (t' & -> & _); done.
  - exfalso. revert Hbuild Hbuild'. unfold build_tree_structure.
    destruct dirs_only.
    + unfold build_tree_structure_dirs.
      rewrite (load_patterns_reordered fs fs') by done.
      destruct (load_patterns fs respect_gitignore) as [gp|]; [|done].
      cbn [mbind option_bind].
      destruct (walk_dirs_shape fs show_hidden show_deps respect_gitignore
                  gp) as (t & -> & _); done.
    + unfold build_tree_structure_files, walk_filtered_files, walk_trace.
      rewrite (load_patterns_reordered fs fs') by done.
      destruct (load_patterns fs respect_gitignore) as [gp|]; [|done].
      cbn [fmap option_fmap option_map mbind option_bind].
      destruct (build_files_shape fs root_dir show_hidden show_deps
                  respect_gitignore gp) as (t & -> & _); done.
  - done.
Qed.

(** A file and a directory, listed in the two orders. *)
Lemma printed_tree_listing_order_free_witness :
  (fun tree => print_tree_structure tree [])
    <$> build_tree_structure
          (Dir [(chars "a", Dir []); (chars "b", File (Some []))])
          "/repo" false false false false
  = (fun tree => print_tree_structure tree [])
      <$> build_tree_structure
            (Dir [(chars "b", File (Some [])); (chars "a", Dir [])])
            "/repo" false false false false.
Proof.
  apply (printed_tree_listing_order_free
           (Dir [(chars "b", File (Some [])); (chars "a", Dir [])])
           (Dir [(chars "a", Dir []); (chars "b", File (Some []))])
           "/repo" false false false false []).
  - apply reordered_Dir; [apply Permutation_swap|].
    intros name c c' Hc Hc'.
    repeat (apply elem_of_cons in Hc as [Hc|Hc]);
      try (by apply elem_of_nil in Hc);
      repeat (apply elem_of_cons in Hc' as [Hc'|Hc']);
      try (by apply elem_of_nil in Hc');
      simplify_eq.
    + constructor.
    + apply reordered_Dir; [done|]. by intros ? ? ? ?%elem_of_nil.
  - apply unique_Dir; [compute_done|].
    constructor; [apply unique_File|].
    constructor; [|constructor]. apply unique_Dir; constructor.
  - apply proper_Dir.
    + constructor; [|constructor; [|constructor]];
        unfold entry_name, name_ok; compute_done.
    + constructor; [apply proper_File|].
      constructor; [|constructor]. apply proper_Dir; constructor.
Defined.

(** ** The listing that is not recursive *)

(** The directories that the listing keeps. *)
Abbreviation top_dir fs all show_deps :=
  (fun entry : str =>
     isdir fs entry
     && negb (startswith entry "." && negb all)
     && negb (bool_decide (entry ∈ COMMON_IGNORE_DIRS) && negb show_deps)
     = true).

Lemma classify_dirs_only fs all show_deps entries : forall dirs files,
  classify fs all show_deps true entries dirs files
  = (dirs ++ filter (top_dir fs all show_deps) entries, files).
Proof.
  induction entries as [|entry entries IH]; intros dirs files.
  - by rewrite filter_nil, app_nil_r.
  - cbn [classify]. cbv zeta. rewrite filter_cons.
    destruct (startswith entry "." && negb all).
    { rewrite andb_false_r. cbn [andb].
      destruct (decide (false = true)); [done|]. apply IH. }
    destruct (isdir fs entry); cbn [andb negb].
    + destruct (bool_decide (entry ∈ COMMON_IGNORE_DIRS) && negb show_deps);
        cbn [negb].
      * destruct (decide (false = true)); [done|]. apply IH.
      * destruct (decide (true = true)); [|done].
        rewrite IH. by rewrite <- app_assoc.
    + destruct (decide (false = true)); [done|]. apply IH.
Qed.

Lemma pruned_without_patterns sh sd name rel :
  pruned sh sd false None name rel
  = (startswith name "." && negb sh)
    || (bool_decide (name ∈ COMMON_IGNORE_DIRS) && negb sd).
Proof.
  unfold pruned, gitignored. destruct (startswith name "." && negb sh); [done|].
  by destruct (bool_decide (name ∈ COMMON_IGNORE_DIRS) && negb sd).
Qed.

Lemma find_entry_unique (entries : list (str * node)) name c :
  NoDup entries.*1 -> (name, c) ∈ entries -> find_entry name entries = Some c.
Proof.
  induction entries as [|[k v] entries IH]; [by intros _ ?%elem_of_nil|].
  rewrite fmap_cons. intros [Hk Hd]%NoDup_cons. cbn [find_entry fst] in *.
  intros [[= -> ->]|Hin]%elem_of_cons.
  - by rewrite (bool_decide_eq_true_2 _ eq_refl).
  - rewrite bool_decide_eq_false_2; [by apply IH|].
    intros ->. apply Hk, list_elem_of_fmap. by exists (name, c).
Qed.

Lemma StronglySorted_fmap {A B} (R : A -> A -> Prop) (R' : B -> B -> Prop)
    (f : A -> B) (l : list A) :
  (forall x y, x ∈ l -> y ∈ l -> R x y -> R' (f x) (f y)) ->
  StronglySorted R l -> StronglySorted R' (f <$> l).
Proof.
  intros HR. induction 1 as [|x l Hl IH Hx]; [constructor|].
  rewrite fmap_cons. constructor.
  - apply IH. intros y z Hy Hz. apply HR; by right.
  - apply Forall_fmap, Forall_forall. intros y Hy. cbn.
    rewrite Forall_forall in Hx. apply HR; [by left|by right|by apply Hx].
Qed.

Lemma StronglySorted_filter {A} (R : A -> A -> Prop) (P : A -> Prop)
    `{forall x, Decision (P x)} (l : list A) :
  StronglySorted R l -> StronglySorted R (filter P l).
Proof.
  induction 1 as [|x l Hl IH Hx]; [constructor|].
  rewrite filter_cons. destruct (decide (P x)); [|done].
  constructor; [done|]. rewrite Forall_forall in Hx |- *.
  intros y [_ Hy]%list_elem_of_filter. by apply Hx.
Qed.

Lemma concat_imap_singleton {A B} (l : list A) : forall (g : nat -> A -> list B)
    (h : nat -> A -> B),
  (forall i x, l !! i = Some x -> g i x = [h i x]) ->
  concat (imap g l) = imap h l.
Proof.
  induction l as [|x l IH]; intros g h Hgh; [done|].
  cbn [imap concat]. rewrite (Hgh 0 x) by done. cbn [app]. f_equal.
  apply IH. intros i y Hy. by apply (Hgh (S i)).
Qed.

(** X25.  With [dirs_only], and without the patterns of [.gitignore],
    the listing that is not recursive prints the lines that
    [print_tree_structure] prints for the top of the tree, those that do
    not come from its nested calls. *)
Theorem list_top_level_is_top_of_tree (entries : list (str * node))
    (root_dir : str) (show_hidden show_deps : bool) :
  unique_names (Dir entries) -> proper_names (Dir entries) ->
  exists tree,
    build_tree_structure (Dir entries) root_dir true show_hidden show_deps false
    = Some tree
    /\ list_top_level (Dir entries) show_hidden show_deps true
       = Some (print_lines 1 tree []).
Proof.
  intros Hunique Hproper.
  unfold build_tree_structure, build_tree_structure_dirs.
  cbn [load_patterns mbind option_bind].
  destruct (walk_dirs_shape (Dir entries) show_hidden show_deps false None)
    as (tree & Hwalk & Hnofile & Hdirs); [done..|].
  exists tree. split; [done|].
  pose proof (walk_dirs_ok _ _ _ _ _ _ true _ _ (tree_ok_nil true) Hwalk) as Hok.
  inversion Hok as [|? ? Hkeys _]; subst.
  inversion Hunique as [| |? Hnames _]; subst.
  (* the items of the tree are the directories that the listing keeps *)
  assert (forall name,
            (exists t, (name, t) ∈ tree)
            <-> name ∈ entries.*1 /\ top_dir (Dir entries) show_hidden show_deps name)
    as Hitems.
  { intros name. split.
    - intros [t Hin]. apply elem_of_dict_get in Hin; [|done].
      assert (is_subtree tree [name]) as Hsub.
      { cbn [tree_at]. rewrite Hin. destruct t as [|b sub]; [|by eexists _, _].
        destruct (Hnofile [name]). by cbn [tree_at]. }
      apply Hdirs in Hsub as [n' Hreach]; [|done].
      inversion Hreach as [|? ? ? c ? ? Hc Hdir Hp Hrest]; subst.
      inversion Hrest; subst. cbn [app] in Hp.
      rewrite pruned_without_patterns in Hp.
      apply orb_false_elim in Hp as [Hhidden Hdeps]. split.
      + apply list_elem_of_fmap. by exists (name, n').
      + unfold isdir. cbn [FS.lookup].
        rewrite (find_entry_unique entries name n') by done.
        by rewrite Hdir, Hhidden, Hdeps.
    - intros [([name' c] & -> & Hin)%list_elem_of_fmap Htop]. cbn [fst] in *.
      unfold isdir in Htop. cbn [FS.lookup] in Htop.
      rewrite (find_entry_unique entries name' c) in Htop by done.
      apply andb_true_iff in Htop as [[Hdir Hhidden]%andb_true_iff Hdeps].
      apply negb_true_iff in Hhidden, Hdeps.
      assert (is_subtree tree [name']) as (b & sub & Hat).
      { apply Hdirs; [done|]. exists c. econstructor; [done..| |constructor].
        cbn [app]. by rewrite pruned_without_patterns, Hhidden, Hdeps. }
      cbn [tree_at] in Hat. apply dict_get_elem_of in Hat. by eexists. }
  assert (forall x, x ∈ tree -> is_none x.2 = false) as Hnone.
  { intros [name [|b sub]] Hin; [|done].
    apply elem_of_dict_get in Hin; [|done].
    destruct (Hnofile [name]). by cbn [tree_at]. }
  set (items := sorted key_lt key tree).
  set (names := sorted str_lt id entries.*1).
  assert (items.*1 = filter (top_dir (Dir entries) show_hidden show_deps) names) as Hsame.
  { apply list_eq_Forall2.
    apply (sorted_related str_lt id str_lt_irrefl str_lt_trans).
    - eapply StronglySorted_fmap;
        [|apply (sorted_sorted key_lt key key_lt_trans key_lt_total);
          by apply NoDup_keys].
      intros x y Hx%elem_of_sorted_1 Hy%elem_of_sorted_1. unfold key, key_lt.
      cbn [fst snd]. rewrite (Hnone x Hx), (Hnone y Hy).
      by rewrite (bool_decide_eq_true_2 _ eq_refl).
    - apply StronglySorted_filter.
      apply (sorted_sorted str_lt id str_lt_trans str_lt_total).
      by rewrite list_fmap_id.
    - done.
    - intros name ([name' t] & -> & Hin%elem_of_sorted_1)%list_elem_of_fmap.
      exists name'. split; [|done]. cbn [fst].
      apply list_elem_of_filter.
      destruct (proj1 (Hitems name')) as [Hname Htop]; [by exists t|].
      split; [done|]. by apply elem_of_sorted_2.
    - intros name [Htop Hin%elem_of_sorted_1]%list_elem_of_filter.
      exists name. split; [|done].
      destruct (proj2 (Hitems name)) as [t Ht]; [done|].
      apply list_elem_of_fmap. exists (name, t). split; [done|].
      by apply elem_of_sorted_2. }
  unfold list_top_level. cbn [listdir mbind option_bind]. fold names.
  rewrite classify_dirs_only, app_nil_l, app_nil_r, <- Hsame. f_equal.
  cbn [print_lines]. cbv zeta. fold items.
  rewrite imap_fmap, length_fmap.
  symmetry. apply concat_imap_singleton.
  intros i [name t] Hx. cbn [fst compose].
  apply list_elem_of_lookup_2, elem_of_sorted_1 in Hx.
  pose proof (Hnone _ Hx) as Ht. destruct t as [|b sub]; [done|].
  cbn [print_item is_none snd print_lines app].
  destruct (proj1 (Hitems name)) as [_ Htop]; [by eexists|].
  apply andb_true_iff in Htop as [[-> _]%andb_true_iff _]. done.
Qed.

(** A directory and a file at the root. *)
Lemma list_top_level_is_top_of_tree_witness :
  exists tree,
    build_tree_structure
      (Dir [(chars "src", Dir []); (chars "notes.txt", File (Some []))])
      "/repo" true false false false
    = Some tree
    /\ list_top_level
         (Dir [(chars "src", Dir []); (chars "notes.txt", File (Some []))])
         false false true
       = Some (print_lines 1 tree []).
Proof.
  apply (list_top_level_is_top_of_tree
           [(chars "src", Dir []); (chars "notes.txt", File (Some []))]
           "/repo" false false).
  - apply unique_Dir; [compute_done|].
    constructor; [|constructor; [apply unique_File|constructor]].
    apply unique_Dir; constructor.
  - apply proper_Dir.
    + constructor; [|constructor; [|constructor]];
        unfold entry_name, name_ok; compute_done.
    + constructor; [|constructor; [apply proper_File|constructor]].
      apply proper_Dir; constructor.
Defined.

Import DbInfo.

(** ** The table of the rows *)

Lemma length_ljust s width : length s <= width -> length (ljust s width) = width.
Proof. intros Hs. unfold ljust. rewrite length_app, length_replicate. lia. Qed.

Lemma length_join (sep : str) (parts : list str) :
  length (join sep parts)
  = sum_list (length <$> parts) + length sep * (length parts - 1).
Proof.
  induction parts as [|p parts IH]; [cbn; lia|].
  destruct parts as [|p' parts].
  - cbn. lia.
  - change (join sep (p :: p' :: parts))
      with (p ++ sep ++ join sep (p' :: parts)).
    rewrite !length_app, IH. cbn. lia.
Qed.

Lemma length_cells (cells : list str) : forall widths : list nat,
  Forall2 (fun cell width => length cell <= width) cells widths ->
  length <$> zip_with ljust cells widths = widths.
Proof.
  induction 1 as [|cell width cells widths Hcell _ IH]; [done|].
  cbn [zip_with fmap list_fmap]. rewrite length_ljust by done. f_equal.
  apply IH.
Qed.

Lemma length_dashes (widths : list nat) :
  length <$> ((fun width => replicate width "-"%char) <$> widths) = widths.
Proof.
  induction widths as [|w widths IH]; [done|].
  cbn [fmap list_fmap]. rewrite length_replicate. f_equal. apply IH.
Qed.

Lemma max_list_elem_of n ns : n ∈ ns -> n <= max_list ns.
Proof.
  induction ns as [|m ns IH]; [by intros ?%elem_of_nil|].
  intros [->|Hin]%elem_of_cons; simpl; [lia|]. apply IH in Hin. lia.
Qed.

(** The widths are found when no row is too short, and no name and no
    value is wider than the width of its column. *)
Lemma col_widths_from_spec columns : forall i rows,
  rows <> [] ->
  Forall (fun row : list str => length row = i + length columns) rows ->
  exists widths,
    col_widths_from i columns rows = Some widths
    /\ Forall2 (fun col width => length col <= width) columns widths
    /\ Forall (fun row : list str =>
                 Forall2 (fun cell width => length cell <= width)
                         (drop i row) widths) rows.
Proof.
  induction columns as [|col columns IH]; intros i rows Hrows Hlen.
  - exists []. split; [done|]. split; [constructor|].
    eapply Forall_impl; [exact Hlen|]. intros row Hrow. cbn beta in Hrow.
    rewrite drop_ge; [constructor|]. cbn [length] in Hrow. lia.
  - cbn [col_widths_from]. unfold col_width.
    assert (exists lens,
              mapM (fun row : list str => length <$> row !! i) rows = Some lens
              /\ Forall2 (fun (row : list str) n =>
                            exists cell, row !! i = Some cell /\ n = length cell)
                         rows lens) as (lens & Hlens & Hcells).
    { assert (is_Some (mapM (fun row : list str => length <$> row !! i) rows))
        as [lens Hlens].
      { apply mapM_is_Some. eapply Forall_impl; [exact Hlen|].
        intros row Hrow. cbn beta in Hrow. cbn [length] in Hrow.
        destruct (lookup_lt_is_Some_2 row i) as [cell Hcell]; [lia|].
        unfold compose. apply fmap_is_Some. exists cell. exact Hcell. }
      exists lens. split; [done|]. apply mapM_Some_1 in Hlens.
      eapply Forall2_impl; [exact Hlens|]. intros row n Hn. cbn beta in Hn.
      destruct (row !! i) as [cell|]; [|done]. injection Hn as <-.
      by exists cell. }
    rewrite Hlens. cbn [mbind option_bind].
    rewrite bool_decide_eq_false_2.
    2:{ intros ->. apply Forall2_nil_inv_r in Hcells. done. }
    destruct (IH (S i) rows Hrows) as (widths & Hrest & Hcols & Hvals).
    { eapply Forall_impl; [exact Hlen|]. intros row Hrow. cbn beta in *.
      cbn [length] in Hrow. lia. }
    rewrite Hrest. cbn [mbind option_bind]. eexists. split; [reflexivity|].
    split; [constructor; [lia|done]|].
    apply Forall_forall. intros row Hrow.
    rewrite Forall_forall in Hvals. specialize (Hvals row Hrow).
    apply list_elem_of_lookup_1 in Hrow as [j Hj].
    destruct (Forall2_lookup_l _ _ _ _ _ Hcells Hj)
      as (n & Hn & cell & Hcell & ->).
    rewrite (drop_S (A:=str) row cell i Hcell). constructor; [|done].
    apply list_elem_of_lookup_2, max_list_elem_of in Hn. lia.
Qed.

(** X26.  The table that [get_table_sample] prints is a rectangle: when
    the query has returned rows, each with one value per column, the
    header, the separator and the lines of the rows all have the same
    length. *)
Theorem print_rows_rectangle (columns : list str) (rows : list (list str)) :
  rows <> [] ->
  Forall (fun row : list str => length row = length columns) rows ->
  exists lines width,
    print_rows columns rows = Some lines
    /\ length lines = 2 + length rows
    /\ Forall (fun line : str => length line = width) lines.
Proof.
  intros Hrows Hlen.
  destruct (col_widths_from_spec columns 0 rows Hrows Hlen)
    as (widths & Hwidths & Hcols & Hvals).
  unfold print_rows. destruct rows as [|row0 rows0]; [done|].
  rewrite Hwidths. cbn [mbind option_bind]. cbv zeta.
  remember (row0 :: rows0) as rows eqn:Heq. clear Heq.
  eexists _, (2 + sum_list widths + 3 * (length widths - 1)).
  split; [reflexivity|]. split; [cbn [length]; by rewrite length_fmap|].
  assert (length columns = length widths) as Hn by by eapply Forall2_length.
  constructor; [|constructor].
  - rewrite !length_app, length_join, length_cells by done.
    rewrite length_zip_with. cbn [length chars list_ascii_of_string]. lia.
  - rewrite !length_app, length_join, length_dashes, length_fmap.
    cbn [length chars list_ascii_of_string]. lia.
  - apply Forall_fmap, Forall_forall. intros row Hrow. cbn.
    rewrite Forall_forall in Hvals, Hlen.
    specialize (Hvals row Hrow). specialize (Hlen row Hrow).
    rewrite drop_0 in Hvals.
    rewrite !length_app, length_join, length_cells by done.
    rewrite length_zip_with. cbn [length]. lia.
Qed.

(** Two columns and two rows. *)
Lemma print_rows_rectangle_witness :
  exists lines width,
    print_rows [chars "id"; chars "name"]
               [[chars "1"; chars "alice"]; [chars "22"; chars "bob"]]
    = Some lines
    /\ length lines = 2 + length [[chars "1"; chars "alice"];
                                  [chars "22"; chars "bob"]]
    /\ Forall (fun line : str => length line = width) lines.
Proof.
  apply (print_rows_rectangle
           [chars "id"; chars "name"]
           [[chars "1"; chars "alice"]; [chars "22"; chars "bob"]]).
  - discriminate.
  - repeat constructor.
Defined.
